(** * gigagrad: the graph-construction core ([src/graph.cpp])

    A shallow embedding of the expression builder of gigagrad: the node
    arena, the shape / stride / broadcast algebra, the reduction and view
    constructors and the operator layer with its algebraic rewrites.

    Conventions of the embedding.
    - [dim_t] is a signed 64-bit integer in the source.  A value of it is
      a [Z]; the products of the source ([cur *= tmp] in [ComputeStrides],
      [std::multiplies] and [x * y] in [reshape]) are taken modulo [2^64]
      and read as signed ([dim_mul]): signed overflow is undefined in
      C++, and the model follows what the compiled code does.  [%] and
      [/] are the truncating [Z.rem] and [Z.quot] of C++; the sum in
      [FixDim] stays below twice the rank and cannot wrap.
    - A C++ exception ([std::domain_error]) is the outcome [Throw]; it carries
      the arena as it is when the exception leaves the call.  Undefined
      behaviour (indexing the arena outside its bounds, a modulo or a
      division by zero, the quotient of the least [dim_t] by [-1]) is the
      outcome [Undef].
    - A handle of the source is a graph pointer with an arena index.  The
      main development follows the programs whose handles all belong to
      the graph they are used on: there a handle is the arena index and
      the graph pointer is left out.  Handles of several graphs, and what
      an entry point does with an operand of another graph, are modelled
      in the module [graphs]. *)

From Stdlib Require Import ZArith String Floats.SpecFloat Sorting.Sorted.
From stdpp Require Import base numbers list sorting.

#[local] Open Scope Z_scope.

Module gigagrad.

(** ** Outcomes of pure helpers *)

Inductive Outcome (A : Type) : Type :=
| Ok (a : A)
| Throw (what : string)
| Undef.
Arguments Ok {A} a.
Arguments Throw {A} what.
Arguments Undef {A}.

(** Modelled from the spec: the declarations of [graph.h] are not part of
    the sources at hand; [dim_t] is the signed integer type of a dimension,
    [Shape] and [Dims] are vectors of it. *)
Abbreviation dim_t := Z (only parsing).
Abbreviation Shape := (list Z) (only parsing).
Abbreviation Dims := (list Z) (only parsing).

(** Modelled from the spec: [graph.h] is not part of the sources at hand;
    [dim_t] is taken as the signed 64-bit integer that [ssize_t], the type
    of the loop counters of this file, is.  [wrap z] is the [dim_t] that a
    result [z] is stored as: [z] modulo [2^64], read as a signed number. *)
Definition dim_t_min : Z := -9223372036854775808.
Definition dim_t_max : Z := 9223372036854775807.

Definition wrap (z : Z) : dim_t :=
  (z + 9223372036854775808) mod 18446744073709551616 - 9223372036854775808.

(** [x * y] on [dim_t]. *)
Definition dim_mul (x y : dim_t) : dim_t := wrap (x * y).

(** [z] is a value of [dim_t]. *)
Definition in_dim_t (z : Z) : bool := (dim_t_min <=? z) && (z <=? dim_t_max).

(** ** Shape / stride algebra *)

(** [FixDim]: [((dim % mod) + mod) % mod]; the modulo by zero is undefined. *)
Definition FixDim (dim mod_ : dim_t) : Outcome dim_t :=
  if mod_ =? 0 then Undef
  else Ok (Z.rem (Z.rem dim mod_ + mod_) mod_).

(** The loop of [GetBroadcastedShape]: [n] iterations are left, [i] is the
    loop counter, [larger] is the copy that is updated in place. *)
Fixpoint GetBroadcastedShape_loop (n i : nat) (larger smaller : Shape)
  : Outcome Shape :=
  match n with
  | O => Ok larger
  | S n' =>
    let ix := (length larger - i - 1)%nat in
    match larger !! ix, smaller !! (length smaller - i - 1)%nat with
    | Some dim_x, Some dim_y =>
      if (dim_x =? 1) && negb (dim_y =? 1) then
        GetBroadcastedShape_loop n' (S i) (<[ix := dim_y]> larger) smaller
      else if negb (dim_x =? 1) && (dim_y =? 1) then
        GetBroadcastedShape_loop n' (S i) larger smaller
      else if dim_x =? dim_y then
        GetBroadcastedShape_loop n' (S i) larger smaller
      else Throw "Cannot broadcast incompatible shapes"
    | _, _ => Undef
    end
  end.

Definition GetBroadcastedShape (x y : Shape) : Outcome Shape :=
  let larger := if (length y <? length x)%nat then x else y in
  let smaller := if (length y <? length x)%nat then y else x in
  GetBroadcastedShape_loop (length smaller) 0 larger smaller.

(** The loop of [ComputeStrides], from [i = n - 1] down to [0]. *)
Fixpoint ComputeStrides_loop (n : nat) (cur : dim_t) (shape : Shape) : Shape :=
  match n with
  | O => shape
  | S i =>
    match shape !! i with
    | Some tmp =>
      ComputeStrides_loop i (dim_mul cur tmp)
        (<[i := if tmp =? 1 then 0 else cur]> shape)
    | None => shape
    end
  end.

Definition ComputeStrides (shape : Shape) : Shape :=
  ComputeStrides_loop (length shape) 1 shape.

(** [ComputeReducedShape]: the loop that marks the reduced dimensions with
    [-1]; an index outside the shape is an out-of-bounds write. *)
Fixpoint mark_dims (dims : Dims) (shape : Shape) : Outcome Shape :=
  match dims with
  | [] => Ok shape
  | dim :: dims' =>
    if (0 <=? dim) && (Z.to_nat dim <? length shape)%nat
    then mark_dims dims' (<[Z.to_nat dim := -1]> shape)
    else Undef
  end.

Definition ComputeReducedShape (x_shape : Shape) (dims : Dims) (keepdim : bool)
  : Outcome Shape :=
  match dims with
  | [] => if keepdim then Ok (replicate (length x_shape) 1) else Ok []
  | _ =>
    if (length x_shape <? length dims)%nat then
      Throw "Specified more dims to reduce on than there are dimensions in tensor"
    else
      match mark_dims dims x_shape with
      | Ok shape =>
        if negb keepdim
        then Ok (filter (λ d, d ≠ -1) shape)
        else Ok ((λ d, if d =? -1 then 1 else d) <$> shape)
      | Throw w => Throw w
      | Undef => Undef
      end
  end.

(** ** Data model *)

(** Single-precision immediates: IEEE 754 binary32 values, with the sign
    flip of the unary minus on [float]. *)
Abbreviation float := spec_float (only parsing).
Definition fneg (x : float) : float := SFopp x.
(** [-1], [1.0], [0.0f] and [3.14159265f / 2.0f] as binary32 values. *)
Definition f_minus_one : float := S754_finite true 8388608 (-23).
Definition f_one : float := S754_finite false 8388608 (-23).
Definition f_zero : float := S754_zero false.
Definition f_half_pi : float := S754_finite false 13176795 (-23).

(** Modelled from the spec: the node variants of [graph.h], which is not
    part of the sources at hand.  A handle is the index into the arena. *)
Abbreviation GraphNodeHandle := nat (only parsing).

Inductive UnaryOpType := EXP | LOG | SIN.
Inductive BinaryOpType := ADD | SUB | MUL | DIV | POW | MAX | CMP.
Inductive ReduceOpType := RSUM | RMAX.

Inductive Variant : Type :=
| Tensor
| Immediate (value : float)
| UnaryOp (type : UnaryOpType) (x : GraphNodeHandle)
| BinaryOp (type : BinaryOpType) (x y : GraphNodeHandle)
| ReduceOp (type : ReduceOpType) (x : GraphNodeHandle) (dims : Dims)
           (keepdim : bool)
| ViewOp (x : GraphNodeHandle).

Record GraphNode : Type := mkNode {
  u : Variant;
  shape : Shape;
  strides : Shape;
}.

Record Graph : Type := mkGraph {
  inputs : list nat;
  nodes : list GraphNode;
}.

Definition empty_graph : Graph := mkGraph [] [].

(** The node references a variant holds. *)
Definition refs (v : Variant) : list GraphNodeHandle :=
  match v with
  | Tensor | Immediate _ => []
  | UnaryOp _ x => [x]
  | BinaryOp _ x y => [x; y]
  | ReduceOp _ x _ _ => [x]
  | ViewOp x => [x]
  end.

(** ** The builder monad: the arena is threaded through every call *)

Inductive Result (A : Type) : Type :=
| ROk (a : A) (g : Graph)
| RThrow (what : string) (g : Graph)
| RUndef.
Arguments ROk {A} a g.
Arguments RThrow {A} what g.
Arguments RUndef {A}.

Definition M (A : Type) : Type := Graph → Result A.

Definition ret {A} (a : A) : M A := λ g, ROk a g.
Definition bind {A B} (m : M A) (f : A → M B) : M B :=
  λ g, match m g with
       | ROk a g' => f a g'
       | RThrow w g' => RThrow w g'
       | RUndef => RUndef
       end.
Definition throw {A} (what : string) : M A := λ g, RThrow what g.
Definition undef {A} : M A := λ _, RUndef.
Definition lift {A} (o : Outcome A) : M A :=
  match o with Ok a => ret a | Throw w => throw w | Undef => undef end.

Notation "x <- m ;; k" := (bind m (λ x, k))
  (at level 100, m at next level, right associativity,
   format "x  <-  m  ;;  '/' k").

(** [GraphNodeHandle::GetNode]: [graph->nodes[node_idx]], unchecked. *)
Definition GetNode (h : GraphNodeHandle) : M GraphNode :=
  λ g, match nodes g !! h with Some n => ROk n g | None => RUndef end.
Definition GraphNodeHandle_shape (h : GraphNodeHandle) : M Shape :=
  node <- GetNode h ;; ret (shape node).
Definition GraphNodeHandle_strides (h : GraphNodeHandle) : M Shape :=
  node <- GetNode h ;; ret (strides node).

(** [Graph::AddNode(GraphNode)] *)
Definition AddNode (node : GraphNode) : M GraphNodeHandle :=
  λ g, ROk (length (nodes g)) (mkGraph (inputs g) (nodes g ++ [node])).

Definition AddNode_Tensor (shape strides : Shape) : M GraphNodeHandle :=
  AddNode (mkNode Tensor shape strides).

Definition AddNode_Immediate (imm : float) : M GraphNodeHandle :=
  AddNode (mkNode (Immediate imm) [] []).

Definition AddNode_UnaryOp (type : UnaryOpType) (x : GraphNodeHandle)
  : M GraphNodeHandle :=
  sh <- GraphNodeHandle_shape x ;;
  st <- GraphNodeHandle_strides x ;;
  AddNode (mkNode (UnaryOp type x) sh st).

Definition AddNode_BinaryOp (type : BinaryOpType) (x y : GraphNodeHandle)
  : M GraphNodeHandle :=
  xs <- GraphNodeHandle_shape x ;;
  ys <- GraphNodeHandle_shape y ;;
  shape <- lift (GetBroadcastedShape xs ys) ;;
  AddNode (mkNode (BinaryOp type x y) shape (ComputeStrides shape)).

Definition AddNode_ReduceOp (type : ReduceOpType) (x : GraphNodeHandle)
    (dims : Dims) (keepdim : bool) : M GraphNodeHandle :=
  xs <- GraphNodeHandle_shape x ;;
  shape <- lift (ComputeReducedShape xs dims keepdim) ;;
  AddNode (mkNode (ReduceOp type x dims keepdim) shape (ComputeStrides shape)).

Definition AddNode_ViewOp (x : GraphNodeHandle) (shape strides : Shape)
  : M GraphNodeHandle :=
  AddNode (mkNode (ViewOp x) shape strides).

Definition Graph_Immediate (imm : float) : M GraphNodeHandle :=
  AddNode_Immediate imm.

Definition Graph_AddInput (shape : Shape) : M GraphNodeHandle :=
  λ g, AddNode_Tensor shape (ComputeStrides shape)
         (mkGraph (inputs g ++ [length (nodes g)]) (nodes g)).

Definition Graph_AddInput_dim (dim : dim_t) : M GraphNodeHandle :=
  Graph_AddInput [dim].

(** ** Unary and binary primitives (the operator layer) *)

Definition WrapInUnary (x : GraphNodeHandle) (type : UnaryOpType)
  : M GraphNodeHandle :=
  AddNode_UnaryOp type x.

Definition exp (x : GraphNodeHandle) := WrapInUnary x EXP.
Definition log (x : GraphNodeHandle) := WrapInUnary x LOG.
Definition sin (x : GraphNodeHandle) := WrapInUnary x SIN.

Definition operator_add (x y : GraphNodeHandle) := AddNode_BinaryOp ADD x y.
Definition operator_add_fh (x : float) (y : GraphNodeHandle) :=
  xnode <- AddNode_Immediate x ;; operator_add xnode y.
Definition operator_add_hf (x : GraphNodeHandle) (y : float) :=
  operator_add_fh y x.

Definition operator_sub (x y : GraphNodeHandle) := AddNode_BinaryOp SUB x y.
Definition operator_sub_fh (x : float) (y : GraphNodeHandle) :=
  operator_add_fh (fneg x) y.
Definition operator_sub_hf (x : GraphNodeHandle) (y : float) :=
  operator_add_hf x (fneg y).

Definition operator_mul (x y : GraphNodeHandle) := AddNode_BinaryOp MUL x y.
Definition operator_mul_fh (x : float) (y : GraphNodeHandle) :=
  xnode <- AddNode_Immediate x ;; operator_mul xnode y.
Definition operator_mul_hf (x : GraphNodeHandle) (y : float) :=
  operator_mul_fh y x.

(** [operator-(GraphNodeHandle)]: [-1 * x]. *)
Definition operator_neg (x : GraphNodeHandle) := operator_mul_fh f_minus_one x.

Definition operator_div (x y : GraphNodeHandle) := AddNode_BinaryOp DIV x y.
Definition operator_div_fh (x : float) (y : GraphNodeHandle) :=
  xnode <- AddNode_Immediate x ;; operator_div xnode y.
Definition operator_div_hf (x : GraphNodeHandle) (y : float) :=
  ynode <- AddNode_Immediate y ;; operator_div x ynode.

(** [operator^(GraphNodeHandle, float)] *)
Definition operator_xor (x : GraphNodeHandle) (y : float) :=
  ynode <- AddNode_Immediate y ;; AddNode_BinaryOp POW x ynode.

Definition operator_eq (x y : GraphNodeHandle) := AddNode_BinaryOp CMP x y.
Definition operator_eq_fh (x : float) (y : GraphNodeHandle) :=
  xnode <- AddNode_Immediate x ;; operator_eq xnode y.
Definition operator_eq_hf (x : GraphNodeHandle) (y : float) :=
  operator_eq_fh y x.

Definition max (x y : GraphNodeHandle) := AddNode_BinaryOp MAX x y.
Definition max_fh (x : float) (y : GraphNodeHandle) :=
  xnode <- AddNode_Immediate x ;; max xnode y.
Definition max_hf (x : GraphNodeHandle) (y : float) := max_fh y x.

(** [x > y] is [max(x, y) == x]. *)
Definition operator_gt_hf (x : GraphNodeHandle) (y : float) :=
  m <- max_hf x y ;; operator_eq m x.
Definition operator_gt_fh (x : float) (y : GraphNodeHandle) :=
  m <- max_fh x y ;; operator_eq_hf m x.
Definition operator_gt (x y : GraphNodeHandle) :=
  m <- max x y ;; operator_eq m x.

(** [x < y] is [y > x]. *)
Definition operator_lt_hf (x : GraphNodeHandle) (y : float) :=
  operator_gt_fh y x.
Definition operator_lt_fh (x : float) (y : GraphNodeHandle) :=
  operator_gt_hf y x.
Definition operator_lt (x y : GraphNodeHandle) := operator_gt y x.

(** [x <= y] is [max(x - y, 0.0f) == 0.0f]. *)
Definition operator_le_hf (x : GraphNodeHandle) (y : float) :=
  d <- operator_sub_hf x y ;; m <- max_hf d f_zero ;; operator_eq_hf m f_zero.
Definition operator_le_fh (x : float) (y : GraphNodeHandle) :=
  d <- operator_sub_fh x y ;; m <- max_hf d f_zero ;; operator_eq_hf m f_zero.
Definition operator_le (x y : GraphNodeHandle) :=
  d <- operator_sub x y ;; m <- max_hf d f_zero ;; operator_eq_hf m f_zero.

(** The order in which the two operands of a call are evaluated is not
    fixed by C++; it matters for [min(x, y)], whose two operands both
    append nodes. *)
Inductive ArgOrder := LeftToRight | RightToLeft.

(** [min(x, y)] is [-max(-x, -y)]. *)
Definition min (o : ArgOrder) (x y : GraphNodeHandle) : M GraphNodeHandle :=
  match o with
  | LeftToRight =>
    nx <- operator_neg x ;; ny <- operator_neg y ;;
    m <- max nx ny ;; operator_neg m
  | RightToLeft =>
    ny <- operator_neg y ;; nx <- operator_neg x ;;
    m <- max nx ny ;; operator_neg m
  end.
Definition min_fh (x : float) (y : GraphNodeHandle) :=
  ny <- operator_neg y ;; m <- max_fh (fneg x) ny ;; operator_neg m.
Definition min_hf (x : GraphNodeHandle) (y : float) :=
  nx <- operator_neg x ;; m <- max_hf nx (fneg y) ;; operator_neg m.

(** [x >= y] is [min(x - y, 0.0f) == 0.0f]. *)
Definition operator_ge_hf (x : GraphNodeHandle) (y : float) :=
  d <- operator_sub_hf x y ;; m <- min_hf d f_zero ;; operator_eq_hf m f_zero.
Definition operator_ge_fh (x : float) (y : GraphNodeHandle) :=
  d <- operator_sub_fh x y ;; m <- min_hf d f_zero ;; operator_eq_hf m f_zero.
Definition operator_ge (x y : GraphNodeHandle) :=
  d <- operator_sub x y ;; m <- min_hf d f_zero ;; operator_eq_hf m f_zero.

Definition pow_hf (x : GraphNodeHandle) (y : float) :=
  ynode <- AddNode_Immediate y ;; AddNode_BinaryOp POW x ynode.
Definition pow_fh (x : float) (y : GraphNodeHandle) :=
  xnode <- AddNode_Immediate x ;; AddNode_BinaryOp POW xnode y.
Definition pow (x y : GraphNodeHandle) := AddNode_BinaryOp POW x y.

(** [cos(x)] is [sin(x + pi/2)]; [sigmoid(x)] is [1 / (1 + exp(-x))]. *)
Definition cos (x : GraphNodeHandle) :=
  s <- operator_add_hf x f_half_pi ;; WrapInUnary s SIN.
Definition sigmoid (x : GraphNodeHandle) :=
  nx <- operator_neg x ;; e <- exp nx ;;
  s <- operator_add_fh f_one e ;; operator_div_fh f_one s.

(** ** Reductions *)

(** The loop of [WrapInReduction] that normalises every axis. *)
Fixpoint fix_dims (dims : Dims) (rank : dim_t) : Outcome Dims :=
  match dims with
  | [] => Ok []
  | d :: dims' =>
    match FixDim d rank with
    | Ok d' =>
      match fix_dims dims' rank with
      | Ok r => Ok (d' :: r)
      | Throw w => Throw w
      | Undef => Undef
      end
    | Throw w => Throw w
    | Undef => Undef
    end
  end.

(** [std::sort] on integers: the ascending rearrangement. *)
Definition sort (dims : Dims) : Dims := merge_sort Z.le dims.

Definition WrapInReduction (x : GraphNodeHandle) (type : ReduceOpType)
    (dims : Dims) (keepdim : bool) : M GraphNodeHandle :=
  xs <- GraphNodeHandle_shape x ;;
  dims <- lift (fix_dims dims (Z.of_nat (length xs))) ;;
  AddNode_ReduceOp type x (sort dims) keepdim.

(** [std::iota(dims.begin(), dims.end(), 0)] on a vector of [n] entries. *)
Definition iota (n : nat) : Dims := seqZ 0 (Z.of_nat n).

Definition GraphNodeHandle_sum_dims (self : GraphNodeHandle) (dims : Dims)
    (keepdim : bool) := WrapInReduction self RSUM dims keepdim.
Definition GraphNodeHandle_sum_dim (self : GraphNodeHandle) (dim : dim_t)
    (keepdim : bool) := GraphNodeHandle_sum_dims self [dim] keepdim.
Definition GraphNodeHandle_sum (self : GraphNodeHandle) (keepdim : bool) :=
  sh <- GraphNodeHandle_shape self ;;
  GraphNodeHandle_sum_dims self (iota (length sh)) keepdim.

Definition GraphNodeHandle_max_dims (self : GraphNodeHandle) (dims : Dims)
    (keepdim : bool) := WrapInReduction self RMAX dims keepdim.
Definition GraphNodeHandle_max_dim (self : GraphNodeHandle) (dim : dim_t)
    (keepdim : bool) := GraphNodeHandle_max_dims self [dim] keepdim.
Definition GraphNodeHandle_max (self : GraphNodeHandle) (keepdim : bool) :=
  sh <- GraphNodeHandle_shape self ;;
  GraphNodeHandle_max_dims self (iota (length sh)) keepdim.

Definition sum_keepdim := GraphNodeHandle_sum.
Definition sum_dim := GraphNodeHandle_sum_dim.
Definition sum_dims := GraphNodeHandle_sum_dims.
Definition max_keepdim := GraphNodeHandle_max.
Definition max_dim := GraphNodeHandle_max_dim.
Definition max_dims := GraphNodeHandle_max_dims.

(** [min] over axes: [-max(-x, ...)]. *)
Definition min_keepdim (x : GraphNodeHandle) (keepdim : bool) :=
  nx <- operator_neg x ;; m <- max_keepdim nx keepdim ;; operator_neg m.
Definition min_dim (x : GraphNodeHandle) (axis : dim_t) (keepdim : bool) :=
  nx <- operator_neg x ;; m <- max_dim nx axis keepdim ;; operator_neg m.
Definition min_dims (x : GraphNodeHandle) (dims : Dims) (keepdim : bool) :=
  nx <- operator_neg x ;; m <- max_dims nx dims keepdim ;; operator_neg m.

(** ** Views *)

(** [std::accumulate(..., dim_t{1}, std::multiplies{})] *)
Definition num_elements_of (sh : Shape) : dim_t := foldl dim_mul 1 sh.

(** The accumulation of [reshape] that skips the placeholder [-1]. *)
Definition num_elements_skipping (sh : Shape) : dim_t :=
  foldl (λ x y, if y =? -1 then x else dim_mul x y) 1 sh.

Definition GraphNodeHandle_reshape (self : GraphNodeHandle) (new_shape : Shape)
  : M GraphNodeHandle :=
  input_shape <- GraphNodeHandle_shape self ;;
  let num_elements := num_elements_of input_shape in
  let num_implicit_dims := length (filter (λ d, d = -1) new_shape) in
  if (num_implicit_dims =? 0)%nat then
    let new_num_elements := num_elements_of new_shape in
    if negb (new_num_elements =? num_elements) then
      throw "Reshape number of elements doesn't match that of input tensor"
    else AddNode_ViewOp self new_shape (ComputeStrides new_shape)
  else if (1 <? num_implicit_dims)%nat then
    throw "Reshape can have at most one implicit dimension"
  else
    let num_elems_not_including_implicit_dim :=
      num_elements_skipping new_shape in
    if num_elems_not_including_implicit_dim =? 0 then undef
    else if (num_elements =? dim_t_min)
            && (num_elems_not_including_implicit_dim =? -1) then undef
    else
      let remaining_dim :=
        Z.quot num_elements num_elems_not_including_implicit_dim in
      let new_shape :=
        (λ x, if x =? -1 then remaining_dim else x) <$> new_shape in
      AddNode_ViewOp self new_shape (ComputeStrides new_shape).

Definition GraphNodeHandle_reshape_dim (self : GraphNodeHandle)
    (length : dim_t) := GraphNodeHandle_reshape self [length].

(** The loop of [permute]: [n] iterations are left, [i] is the counter. *)
Fixpoint permute_loop (n i : nat) (dims : Dims) (shape : Shape)
    (uniqueness : list bool) (new_shape : Shape) : Outcome Shape :=
  match n with
  | O => Ok new_shape
  | S n' =>
    match dims !! i, shape !! i with
    | Some dim, Some s =>
      match FixDim dim (Z.of_nat (length shape)) with
      | Ok fixed_dim =>
        match uniqueness !! Z.to_nat fixed_dim with
        | Some true => Throw "Found repeated dim in permute"
        | Some false =>
          permute_loop n' (S i) dims shape
            (<[Z.to_nat fixed_dim := true]> uniqueness)
            (<[Z.to_nat fixed_dim := s]> new_shape)
        | None => Undef
        end
      | Throw w => Throw w
      | Undef => Undef
      end
    | _, _ => Undef
    end
  end.

Definition GraphNodeHandle_permute (self : GraphNodeHandle) (dims : Dims)
  : M GraphNodeHandle :=
  shape <- GraphNodeHandle_shape self ;;
  if negb (length dims =? length shape)%nat then
    throw "Permute not given proper number of dimensions"
  else
    new_shape <- lift (permute_loop (length shape) 0 dims shape
                         (replicate (length shape) false)
                         (replicate (length shape) 0)) ;;
    AddNode_ViewOp self new_shape (ComputeStrides new_shape).

Definition GraphNodeHandle_transpose (self : GraphNodeHandle)
  : M GraphNodeHandle :=
  shape <- GraphNodeHandle_shape self ;;
  GraphNodeHandle_permute self (reverse (iota (length shape))).

(** [matmul]: reshape, reshape, broadcast multiply, reduce the middle axis. *)
Definition GraphNodeHandle_matmul (self y : GraphNodeHandle)
  : M GraphNodeHandle :=
  x_shape <- GraphNodeHandle_shape self ;;
  y_shape <- GraphNodeHandle_shape y ;;
  let x_shape := if (length x_shape =? 1)%nat then 1 :: x_shape else x_shape in
  let y_shape := if (length y_shape =? 1)%nat then y_shape ++ [1] else y_shape in
  if (length x_shape <? 2)%nat || (length y_shape <? 2)%nat then
    throw "Shapes must be at least of size 2 for matmul"
  else
    let x_shape := x_shape ++ [1] in
    let y_shape := take (length y_shape - 2) y_shape
                     ++ 1 :: drop (length y_shape - 2) y_shape in
    match x_shape !! (length x_shape - 2)%nat,
          y_shape !! (length y_shape - 2)%nat with
    | Some a, Some b =>
      if negb (a =? b) then throw "Incompatible shapes in matmul"
      else
        x_reshaped <- GraphNodeHandle_reshape self x_shape ;;
        y_reshaped <- GraphNodeHandle_reshape y y_shape ;;
        elementwise_mul <- operator_mul x_reshaped y_reshaped ;;
        GraphNodeHandle_sum_dim elementwise_mul (-2) false
    | _, _ => undef
    end.

Definition reshape := GraphNodeHandle_reshape.
Definition reshape_dim := GraphNodeHandle_reshape_dim.
Definition permute := GraphNodeHandle_permute.
Definition transpose := GraphNodeHandle_transpose.
Definition operator_mod := GraphNodeHandle_matmul.
Definition matmul := GraphNodeHandle_matmul.

(** ** The public entry points, as one type of calls

    These are the calls of the external interface: [Graph::AddInput],
    [Graph::Immediate], the operators and the named functions on handles.
    The [AddNode] overloads are the insertion points these calls go
    through. *)

Inductive Call : Type :=
| CImmediate (imm : float)
| CAddInput (shape : Shape)
| CAddInput_dim (dim : dim_t)
| CExp (x : GraphNodeHandle) | CLog (x : GraphNodeHandle)
| CSin (x : GraphNodeHandle) | CCos (x : GraphNodeHandle)
| CSigmoid (x : GraphNodeHandle) | CNeg (x : GraphNodeHandle)
| CAdd (x y : GraphNodeHandle)
| CAdd_fh (x : float) (y : GraphNodeHandle)
| CAdd_hf (x : GraphNodeHandle) (y : float)
| CSub (x y : GraphNodeHandle)
| CSub_fh (x : float) (y : GraphNodeHandle)
| CSub_hf (x : GraphNodeHandle) (y : float)
| CMul (x y : GraphNodeHandle)
| CMul_fh (x : float) (y : GraphNodeHandle)
| CMul_hf (x : GraphNodeHandle) (y : float)
| CDiv (x y : GraphNodeHandle)
| CDiv_fh (x : float) (y : GraphNodeHandle)
| CDiv_hf (x : GraphNodeHandle) (y : float)
| CXor (x : GraphNodeHandle) (y : float)
| CEq (x y : GraphNodeHandle)
| CEq_fh (x : float) (y : GraphNodeHandle)
| CEq_hf (x : GraphNodeHandle) (y : float)
| CLt (x y : GraphNodeHandle)
| CLt_fh (x : float) (y : GraphNodeHandle)
| CLt_hf (x : GraphNodeHandle) (y : float)
| CLe (x y : GraphNodeHandle)
| CLe_fh (x : float) (y : GraphNodeHandle)
| CLe_hf (x : GraphNodeHandle) (y : float)
| CGt (x y : GraphNodeHandle)
| CGt_fh (x : float) (y : GraphNodeHandle)
| CGt_hf (x : GraphNodeHandle) (y : float)
| CGe (x y : GraphNodeHandle)
| CGe_fh (x : float) (y : GraphNodeHandle)
| CGe_hf (x : GraphNodeHandle) (y : float)
| CMax (x y : GraphNodeHandle)
| CMax_fh (x : float) (y : GraphNodeHandle)
| CMax_hf (x : GraphNodeHandle) (y : float)
| CMin (x y : GraphNodeHandle)
| CMin_fh (x : float) (y : GraphNodeHandle)
| CMin_hf (x : GraphNodeHandle) (y : float)
| CPow (x y : GraphNodeHandle)
| CPow_fh (x : float) (y : GraphNodeHandle)
| CPow_hf (x : GraphNodeHandle) (y : float)
| CSum_keepdim (x : GraphNodeHandle) (keepdim : bool)
| CSum_dim (x : GraphNodeHandle) (axis : dim_t) (keepdim : bool)
| CSum_dims (x : GraphNodeHandle) (dims : Dims) (keepdim : bool)
| CMax_keepdim (x : GraphNodeHandle) (keepdim : bool)
| CMax_dim (x : GraphNodeHandle) (axis : dim_t) (keepdim : bool)
| CMax_dims (x : GraphNodeHandle) (dims : Dims) (keepdim : bool)
| CMin_keepdim (x : GraphNodeHandle) (keepdim : bool)
| CMin_dim (x : GraphNodeHandle) (axis : dim_t) (keepdim : bool)
| CMin_dims (x : GraphNodeHandle) (dims : Dims) (keepdim : bool)
| CReshape (x : GraphNodeHandle) (shape : Shape)
| CReshape_dim (x : GraphNodeHandle) (length : dim_t)
| CPermute (x : GraphNodeHandle) (permutation : Dims)
| CTranspose (x : GraphNodeHandle)
| CMod (x y : GraphNodeHandle)
| CMatmul (x y : GraphNodeHandle).

Definition run (o : ArgOrder) (c : Call) : M GraphNodeHandle :=
  match c with
  | CImmediate imm => Graph_Immediate imm
  | CAddInput sh => Graph_AddInput sh
  | CAddInput_dim d => Graph_AddInput_dim d
  | CExp x => exp x | CLog x => log x | CSin x => sin x | CCos x => cos x
  | CSigmoid x => sigmoid x | CNeg x => operator_neg x
  | CAdd x y => operator_add x y
  | CAdd_fh x y => operator_add_fh x y
  | CAdd_hf x y => operator_add_hf x y
  | CSub x y => operator_sub x y
  | CSub_fh x y => operator_sub_fh x y
  | CSub_hf x y => operator_sub_hf x y
  | CMul x y => operator_mul x y
  | CMul_fh x y => operator_mul_fh x y
  | CMul_hf x y => operator_mul_hf x y
  | CDiv x y => operator_div x y
  | CDiv_fh x y => operator_div_fh x y
  | CDiv_hf x y => operator_div_hf x y
  | CXor x y => operator_xor x y
  | CEq x y => operator_eq x y
  | CEq_fh x y => operator_eq_fh x y
  | CEq_hf x y => operator_eq_hf x y
  | CLt x y => operator_lt x y
  | CLt_fh x y => operator_lt_fh x y
  | CLt_hf x y => operator_lt_hf x y
  | CLe x y => operator_le x y
  | CLe_fh x y => operator_le_fh x y
  | CLe_hf x y => operator_le_hf x y
  | CGt x y => operator_gt x y
  | CGt_fh x y => operator_gt_fh x y
  | CGt_hf x y => operator_gt_hf x y
  | CGe x y => operator_ge x y
  | CGe_fh x y => operator_ge_fh x y
  | CGe_hf x y => operator_ge_hf x y
  | CMax x y => max x y
  | CMax_fh x y => max_fh x y
  | CMax_hf x y => max_hf x y
  | CMin x y => min o x y
  | CMin_fh x y => min_fh x y
  | CMin_hf x y => min_hf x y
  | CPow x y => pow x y
  | CPow_fh x y => pow_fh x y
  | CPow_hf x y => pow_hf x y
  | CSum_keepdim x k => sum_keepdim x k
  | CSum_dim x a k => sum_dim x a k
  | CSum_dims x ds k => sum_dims x ds k
  | CMax_keepdim x k => max_keepdim x k
  | CMax_dim x a k => max_dim x a k
  | CMax_dims x ds k => max_dims x ds k
  | CMin_keepdim x k => min_keepdim x k
  | CMin_dim x a k => min_dim x a k
  | CMin_dims x ds k => min_dims x ds k
  | CReshape x sh => reshape x sh
  | CReshape_dim x l => reshape_dim x l
  | CPermute x p => permute x p
  | CTranspose x => transpose x
  | CMod x y => operator_mod x y
  | CMatmul x y => matmul x y
  end.

(** A client program: a sequence of calls on one graph, each of which
    returns or throws (the client may catch the exception and go on).  A call
    with undefined behaviour ends the program. *)
Fixpoint build (o : ArgOrder) (cs : list Call) (g : Graph) : option Graph :=
  match cs with
  | [] => Some g
  | c :: cs' =>
    match run o c g with
    | ROk _ g' | RThrow _ g' => build o cs' g'
    | RUndef => None
    end
  end.

(** The calls whose body appends operand nodes and only then reaches a
    primitive that can throw. *)
Definition builds_operands_first (c : Call) : bool :=
  match c with
  | CMin _ _ | CMin_dims _ _ _ | CMod _ _ | CMatmul _ _ => true
  | _ => false
  end.

(** The [sum] / [max] entry points: reduction kind, input, the axes asked
    for (on an input of the given rank) and the keep-dimension flag. *)
Definition reduce_request (c : Call) (rank : nat)
  : option (ReduceOpType * GraphNodeHandle * Dims * bool) :=
  match c with
  | CSum_keepdim x k => Some (RSUM, x, iota rank, k)
  | CSum_dim x a k => Some (RSUM, x, [a], k)
  | CSum_dims x ds k => Some (RSUM, x, ds, k)
  | CMax_keepdim x k => Some (RMAX, x, iota rank, k)
  | CMax_dim x a k => Some (RMAX, x, [a], k)
  | CMax_dims x ds k => Some (RMAX, x, ds, k)
  | _ => None
  end.

(** The [sum] / [max] entry points that take an explicit axis argument. *)
Definition explicit_axes (c : Call) : option (GraphNodeHandle * Dims) :=
  match c with
  | CSum_dim x a _ | CMax_dim x a _ => Some (x, [a])
  | CSum_dims x ds _ | CMax_dims x ds _ => Some (x, ds)
  | _ => None
  end.

(** ** Properties of graphs *)

(** Every reference of the node at index [i] is below [i]. *)
Definition acyclic (g : Graph) : Prop :=
  ∀ i n, nodes g !! i = Some n → Forall (λ r, (r < i)%nat) (refs (u n)).

(** Canonical strides, as the specification words them: the stride of a
    dimension is the product of the sizes to its right, and [0] for a
    dimension of size [1].  The stride is a [dim_t]: it is the product as
    [dim_t] stores it. *)
Fixpoint canonical_strides (sh : Shape) : Shape :=
  match sh with
  | [] => []
  | d :: rest =>
    (if d =? 1 then 0 else wrap (foldr Z.mul 1 rest)) :: canonical_strides rest
  end.

(** The same with the products taken in [Z], and the shapes on which the
    two agree: every product of the sizes to the right of a dimension is a
    value of [dim_t]. *)
Fixpoint exact_strides (sh : Shape) : Shape :=
  match sh with
  | [] => []
  | d :: rest =>
    (if d =? 1 then 0 else foldr Z.mul 1 rest) :: exact_strides rest
  end.

Fixpoint products_fit (sh : Shape) : bool :=
  match sh with
  | [] => true
  | d :: rest => in_dim_t (foldr Z.mul 1 rest) && products_fit rest
  end.

Definition strides_canonical (g : Graph) : Prop :=
  ∀ i n, nodes g !! i = Some n → strides n = canonical_strides (shape n).

(** The rule for one right-aligned pair of dimensions, as the
    specification words it. *)
Definition compatible (a b : dim_t) : Prop := a = 1 ∨ b = 1 ∨ a = b.
Definition broadcast_dim (a b : dim_t) : dim_t := if a =? 1 then b else a.

(** Negation as the rewrite [-1 * z] (an [Immediate(-1)] node followed by a
    [MUL] node), built by hand through the public entry points. *)
Definition hand_neg (z : GraphNodeHandle) : M GraphNodeHandle :=
  i <- Graph_Immediate f_minus_one ;; operator_mul i z.

(** Modelled from the spec: [-(max(-x, -y))] built by hand, one statement
    after the other in the order the expression is written: [-x], then
    [-y], then the maximum, then its negation. *)
Definition hand_min (x y : GraphNodeHandle) : M GraphNodeHandle :=
  nx <- hand_neg x ;; ny <- hand_neg y ;; m <- max nx ny ;; hand_neg m.

(** The same hand-build with the two operand negations exchanged: [-y] is
    built before [-x]. *)
Definition hand_min_y_first (x y : GraphNodeHandle) : M GraphNodeHandle :=
  ny <- hand_neg y ;; nx <- hand_neg x ;; m <- max nx ny ;; hand_neg m.

(** The nodes that [min(x, y)] appends to an arena of [n] nodes, for
    operands of shapes [sx] and [sy] whose broadcast is [b]. *)
Definition min_nodes (o : ArgOrder) (n : nat) (x y : GraphNodeHandle)
    (sx sy b : Shape) : list GraphNode :=
  let imm := mkNode (Immediate f_minus_one) [] [] in
  let mul i z s := mkNode (BinaryOp MUL i z) s (canonical_strides s) in
  match o with
  | LeftToRight =>
    [imm; mul n x sx; imm; mul (n + 2)%nat y sy;
     mkNode (BinaryOp MAX (n + 1)%nat (n + 3)%nat) b (canonical_strides b);
     imm; mul (n + 5)%nat (n + 4)%nat b]
  | RightToLeft =>
    [imm; mul n y sy; imm; mul (n + 2)%nat x sx;
     mkNode (BinaryOp MAX (n + 3)%nat (n + 1)%nat) b (canonical_strides b);
     imm; mul (n + 5)%nat (n + 4)%nat b]
  end.

(** Strides of [sh] when the sizes to the right of [sh] multiply to [cur]. *)
Fixpoint strides_from (cur : dim_t) (sh : Shape) : Shape :=
  match sh with
  | [] => []
  | d :: rest =>
    (if d =? 1 then 0 else wrap (cur * foldr Z.mul 1 rest))
      :: strides_from cur rest
  end.

(** ** Predicates on builder computations *)

(** The arena only grows, and each graph property carries over. *)
Definition extends (g g' : Graph) : Prop := nodes g `prefix_of` nodes g'.

Definition step_ok (g g' : Graph) : Prop :=
  extends g g' ∧ (acyclic g → acyclic g')
  ∧ (strides_canonical g → strides_canonical g').

Definition preserves {A} (m : M A) : Prop :=
  ∀ g, match m g with
       | ROk _ g' | RThrow _ g' => step_ok g g'
       | RUndef => True
       end.

(** The computation never throws. *)
Definition nothrow {A} (m : M A) : Prop :=
  ∀ g, match m g with RThrow _ _ => False | _ => True end.

(** When the computation throws, the graph is as it was. *)
Definition atomic {A} (m : M A) : Prop :=
  ∀ g, match m g with RThrow _ g' => g' = g | _ => True end.

(** The computation appends exactly one node, whose references are in the
    arena and whose strides are canonical if those of the arena are, or it
    throws and leaves the graph as it was. *)
Definition single_push (m : M GraphNodeHandle) : Prop :=
  ∀ g, match m g with
       | ROk h g' =>
         h = length (nodes g) ∧
         ∃ node, nodes g' = nodes g ++ [node]
           ∧ Forall (λ r, (r < length (nodes g))%nat) (refs (u node))
           ∧ (strides_canonical g →
              strides node = canonical_strides (shape node))
       | RThrow _ g' => g' = g
       | RUndef => True
       end.

(** ** Reduced shapes, in closed form *)

(** The shape after the marking loop of [ComputeReducedShape]: the entry
    at every index that occurs in [dims] is [-1]; [k] is the index of the
    head of [sh]. *)
Fixpoint marked_from (k : nat) (dims : Dims) (sh : Shape) : Shape :=
  match sh with
  | [] => []
  | d :: rest =>
    (if bool_decide (Z.of_nat k ∈ dims) then -1 else d)
      :: marked_from (S k) dims rest
  end.

(** The shape with the axes of [dims] dropped, or kept with size 1. *)
Fixpoint reduce_axes_from (k : nat) (dims : Dims) (keepdim : bool)
    (sh : Shape) : Shape :=
  match sh with
  | [] => []
  | d :: rest =>
    if bool_decide (Z.of_nat k ∈ dims)
    then (if keepdim then 1 :: reduce_axes_from (S k) dims keepdim rest
          else reduce_axes_from (S k) dims keepdim rest)
    else d :: reduce_axes_from (S k) dims keepdim rest
  end.

(** ** Permuted shapes, in closed form *)

(** The destination index of every entry of an axis list, for a shape of
    the given rank. *)
Definition fixed_axes (dims : Dims) (rank : nat) : list nat :=
  (λ d, Z.to_nat (d `mod` Z.of_nat rank)) <$> dims.

(** The writes [new_shape[fixed[i]] = sh[i]] of [permute], in order. *)
Definition scatter (fixed : list nat) (sh : Shape) (init : Shape) : Shape :=
  foldl (λ ns p, <[p.1 := p.2]> ns) init (zip fixed sh).

(** ** Shapes of results *)

(** The node behind handle [h] has shape [s]. *)
Definition has_shape (s : Shape) (h : GraphNodeHandle) (g : Graph) : Prop :=
  shape <$> nodes g !! h = Some s.

(** The computation returns a handle to a node of shape [s], and the
    nodes that were in the arena keep their shapes. *)
Definition yields (s : Shape) (m : M GraphNodeHandle) (g : Graph) : Prop :=
  ∃ h g', m g = ROk h g' ∧ has_shape s h g'
          ∧ ∀ s' z, has_shape s' z g → has_shape s' z g'.

(** The computation throws [w]. *)
Definition throws (w : string) (m : M GraphNodeHandle) (g : Graph) : Prop :=
  ∃ g', m g = RThrow w g'.

(** The entry points with one tensor operand (the other operands, if
    any, are scalars), and those with two tensor operands. *)
Definition tensor_operand (c : Call) : option GraphNodeHandle :=
  match c with
  | CExp x | CLog x | CSin x | CCos x | CSigmoid x | CNeg x => Some x
  | CAdd_fh _ y | CSub_fh _ y | CMul_fh _ y | CDiv_fh _ y | CEq_fh _ y
  | CLt_fh _ y | CLe_fh _ y | CGt_fh _ y | CGe_fh _ y | CMax_fh _ y
  | CMin_fh _ y | CPow_fh _ y => Some y
  | CAdd_hf x _ | CSub_hf x _ | CMul_hf x _ | CDiv_hf x _ | CXor x _
  | CEq_hf x _ | CLt_hf x _ | CLe_hf x _ | CGt_hf x _ | CGe_hf x _
  | CMax_hf x _ | CMin_hf x _ | CPow_hf x _ => Some x
  | _ => None
  end.

Definition tensor_operands (c : Call)
  : option (GraphNodeHandle * GraphNodeHandle) :=
  match c with
  | CAdd x y | CSub x y | CMul x y | CDiv x y | CEq x y | CLt x y | CLe x y
  | CGt x y | CGe x y | CMax x y | CMin x y | CPow x y => Some (x, y)
  | _ => None
  end.

(** ** Handles and the input list *)

(** The indices of the [Tensor] nodes of an arena segment that starts at
    index [k]. *)
Fixpoint tensor_indices (k : nat) (l : list GraphNode) : list nat :=
  match l with
  | [] => []
  | n :: rest =>
    match u n with
    | Tensor => k :: tensor_indices (S k) rest
    | _ => tensor_indices (S k) rest
    end
  end.

(** The computation leaves the input list alone and appends no [Tensor]
    node. *)
Definition keeps_inputs {A} (m : M A) : Prop :=
  ∀ g, match m g with
       | ROk _ g' | RThrow _ g' =>
         inputs g' = inputs g
         ∧ ∃ k, nodes g' = nodes g ++ k ∧ Forall (λ n, u n ≠ Tensor) k
       | RUndef => True
       end.

(** The computation appends one node that is not a [Tensor], or throws
    and leaves the graph as it was. *)
Definition pushes_op (m : M GraphNodeHandle) : Prop :=
  ∀ g, match m g with
       | ROk _ g' =>
         ∃ node, g' = mkGraph (inputs g) (nodes g ++ [node])
                 ∧ u node ≠ Tensor
       | RThrow _ g' => g' = g
       | RUndef => True
       end.

(** The handle returned is the index of the last node of the arena, and
    the arena has grown; when the computation throws the arena has not
    shrunk. *)
Definition grows (m : M GraphNodeHandle) : Prop :=
  ∀ g, match m g with
       | ROk h g' =>
         S h = length (nodes g')
         ∧ (length (nodes g) < length (nodes g'))%nat
       | RThrow _ g' => (length (nodes g) ≤ length (nodes g'))%nat
       | RUndef => True
       end.

(** ** The module layer: inputs that are weights *)

(** Modelled from the spec: [nn::Module] of [graph.h], which is not part
    of the sources at hand: a graph together with the list of the positions,
    in the graph's input list, of the inputs that are weights. *)
Record Module : Type := mkModule {
  graph : Graph;
  weights : list nat;
}.

Definition empty_module : Module := mkModule empty_graph [].

(** Outcomes of calls on a module. *)
Inductive ModuleResult (A : Type) : Type :=
| MOk (a : A) (m : Module)
| MThrow (what : string) (m : Module)
| MUndef.
Arguments MOk {A} a m.
Arguments MThrow {A} what m.
Arguments MUndef {A}.

(** A call on the module's graph, the weights being [ws] when it ends. *)
Definition on_graph {A} (ws : list nat) (r : Result A) : ModuleResult A :=
  match r with
  | ROk a g => MOk a (mkModule g ws)
  | RThrow w g => MThrow w (mkModule g ws)
  | RUndef => MUndef
  end.

Definition Module_AddInput (shape : Shape) (m : Module)
  : ModuleResult GraphNodeHandle :=
  on_graph (weights m) (Graph_AddInput shape (graph m)).

Definition Module_AddInput_dim (dim : dim_t) (m : Module)
  : ModuleResult GraphNodeHandle :=
  on_graph (weights m) (Graph_AddInput_dim dim (graph m)).

Definition Module_AddWeight (shape : Shape) (m : Module)
  : ModuleResult GraphNodeHandle :=
  let weights := weights m ++ [length (inputs (graph m))] in
  on_graph weights (Graph_AddInput shape (graph m)).

Definition Module_AddWeight_dim (dim : dim_t) (m : Module)
  : ModuleResult GraphNodeHandle :=
  let weights := weights m ++ [length (inputs (graph m))] in
  on_graph weights (Graph_AddInput_dim dim (graph m)).

(** The calls on a module: its own four, and every builder call on the
    handles of its graph. *)
Inductive ModuleCall : Type :=
| MAddInput (shape : Shape)
| MAddInput_dim (dim : dim_t)
| MAddWeight (shape : Shape)
| MAddWeight_dim (dim : dim_t)
| MBuilder (c : Call).

Definition Module_run (o : ArgOrder) (mc : ModuleCall) (m : Module)
  : ModuleResult GraphNodeHandle :=
  match mc with
  | MAddInput sh => Module_AddInput sh m
  | MAddInput_dim d => Module_AddInput_dim d m
  | MAddWeight sh => Module_AddWeight sh m
  | MAddWeight_dim d => Module_AddWeight_dim d m
  | MBuilder c => on_graph (weights m) (run o c (graph m))
  end.

Fixpoint Module_build (o : ArgOrder) (cs : list ModuleCall) (m : Module)
  : option Module :=
  match cs with
  | [] => Some m
  | c :: cs' =>
    match Module_run o c m with
    | MOk _ m' | MThrow _ m' => Module_build o cs' m'
    | MUndef => None
    end
  end.

(** The invariant of the module layer. *)
Definition module_ok (m : Module) : Prop :=
  inputs (graph m) = tensor_indices 0 (nodes (graph m))
  ∧ Forall (λ w, (w < length (inputs (graph m)))%nat) (weights m).

(** ** Access to the data of a tensor *)

(** [GraphNodeHandle::data()]: the check of the node kind.  The reference
    it returns designates the data pointer of the [Tensor] node, which is
    external storage and has no counterpart in the model: a successful call
    returns [tt]. *)
Definition GraphNodeHandle_data (h : GraphNodeHandle) : M unit :=
  node <- GetNode h ;;
  match u node with
  | Tensor => ret tt
  | _ => throw "Cannot call data() on non-Tensor node"
  end.

End gigagrad.

(** * Handles of several graphs

    A [GraphNodeHandle] of the source is the pair of a graph pointer and an
    arena index, and no entry point compares the graph pointers of its
    operands.  This module follows the handle as the source has it, for the
    entry points that show what an operand of another graph does:
    [Graph::AddInput], [Graph::AddNode(BinaryOp)] and [operator+].  The
    [Graph] objects of a program are the entries of a list, and a graph
    pointer is a position in it. *)
Module graphs.

(** Modelled from the spec: the handle and the node variants of [graph.h],
    which is not part of the sources at hand. *)
Record GraphNodeHandle : Type := mkHandle {
  graph : nat;
  node_idx : nat;
}.

Inductive Variant : Type :=
| Tensor
| Immediate (value : spec_float)
| UnaryOp (type : gigagrad.UnaryOpType) (x : GraphNodeHandle)
| BinaryOp (type : gigagrad.BinaryOpType) (x y : GraphNodeHandle)
| ReduceOp (type : gigagrad.ReduceOpType) (x : GraphNodeHandle)
           (dims : list Z) (keepdim : bool)
| ViewOp (x : GraphNodeHandle).

Record GraphNode : Type := mkNode {
  u : Variant;
  shape : list Z;
  strides : list Z;
}.

Record Graph : Type := mkGraph {
  inputs : list nat;
  nodes : list GraphNode;
}.

Definition empty_graph : Graph := mkGraph [] [].

(** The [Graph] objects of the program. *)
Abbreviation Graphs := (list Graph) (only parsing).

Definition refs (v : Variant) : list GraphNodeHandle :=
  match v with
  | Tensor | Immediate _ => []
  | UnaryOp _ x => [x]
  | BinaryOp _ x y => [x; y]
  | ReduceOp _ x _ _ => [x]
  | ViewOp x => [x]
  end.

Inductive Result (A : Type) : Type :=
| ROk (a : A) (w : Graphs)
| RThrow (what : string) (w : Graphs)
| RUndef.
Arguments ROk {A} a w.
Arguments RThrow {A} what w.
Arguments RUndef {A}.

Definition M (A : Type) : Type := Graphs → Result A.

Definition ret {A} (a : A) : M A := λ w, ROk a w.
Definition bind {A B} (m : M A) (f : A → M B) : M B :=
  λ w, match m w with
       | ROk a w' => f a w'
       | RThrow what w' => RThrow what w'
       | RUndef => RUndef
       end.
Definition lift {A} (o : gigagrad.Outcome A) : M A :=
  match o with
  | gigagrad.Ok a => ret a
  | gigagrad.Throw what => λ w, RThrow what w
  | gigagrad.Undef => λ _, RUndef
  end.

Notation "x <~ m ;; k" := (bind m (λ x, k))
  (at level 100, m at next level, right associativity,
   format "x  <~  m  ;;  '/' k").

(** [GraphNodeHandle::GetNode]: [graph->nodes[node_idx]], read through the
    graph pointer of the handle. *)
Definition GetNode (h : GraphNodeHandle) : M GraphNode :=
  λ w, match w !! graph h with
       | Some g =>
         match nodes g !! node_idx h with
         | Some n => ROk n w
         | None => RUndef
         end
       | None => RUndef
       end.

Definition GraphNodeHandle_shape (h : GraphNodeHandle) : M (list Z) :=
  node <~ GetNode h ;; ret (shape node).

(** [Graph::AddNode(GraphNode)] on the graph [this]:
    [{ this, this->nodes.size() }]. *)
Definition AddNode (this : nat) (node : GraphNode) : M GraphNodeHandle :=
  λ w, match w !! this with
       | Some g =>
         ROk (mkHandle this (length (nodes g)))
             (<[this := mkGraph (inputs g) (nodes g ++ [node])]> w)
       | None => RUndef
       end.

Definition AddNode_Tensor (this : nat) (shape strides : list Z)
  : M GraphNodeHandle :=
  AddNode this (mkNode Tensor shape strides).

(** [Graph::AddNode(BinaryOp)]: each operand's shape is read through the
    operand's own graph pointer. *)
Definition AddNode_BinaryOp (this : nat) (type : gigagrad.BinaryOpType)
    (x y : GraphNodeHandle) : M GraphNodeHandle :=
  xs <~ GraphNodeHandle_shape x ;;
  ys <~ GraphNodeHandle_shape y ;;
  shape <~ lift (gigagrad.GetBroadcastedShape xs ys) ;;
  AddNode this
    (mkNode (BinaryOp type x y) shape (gigagrad.ComputeStrides shape)).

(** [Graph::AddInput(Shape)] on the graph [this]. *)
Definition Graph_AddInput (this : nat) (shape : list Z) : M GraphNodeHandle :=
  λ w, match w !! this with
       | Some g =>
         AddNode_Tensor this shape (gigagrad.ComputeStrides shape)
           (<[this := mkGraph (inputs g ++ [length (nodes g)]) (nodes g)]> w)
       | None => RUndef
       end.

(** [operator+(x, y)]: [Graph *graph = x.graph]. *)
Definition operator_add (x y : GraphNodeHandle) : M GraphNodeHandle :=
  AddNode_BinaryOp (graph x) gigagrad.ADD x y.

(** Every reference of the node at index [i] of a graph has an index
    below [i]. *)
Definition acyclic (w : Graphs) : Prop :=
  ∀ γ g i n, w !! γ = Some g → nodes g !! i = Some n →
    Forall (λ r, (node_idx r < i)%nat) (refs (u n)).

(** The program with two graphs that the example uses: one input in the
    first graph, five in the second, then the sum of the input of the first
    and the last input of the second. *)
Definition sum_across_graphs : M GraphNodeHandle :=
  a <~ Graph_AddInput 0 [3] ;;
  _ <~ Graph_AddInput 1 [3] ;;
  _ <~ Graph_AddInput 1 [3] ;;
  _ <~ Graph_AddInput 1 [3] ;;
  _ <~ Graph_AddInput 1 [3] ;;
  b <~ Graph_AddInput 1 [3] ;;
  operator_add a b.

(** The single-arena model as a part of this one: the arena [g] as the
    graph at position [γ], every reference a handle of that graph. *)
Definition of_variant (γ : nat) (v : gigagrad.Variant) : Variant :=
  match v with
  | gigagrad.Tensor => Tensor
  | gigagrad.Immediate value => Immediate value
  | gigagrad.UnaryOp type x => UnaryOp type (mkHandle γ x)
  | gigagrad.BinaryOp type x y => BinaryOp type (mkHandle γ x) (mkHandle γ y)
  | gigagrad.ReduceOp type x dims keepdim =>
    ReduceOp type (mkHandle γ x) dims keepdim
  | gigagrad.ViewOp x => ViewOp (mkHandle γ x)
  end.

Definition of_node (γ : nat) (n : gigagrad.GraphNode) : GraphNode :=
  mkNode (of_variant γ (gigagrad.u n)) (gigagrad.shape n)
         (gigagrad.strides n).

Definition of_graph (γ : nat) (g : gigagrad.Graph) : Graph :=
  mkGraph (gigagrad.inputs g) (of_node γ <$> gigagrad.nodes g).

Definition of_result (γ : nat) (w : Graphs) (r : gigagrad.Result nat)
  : Result GraphNodeHandle :=
  match r with
  | gigagrad.ROk h g => ROk (mkHandle γ h) (<[γ := of_graph γ g]> w)
  | gigagrad.RThrow what g => RThrow what (<[γ := of_graph γ g]> w)
  | gigagrad.RUndef => RUndef
  end.

End graphs.

Import gigagrad.

(** * The shape / stride algebra *)

Section FixDim.

Lemma FixDim_zero dim : FixDim dim 0 = Undef.
Proof. reflexivity. Qed.

Lemma FixDim_range dim rank :
  1 ≤ rank → ∃ r, FixDim dim rank = Ok r ∧ 0 ≤ r < rank.
Proof.
  intros Hr. unfold FixDim.
  destruct (Z.eqb_spec rank 0) as [->|_]; [lia|].
  eexists; split; [reflexivity|].
  assert (Hb : - rank < Z.rem dim rank < rank).
  { pose proof (Z.rem_bound_abs dim rank ltac:(lia)). lia. }
  pose proof (Z.rem_bound_pos (Z.rem dim rank + rank) rank
                ltac:(lia) ltac:(lia)); lia.
Qed.

Lemma FixDim_minus_one rank : 1 ≤ rank → FixDim (-1) rank = Ok (rank - 1).
Proof.
  intros Hr. unfold FixDim.
  destruct (Z.eqb_spec rank 0) as [->|_]; [lia|]. f_equal.
  destruct (Z.eq_dec rank 1) as [->|Hne]; [reflexivity|].
  assert (H1 : Z.rem (-1) rank = -1).
  { pose proof (Z.rem_opp_l 1 rank ltac:(lia)) as H.
    rewrite (Z.rem_small 1 rank) in H by lia. exact H. }
  rewrite H1, Z.rem_small by lia. lia.
Qed.

End FixDim.

Section DimArith.

Lemma wrap_range z : dim_t_min ≤ wrap z ≤ dim_t_max.
Proof.
  unfold wrap, dim_t_min, dim_t_max.
  pose proof (Z.mod_pos_bound (z + 9223372036854775808)
                18446744073709551616 ltac:(lia)).
  lia.
Qed.

Lemma in_dim_t_spec z : in_dim_t z = true ↔ dim_t_min ≤ z ≤ dim_t_max.
Proof. unfold in_dim_t. rewrite andb_true_iff, !Z.leb_le. done. Qed.

Lemma wrap_in_dim_t z : in_dim_t (wrap z) = true.
Proof. apply in_dim_t_spec, wrap_range. Qed.

Lemma wrap_id z : in_dim_t z = true → wrap z = z.
Proof.
  rewrite in_dim_t_spec. unfold wrap, dim_t_min, dim_t_max. intros Hz.
  rewrite Z.mod_small by lia. lia.
Qed.

Lemma wrap_shift z k : wrap (z + k * 18446744073709551616) = wrap z.
Proof.
  unfold wrap. f_equal.
  replace (z + k * 18446744073709551616 + 9223372036854775808)
    with (z + 9223372036854775808 + k * 18446744073709551616) by lia.
  apply Z_mod_plus_full.
Qed.

Lemma wrap_eq z : ∃ k, wrap z = z + k * 18446744073709551616.
Proof.
  exists (- ((z + 9223372036854775808) / 18446744073709551616)).
  unfold wrap.
  pose proof (Z.div_mod (z + 9223372036854775808) 18446744073709551616
                ltac:(lia)).
  lia.
Qed.

Lemma wrap_mul_l a b : wrap (wrap a * b) = wrap (a * b).
Proof.
  destruct (wrap_eq a) as [k ->].
  replace ((a + k * 18446744073709551616) * b)
    with (a * b + (k * b) * 18446744073709551616) by lia.
  apply wrap_shift.
Qed.

Lemma wrap_mul_r a b : wrap (a * wrap b) = wrap (a * b).
Proof. rewrite (Z.mul_comm a), wrap_mul_l. f_equal. lia. Qed.

Lemma dim_mul_1_r z : in_dim_t z = true → dim_mul z 1 = z.
Proof. intros Hz. unfold dim_mul. rewrite Z.mul_1_r. by apply wrap_id. Qed.

Lemma dim_mul_in_dim_t a b : in_dim_t (dim_mul a b) = true.
Proof. apply wrap_in_dim_t. Qed.

Lemma foldr_mul_scale (l : list Z) a : foldr Z.mul a l = a * foldr Z.mul 1 l.
Proof.
  induction l as [|z l IH]; simpl; [lia|]. rewrite IH. lia.
Qed.

End DimArith.

Section Strides.

Lemma strides_from_snoc cur pre tmp :
  strides_from cur (pre ++ [tmp])
  = strides_from (dim_mul cur tmp) pre ++ [if tmp =? 1 then 0 else wrap cur].
Proof.
  induction pre as [|d pre IH]; simpl.
  - f_equal. destruct (tmp =? 1); [done|]. f_equal. lia.
  - rewrite IH. f_equal. destruct (d =? 1); [done|].
    rewrite foldr_app. simpl. unfold dim_mul.
    rewrite wrap_mul_l, (foldr_mul_scale pre (tmp * 1)). f_equal. lia.
Qed.

Lemma ComputeStrides_loop_spec pre : ∀ cur post,
  in_dim_t cur = true →
  ComputeStrides_loop (length pre) cur (pre ++ post)
  = strides_from cur pre ++ post.
Proof.
  induction pre as [|tmp pre IH] using rev_ind; intros cur post Hc; [done|].
  rewrite length_app, Nat.add_1_r. simpl.
  rewrite <- app_assoc. simpl.
  rewrite list_lookup_middle by done.
  rewrite insert_app_r_alt, Nat.sub_diag by done. simpl.
  rewrite IH, strides_from_snoc, <- app_assoc by apply dim_mul_in_dim_t.
  by rewrite (wrap_id cur).
Qed.

Lemma strides_from_one sh : strides_from 1 sh = canonical_strides sh.
Proof.
  induction sh as [|d sh IH]; simpl; [done|].
  rewrite IH. f_equal. destruct (d =? 1); [done|].
  by destruct (foldr Z.mul 1 sh).
Qed.

Lemma ComputeStrides_canonical sh : ComputeStrides sh = canonical_strides sh.
Proof.
  unfold ComputeStrides.
  rewrite <- (app_nil_r sh) at 2.
  rewrite ComputeStrides_loop_spec, app_nil_r by done. apply strides_from_one.
Qed.

Lemma canonical_strides_exact sh :
  products_fit sh = true → canonical_strides sh = exact_strides sh.
Proof.
  induction sh as [|d sh IH]; simpl; [done|].
  rewrite andb_true_iff. intros [Hp Hs].
  rewrite IH, wrap_id by done. done.
Qed.

End Strides.

Section Broadcast.

Lemma broadcast_dim_rule a b :
  compatible a b →
  (a = 1 → broadcast_dim a b = b) ∧ (b = 1 → broadcast_dim a b = a)
  ∧ (a = b → broadcast_dim a b = a).
Proof.
  unfold compatible, broadcast_dim. intros Hc.
  destruct (Z.eqb_spec a 1); lia.
Qed.

(** The loop, started with [length Sd] pairs already done: the pairs of
    [B] and [Sp] are still to be merged, [A] is never looked at. *)
Lemma GetBroadcastedShape_loop_spec Sp : ∀ B A Ld Sd,
  length B = length Sp → length Ld = length Sd →
  GetBroadcastedShape_loop (length Sp) (length Sd) (A ++ B ++ Ld) (Sp ++ Sd)
  = if decide (Forall2 compatible B Sp)
    then Ok (A ++ zip_with broadcast_dim B Sp ++ Ld)
    else Throw "Cannot broadcast incompatible shapes".
Proof.
  induction Sp as [|b Sp IH] using rev_ind; intros B A Ld Sd HB HL.
  - destruct B; [|done]. rewrite decide_True by constructor. done.
  - destruct B as [|a B _] using rev_ind;
      [rewrite length_app in HB; simpl in HB; lia|].
    rewrite !length_app in HB. simpl in HB.
    assert (HB' : length B = length Sp) by lia.
    rewrite length_app, Nat.add_1_r. simpl.
    replace (A ++ (B ++ [a]) ++ Ld) with ((A ++ B) ++ a :: Ld)
      by (by rewrite <- !app_assoc).
    replace ((Sp ++ [b]) ++ Sd) with (Sp ++ b :: Sd)
      by (by rewrite <- !app_assoc).
    rewrite (list_lookup_middle (A ++ B) Ld a)
      by (rewrite !length_app; simpl; lia).
    rewrite (list_lookup_middle Sp Sd b)
      by (rewrite !length_app; simpl; lia).
    replace (length ((A ++ B) ++ a :: Ld) - length Sd - 1)%nat
      with (length (A ++ B)) by (rewrite !length_app; simpl; lia).
    rewrite insert_app_r_alt, Nat.sub_diag by done. simpl.
    rewrite zip_with_app by done. simpl.
    assert (Hstep : ∀ v, GetBroadcastedShape_loop (length Sp) (S (length Sd))
               ((A ++ B) ++ v :: Ld) (Sp ++ b :: Sd)
             = if decide (Forall2 compatible B Sp)
               then Ok (A ++ (zip_with broadcast_dim B Sp ++ [v]) ++ Ld)
               else Throw "Cannot broadcast incompatible shapes").
    { intros v. rewrite <- (app_assoc A B).
      change (S (length Sd)) with (length (b :: Sd)).
      rewrite (IH B A (v :: Ld) (b :: Sd)) by (simpl; lia).
      case_decide; [|done]. by rewrite <- !app_assoc. }
    assert (Hsplit : Forall2 compatible (B ++ [a]) (Sp ++ [b])
                     ↔ Forall2 compatible B Sp ∧ compatible a b).
    { split.
      - intros H. apply Forall2_app_inv in H; [|done].
        destruct H as [H1 H2]. by inversion H2.
      - intros [H1 H2]. apply Forall2_app; [done|].
        apply Forall2_cons; done. }
    unfold broadcast_dim, compatible in *.
    destruct (Z.eqb_spec a 1) as [->|Ha], (Z.eqb_spec b 1) as [->|Hb];
      simpl; try rewrite Z.eqb_refl; rewrite ?Hstep;
      try (repeat case_decide; (done || (exfalso; intuition lia))).
    destruct (Z.eqb_spec a b) as [->|Hab]; rewrite ?Hstep;
      repeat case_decide; (done || (exfalso; intuition lia)).
Qed.

Lemma GetBroadcastedShape_spec (x y : list Z) :
  let larger := if (length y <? length x)%nat then x else y in
  let smaller := if (length y <? length x)%nat then y else x in
  let d := (length larger - length smaller)%nat in
  GetBroadcastedShape x y
  = if decide (Forall2 compatible (drop d larger) smaller)
    then Ok (take d larger ++ zip_with broadcast_dim (drop d larger) smaller)
    else Throw "Cannot broadcast incompatible shapes".
Proof.
  intros larger smaller d. unfold GetBroadcastedShape. fold larger smaller.
  assert (Hle : (length smaller ≤ length larger)%nat).
  { subst larger smaller. destruct (Nat.ltb_spec (length y) (length x)); lia. }
  pose proof (GetBroadcastedShape_loop_spec smaller (drop d larger)
                (take d larger) [] []) as H.
  rewrite !app_nil_r, take_drop in H. simpl in H.
  apply H; [|done]. rewrite length_drop. lia.
Qed.

Lemma GetBroadcastedShape_scalar_l (y : list Z) :
  GetBroadcastedShape [] y = Ok y.
Proof. reflexivity. Qed.

Lemma GetBroadcastedShape_scalar_r (x : list Z) :
  GetBroadcastedShape x [] = Ok x.
Proof. destruct x; reflexivity. Qed.

Lemma compatible_zip_with_1 L S :
  Forall2 compatible L S → Forall2 compatible L (zip_with broadcast_dim L S).
Proof.
  induction 1 as [|a c L S Hc _ IH]; simpl; constructor; [|done].
  unfold compatible, broadcast_dim in *. destruct (Z.eqb_spec a 1); lia.
Qed.

Lemma compatible_zip_with_2 L S :
  Forall2 compatible L S → Forall2 compatible (zip_with broadcast_dim L S) S.
Proof.
  induction 1 as [|a c L S Hc _ IH]; simpl; constructor; [|done].
  unfold compatible, broadcast_dim in *. destruct (Z.eqb_spec a 1); lia.
Qed.

Lemma compatible_zip_with_3 L S :
  Forall2 compatible L S → Forall2 compatible S (zip_with broadcast_dim L S).
Proof.
  induction 1 as [|a c L S Hc _ IH]; simpl; constructor; [|done].
  unfold compatible, broadcast_dim in *. destruct (Z.eqb_spec a 1); lia.
Qed.

Lemma compatible_refl (s : list Z) : Forall2 compatible s s.
Proof. induction s; constructor; [by right; right|done]. Qed.

Lemma GetBroadcastedShape_self (s : list Z) : GetBroadcastedShape s s = Ok s.
Proof.
  rewrite GetBroadcastedShape_spec. cbv zeta.
  rewrite Nat.ltb_irrefl, Nat.sub_diag, drop_0, take_0. simpl.
  rewrite decide_True by apply compatible_refl. f_equal.
  induction s as [|a s IH]; simpl; [done|]. rewrite IH. f_equal.
  unfold broadcast_dim. destruct (Z.eqb_spec a 1); lia.
Qed.

(** The broadcast of [xs] and [ys] broadcasts with [xs] again. *)
Lemma GetBroadcastedShape_absorb (xs ys b : list Z) w :
  GetBroadcastedShape xs ys = Ok b → GetBroadcastedShape b xs ≠ Throw w.
Proof.
  rewrite !GetBroadcastedShape_spec. cbv zeta.
  destruct (Nat.ltb_spec (length ys) (length xs)) as [Hlt|Hge].
  - case_decide as Hc; [|done]. intros [= <-].
    set (d := (length xs - length ys)%nat) in *.
    assert (Hlen : length (take d xs ++ zip_with broadcast_dim (drop d xs) ys)
                   = length xs).
    { rewrite length_app, length_take, length_zip_with, length_drop. lia. }
    rewrite Hlen, Nat.ltb_irrefl, Hlen, Nat.sub_diag, drop_0.
    rewrite decide_True; [done|].
    rewrite <- (take_drop d xs) at 1.
    apply Forall2_app; [apply compatible_refl|].
    by apply compatible_zip_with_1.
  - case_decide as Hc; [|done]. intros [= <-].
    set (d := (length ys - length xs)%nat) in *.
    assert (Hlen : length (take d ys ++ zip_with broadcast_dim (drop d ys) xs)
                   = length ys).
    { rewrite length_app, length_take, length_zip_with, length_drop. lia. }
    rewrite Hlen.
    destruct (Nat.ltb_spec (length xs) (length ys)) as [Hlt|Hge'].
    + rewrite Hlen. rewrite decide_True; [done|].
      fold d. rewrite drop_app_length'; [|rewrite length_take; lia].
      by apply compatible_zip_with_2.
    + assert (d = 0%nat) as Hd by lia.
      rewrite Hlen. replace (length xs - length ys)%nat with 0%nat by lia.
      rewrite decide_True; [done|].
      rewrite Hd, ?drop_0, ?take_0 in *. simpl. by apply compatible_zip_with_3.
Qed.

End Broadcast.

(** * Reasoning about builder computations *)

Section Framework.

Lemma step_ok_refl g : step_ok g g.
Proof. unfold step_ok, extends. auto. Qed.

Lemma step_ok_trans g1 g2 g3 : step_ok g1 g2 → step_ok g2 g3 → step_ok g1 g3.
Proof.
  unfold step_ok, extends. intros (E1 & A1 & S1) (E2 & A2 & S2).
  split; [by etrans|]. auto.
Qed.

Lemma preserves_bind {A B} (m : M A) (f : A → M B) :
  preserves m → (∀ a, preserves (f a)) → preserves (bind m f).
Proof.
  intros Hm Hf g. unfold bind. specialize (Hm g).
  destruct (m g) as [a g1|w g1|]; [|done..].
  specialize (Hf a g1). destruct (f a g1); eauto using step_ok_trans.
Qed.

Lemma nothrow_bind {A B} (m : M A) (f : A → M B) :
  nothrow m → (∀ a, nothrow (f a)) → nothrow (bind m f).
Proof.
  intros Hm Hf g. unfold bind. specialize (Hm g).
  destruct (m g) as [a g1|w g1|]; [|done..]. apply Hf.
Qed.

Lemma atomic_bind {A B} (m : M A) (f : A → M B) :
  atomic m → (∀ a, nothrow (f a)) → atomic (bind m f).
Proof.
  intros Hm Hf g. unfold bind. specialize (Hm g).
  destruct (m g) as [a g1|w g1|]; [|done..].
  specialize (Hf a g1). by destruct (f a g1).
Qed.

Lemma nothrow_atomic {A} (m : M A) : nothrow m → atomic m.
Proof. intros H g. specialize (H g). by destruct (m g). Qed.

Lemma single_push_atomic m : single_push m → atomic m.
Proof. intros H g. specialize (H g). by destruct (m g). Qed.

Lemma acyclic_push g g' node :
  nodes g' = nodes g ++ [node] →
  Forall (λ r, (r < length (nodes g))%nat) (refs (u node)) →
  acyclic g → acyclic g'.
Proof.
  intros Hn Hr Ha i n. rewrite Hn. intros Hi.
  apply lookup_app_Some in Hi as [Hi|[Hlen Hi]]; [by apply (Ha i)|].
  apply list_lookup_singleton_Some in Hi as [Hi <-].
  replace i with (length (nodes g)) by lia. done.
Qed.

Lemma strides_canonical_push g g' node :
  nodes g' = nodes g ++ [node] →
  strides node = canonical_strides (shape node) →
  strides_canonical g → strides_canonical g'.
Proof.
  intros Hn Hs Hc i n. rewrite Hn. intros Hi.
  apply lookup_app_Some in Hi as [Hi|[Hlen Hi]]; [by apply (Hc i)|].
  by apply list_lookup_singleton_Some in Hi as [Hi <-].
Qed.

Lemma single_push_preserves m : single_push m → preserves m.
Proof.
  intros H g. specialize (H g).
  destruct (m g) as [h g'|w g'|]; [|subst; apply step_ok_refl|done].
  destruct H as (_ & node & Hn & Hr & Hs).
  split; [|split].
  - unfold extends. rewrite Hn. by apply prefix_app_r.
  - by apply acyclic_push with node.
  - intros Hc. apply strides_canonical_push with g node; auto.
Qed.

End Framework.

(** * The primitives append one node or throw before appending *)

Section Primitives.

Ltac unfold_m :=
  unfold GraphNodeHandle_shape, GraphNodeHandle_strides, GetNode,
    AddNode_ViewOp, AddNode_Tensor, AddNode, bind, lift, ret, throw, undef.

Ltac pushed :=
  simpl; split; [reflexivity|]; eexists; split; [reflexivity|]; simpl;
  split; [repeat constructor; eauto using lookup_lt_Some
         |intros; auto using ComputeStrides_canonical].

Lemma single_push_Immediate imm : single_push (AddNode_Immediate imm).
Proof. intros g. unfold AddNode_Immediate. unfold_m. pushed. Qed.

Lemma single_push_AddInput sh : single_push (Graph_AddInput sh).
Proof. intros g. unfold Graph_AddInput. unfold_m. pushed. Qed.

Lemma single_push_UnaryOp ty x : single_push (AddNode_UnaryOp ty x).
Proof.
  intros g. unfold AddNode_UnaryOp. unfold_m.
  destruct (nodes g !! x) as [n|] eqn:Hx; [|done].
  simpl. rewrite Hx. pushed. by apply (H x).
Qed.

Lemma single_push_BinaryOp ty x y : single_push (AddNode_BinaryOp ty x y).
Proof.
  intros g. unfold AddNode_BinaryOp. unfold_m.
  destruct (nodes g !! x) as [nx|] eqn:Hx; [|done].
  destruct (nodes g !! y) as [ny|] eqn:Hy; [|done].
  destruct (GetBroadcastedShape (shape nx) (shape ny)); [|done..].
  pushed.
Qed.

Lemma single_push_ReduceOp ty x dims k :
  single_push (AddNode_ReduceOp ty x dims k).
Proof.
  intros g. unfold AddNode_ReduceOp. unfold_m.
  destruct (nodes g !! x) as [nx|] eqn:Hx; [|done].
  destruct (ComputeReducedShape (shape nx) dims k); [|done..].
  pushed.
Qed.

Lemma single_push_WrapInReduction x ty dims k :
  single_push (WrapInReduction x ty dims k).
Proof.
  intros g. unfold WrapInReduction.
  unfold GraphNodeHandle_shape, GetNode, bind at 1 2 3, ret, lift.
  destruct (nodes g !! x) as [nx|] eqn:Hx; [|done].
  destruct (fix_dims dims _); [|done..].
  apply single_push_ReduceOp.
Qed.

Lemma single_push_reshape x new_shape :
  single_push (GraphNodeHandle_reshape x new_shape).
Proof.
  intros g. unfold GraphNodeHandle_reshape. unfold_m.
  destruct (nodes g !! x) as [nx|] eqn:Hx; [|done].
  repeat case_match; simplify_eq; try done; pushed.
Qed.

Lemma single_push_permute x dims : single_push (GraphNodeHandle_permute x dims).
Proof.
  intros g. unfold GraphNodeHandle_permute. unfold_m.
  destruct (nodes g !! x) as [nx|] eqn:Hx; [|done].
  repeat case_match; simplify_eq; try done; pushed.
Qed.

Lemma single_push_transpose x : single_push (GraphNodeHandle_transpose x).
Proof.
  intros g. unfold GraphNodeHandle_transpose.
  unfold GraphNodeHandle_shape, GetNode, bind at 1 2, ret.
  destruct (nodes g !! x) as [nx|] eqn:Hx; [|done].
  apply single_push_permute.
Qed.

End Primitives.

(** * Which computations never throw *)

Section NoThrow.

Lemma nothrow_Immediate imm : nothrow (AddNode_Immediate imm).
Proof. intros g. done. Qed.

Lemma nothrow_AddInput sh : nothrow (Graph_AddInput sh).
Proof. intros g. done. Qed.

Lemma nothrow_UnaryOp ty x : nothrow (AddNode_UnaryOp ty x).
Proof.
  intros g. unfold AddNode_UnaryOp, GraphNodeHandle_shape,
    GraphNodeHandle_strides, GetNode, bind, ret.
  destruct (nodes g !! x) eqn:Hx; [|done]. simpl. by rewrite Hx.
Qed.

(** An immediate has the scalar shape, which broadcasts with every shape. *)
Lemma nothrow_imm_binop_l ty imm y :
  nothrow (xnode <- AddNode_Immediate imm ;; AddNode_BinaryOp ty xnode y).
Proof.
  intros g. unfold AddNode_BinaryOp, AddNode_Immediate, AddNode,
    GraphNodeHandle_shape, GetNode, bind, lift, ret. simpl.
  rewrite list_lookup_middle by done.
  match goal with |- context [?l !! y] => destruct (l !! y) end; [|done].
  by rewrite ?GetBroadcastedShape_scalar_l.
Qed.

Lemma nothrow_imm_binop_r ty imm x :
  nothrow (ynode <- AddNode_Immediate imm ;; AddNode_BinaryOp ty x ynode).
Proof.
  intros g. unfold AddNode_BinaryOp, AddNode_Immediate, AddNode,
    GraphNodeHandle_shape, GetNode, bind, lift, ret. simpl.
  match goal with |- context [?l !! x] => destruct (l !! x) end; [|done].
  cbn [nodes]. rewrite list_lookup_middle by done. cbn [shape].
  by rewrite GetBroadcastedShape_scalar_r.
Qed.

Lemma fix_dims_Ok dims rank ds :
  fix_dims dims rank = Ok ds →
  length ds = length dims ∧ (dims ≠ [] → rank ≠ 0)
  ∧ Forall2 (λ d r, FixDim d rank = Ok r) dims ds.
Proof.
  revert ds. induction dims as [|d dims IH]; intros ds; simpl.
  - intros [= <-]. by repeat split.
  - destruct (FixDim d rank) as [d'| |] eqn:Hd; [|done..].
    destruct (fix_dims dims rank) as [r| |]; [|done..].
    intros [= <-]. destruct (IH r eq_refl) as (Hl & _ & Hf).
    repeat split; simpl; [lia| |by constructor].
    intros _ ->. by rewrite FixDim_zero in Hd.
Qed.

Lemma fix_dims_nothrow dims rank w : fix_dims dims rank ≠ Throw w.
Proof.
  induction dims as [|d dims IH]; simpl; [done|].
  unfold FixDim at 1. destruct (rank =? 0); [done|].
  by destruct (fix_dims dims rank).
Qed.

Lemma mark_dims_nothrow dims : ∀ sh w, mark_dims dims sh ≠ Throw w.
Proof.
  induction dims as [|d dims IH]; intros sh w; simpl; [done|].
  case_match; [apply IH|done].
Qed.

Lemma ComputeReducedShape_Throw xs dims k w :
  ComputeReducedShape xs dims k = Throw w → (length xs < length dims)%nat.
Proof.
  unfold ComputeReducedShape. destruct dims as [|d dims]; [by destruct k|].
  destruct (Nat.ltb_spec (length xs) (length (d :: dims))); [done|].
  destruct (mark_dims (d :: dims) xs) eqn:Hm; [by destruct k| |done].
  by apply mark_dims_nothrow in Hm.
Qed.

Lemma length_sort dims : length (sort dims) = length dims.
Proof. unfold sort. by rewrite merge_sort_Permutation. Qed.

Lemma WrapInReduction_Throw x ty dims k g w g' :
  WrapInReduction x ty dims k g = RThrow w g' →
  ∃ nx, nodes g !! x = Some nx
        ∧ (0 < length (shape nx) < length dims)%nat.
Proof.
  unfold WrapInReduction, AddNode_ReduceOp, GraphNodeHandle_shape, GetNode,
    AddNode, bind, lift, ret, throw.
  destruct (nodes g !! x) as [nx|] eqn:Hx; [|done].
  destruct (fix_dims dims _) as [ds|w'|] eqn:Hf;
    [|by apply fix_dims_nothrow in Hf|done].
  apply fix_dims_Ok in Hf as (Hl & Hr & _). rewrite Hx. simpl.
  destruct (ComputeReducedShape _ _ _) eqn:Hc; [done| |done].
  apply ComputeReducedShape_Throw in Hc. rewrite length_sort, Hl in Hc.
  intros _. exists nx. split; [done|].
  destruct dims; [simpl in Hc; lia|]. specialize (Hr ltac:(done)). lia.
Qed.

Lemma nothrow_reduce_dim x ty dim k : nothrow (WrapInReduction x ty [dim] k).
Proof.
  intros g. destruct (WrapInReduction x ty [dim] k g) eqn:H; [done| |done].
  apply WrapInReduction_Throw in H as (nx & _ & Hl). simpl in Hl. lia.
Qed.

Lemma nothrow_reduce_all x ty k :
  nothrow (sh <- GraphNodeHandle_shape x ;;
           WrapInReduction x ty (iota (length sh)) k).
Proof.
  intros g. unfold GraphNodeHandle_shape, GetNode, bind at 1 2, ret.
  destruct (nodes g !! x) as [nx|] eqn:Hx; [|done].
  destruct (WrapInReduction _ _ _ _ g) eqn:H; [done| |done].
  apply WrapInReduction_Throw in H as (nx' & Hx' & Hl).
  rewrite Hx in Hx'. injection Hx' as <-.
  unfold iota in Hl. rewrite length_seqZ in Hl. lia.
Qed.

Lemma AddNode_BinaryOp_run ty x y g :
  AddNode_BinaryOp ty x y g
  = match nodes g !! x, nodes g !! y with
    | Some nx, Some ny =>
      match GetBroadcastedShape (shape nx) (shape ny) with
      | Ok s =>
        ROk (length (nodes g))
          (mkGraph (inputs g)
             (nodes g ++ [mkNode (BinaryOp ty x y) s (ComputeStrides s)]))
      | Throw w => RThrow w g
      | Undef => RUndef
      end
    | _, _ => RUndef
    end.
Proof.
  unfold AddNode_BinaryOp, AddNode, GraphNodeHandle_shape, GetNode, bind,
    lift, ret, throw, undef.
  destruct (nodes g !! x); [|done]. destruct (nodes g !! y); [|done].
  by destruct (GetBroadcastedShape _ _).
Qed.

(** [max(x, y) == x]: the comparison cannot throw once the maximum is built. *)
Lemma atomic_binop_then_binop_l ty1 ty2 x y :
  atomic (m <- AddNode_BinaryOp ty1 x y ;; AddNode_BinaryOp ty2 m x).
Proof.
  intros g. unfold bind. rewrite AddNode_BinaryOp_run.
  destruct (nodes g !! x) as [nx|] eqn:Hx; [|done].
  destruct (nodes g !! y) as [ny|] eqn:Hy; [|done].
  destruct (GetBroadcastedShape (shape nx) (shape ny)) as [b| |] eqn:Hb;
    [|done..].
  rewrite AddNode_BinaryOp_run. cbn [nodes].
  rewrite list_lookup_middle by done.
  rewrite (lookup_app_l_Some _ _ _ _ Hx). cbn [shape].
  destruct (GetBroadcastedShape b (shape nx)) eqn:Hb'; [done| |done].
  by apply GetBroadcastedShape_absorb with (w := what) in Hb.
Qed.

Lemma nothrow_imm_binop_then_binop ty1 ty2 imm y :
  nothrow (m <- (xnode <- AddNode_Immediate imm ;;
                 AddNode_BinaryOp ty1 xnode y) ;;
           AddNode_BinaryOp ty2 m y).
Proof.
  intros g. unfold bind, AddNode_Immediate, AddNode.
  rewrite AddNode_BinaryOp_run. cbn [nodes].
  rewrite list_lookup_middle by done.
  match goal with |- context [?l !! y] => destruct (l !! y) as [ny|] eqn:Hy end;
    [|done].
  cbn [shape]. rewrite GetBroadcastedShape_scalar_l.
  rewrite AddNode_BinaryOp_run. cbn [nodes].
  rewrite list_lookup_middle by done.
  rewrite (lookup_app_l_Some _ _ _ _ Hy). cbn [shape].
  by rewrite GetBroadcastedShape_self.
Qed.

Lemma WrapInReduction_run x ty dims k g :
  WrapInReduction x ty dims k g
  = match nodes g !! x with
    | Some nx =>
      match fix_dims dims (Z.of_nat (length (shape nx))) with
      | Ok ds =>
        match ComputeReducedShape (shape nx) (sort ds) k with
        | Ok s =>
          ROk (length (nodes g))
            (mkGraph (inputs g)
               (nodes g ++ [mkNode (ReduceOp ty x (sort ds) k) s
                              (ComputeStrides s)]))
        | Throw w => RThrow w g
        | Undef => RUndef
        end
      | Throw w => RThrow w g
      | Undef => RUndef
      end
    | None => RUndef
    end.
Proof.
  unfold WrapInReduction, AddNode_ReduceOp, AddNode, GraphNodeHandle_shape,
    GetNode, bind, lift, ret, throw, undef.
  destruct (nodes g !! x) as [nx|] eqn:Hx; [|done].
  destruct (fix_dims dims _); [|done..]. rewrite Hx.
  by destruct (ComputeReducedShape _ _ _).
Qed.

Lemma fix_dims_in_range dims rank :
  1 ≤ rank →
  ∃ ds, fix_dims dims rank = Ok ds ∧ Forall (λ d, 0 ≤ d < rank) ds.
Proof.
  intros Hr. induction dims as [|d dims (ds & Hds & Hf)]; simpl; [eauto|].
  destruct (FixDim_range d rank Hr) as (r & -> & Hrange).
  rewrite Hds. eauto.
Qed.

Lemma fix_dims_range dims rank ds :
  0 ≤ rank → fix_dims dims rank = Ok ds → Forall (λ d, 0 ≤ d < rank) ds.
Proof.
  intros H0 Hf. destruct dims as [|d dims]; [by injection Hf as <-|].
  destruct (fix_dims_Ok _ _ _ Hf) as (_ & Hr & _).
  specialize (Hr ltac:(done)).
  destruct (fix_dims_in_range (d :: dims) rank ltac:(lia)) as (ds' & Hds & Hf').
  congruence.
Qed.

Lemma mark_dims_defined dims : ∀ sh,
  Forall (λ d, 0 ≤ d < Z.of_nat (length sh)) dims →
  ∃ s, mark_dims dims sh = Ok s.
Proof.
  induction dims as [|d dims IH]; intros sh Hall; simpl; [eauto|].
  inversion Hall as [|? ? Hd Hrest]; subst.
  destruct (Z.leb_spec 0 d); [|lia].
  destruct (Nat.ltb_spec (Z.to_nat d) (length sh)); [|lia]. simpl.
  apply IH. by rewrite length_insert.
Qed.

Lemma ComputeReducedShape_defined sh dims k :
  Forall (λ d, 0 ≤ d < Z.of_nat (length sh)) dims →
  ComputeReducedShape sh dims k ≠ Undef.
Proof.
  intros Hall. unfold ComputeReducedShape.
  destruct dims as [|d dims]; [by destruct k|].
  destruct (_ <? _)%nat; [done|].
  destruct (mark_dims_defined _ _ Hall) as (s & ->). by destruct k.
Qed.

End NoThrow.

(** * Every entry point *)

Section EntryPoints.

Ltac unfold_ops :=
  unfold run, operator_mod, matmul, transpose, permute, reshape_dim, reshape,
    GraphNodeHandle_reshape_dim, hand_min, hand_min_y_first, hand_neg,
    min_dims, min_dim,
    min_keepdim, max_dims, max_dim, max_keepdim, sum_dims, sum_dim,
    sum_keepdim, GraphNodeHandle_max, GraphNodeHandle_max_dim,
    GraphNodeHandle_max_dims, GraphNodeHandle_sum, GraphNodeHandle_sum_dim,
    GraphNodeHandle_sum_dims, sigmoid, cos, pow, pow_fh, pow_hf,
    operator_ge, operator_ge_fh, operator_ge_hf, min_hf, min_fh, min,
    operator_le, operator_le_fh, operator_le_hf, operator_lt, operator_lt_fh,
    operator_lt_hf, operator_gt, operator_gt_fh, operator_gt_hf, max_hf,
    max_fh, max, operator_eq_hf, operator_eq_fh, operator_eq, operator_xor,
    operator_div_hf, operator_div_fh, operator_div, operator_neg,
    operator_mul_hf, operator_mul_fh, operator_mul, operator_sub_hf,
    operator_sub_fh, operator_sub, operator_add_hf, operator_add_fh,
    operator_add, sin, log, exp, WrapInUnary, Graph_AddInput_dim,
    Graph_Immediate.

Lemma preserves_shape x : preserves (GraphNodeHandle_shape x).
Proof.
  intros g. unfold GraphNodeHandle_shape, GetNode, bind, ret.
  destruct (nodes g !! x); [apply step_ok_refl|done].
Qed.

Lemma preserves_throw {A} w : preserves (@throw A w).
Proof. intros g. apply step_ok_refl. Qed.

Lemma preserves_undef {A} : preserves (@undef A).
Proof. intros g. done. Qed.

Ltac solve_preserves :=
  repeat first
    [ apply preserves_shape
    | apply preserves_throw
    | apply preserves_undef
    | apply single_push_preserves;
      first [ apply single_push_Immediate | apply single_push_AddInput
            | apply single_push_UnaryOp | apply single_push_BinaryOp
            | apply single_push_WrapInReduction | apply single_push_reshape
            | apply single_push_permute | apply single_push_transpose ]
    | apply preserves_bind; [|intros ?] ].

Lemma preserves_matmul x y : preserves (GraphNodeHandle_matmul x y).
Proof.
  unfold GraphNodeHandle_matmul.
  apply preserves_bind; [apply preserves_shape|intros xs].
  apply preserves_bind; [apply preserves_shape|intros ys].
  cbv zeta. repeat case_match; unfold_ops; solve_preserves.
Qed.

Lemma run_preserves o c : preserves (run o c).
Proof.
  destruct c; try apply preserves_matmul; destruct o;
    unfold_ops; solve_preserves.
Qed.

Ltac solve_nothrow :=
  repeat first
    [ apply nothrow_imm_binop_l | apply nothrow_imm_binop_r
    | apply nothrow_reduce_all | apply nothrow_reduce_dim
    | apply nothrow_UnaryOp | apply nothrow_Immediate
    | apply nothrow_AddInput
    | apply nothrow_bind; [|intros ?] ].

Ltac solve_atomic :=
  first
    [ apply single_push_atomic;
      first [ apply single_push_BinaryOp | apply single_push_WrapInReduction
            | apply single_push_reshape | apply single_push_permute
            | apply single_push_transpose ]
    | apply atomic_binop_then_binop_l
    | apply nothrow_atomic; apply nothrow_imm_binop_then_binop
    | apply atomic_bind;
      [ apply single_push_atomic; apply single_push_BinaryOp
      | intros ?; solve [solve_nothrow] ]
    | apply nothrow_atomic; solve [solve_nothrow] ].

Lemma run_atomic o c : builds_operands_first c = false → atomic (run o c).
Proof.
  destruct c; try discriminate; intros _; unfold_ops; solve_atomic.
Qed.

End EntryPoints.

(** * Programs: sequences of calls *)

Section Programs.

Lemma build_step_ok o cs : ∀ g g', build o cs g = Some g' → step_ok g g'.
Proof.
  induction cs as [|c cs IH]; intros g g'; simpl.
  - intros [= <-]. apply step_ok_refl.
  - pose proof (run_preserves o c g) as Hc.
    destruct (run o c g) as [h g1|w g1|]; [| |done];
      intros Hb; apply IH in Hb; eauto using step_ok_trans.
Qed.

Lemma acyclic_empty : acyclic empty_graph.
Proof. intros i n. unfold empty_graph. simpl. by rewrite lookup_nil. Qed.

Lemma strides_canonical_empty : strides_canonical empty_graph.
Proof. intros i n. unfold empty_graph. simpl. by rewrite lookup_nil. Qed.

End Programs.

(** * The claims *)

(** C6.  [GetBroadcastedShape] right-aligns the two shapes: the result
    has the length of the longer shape, keeps its unmatched leading
    dimensions, and merges every aligned pair by [broadcast_dim] (the other
    side if one side is 1, the common value if both are equal); it throws
    exactly when some aligned pair is incompatible, and it is never
    undefined.  [4,1,3] with [1,5,3] gives [4,5,3]; [2,3] with [4] throws. *)
Theorem GetBroadcastedShape_rule (x y : list Z) :
  let larger := if (length y <? length x)%nat then x else y in
  let smaller := if (length y <? length x)%nat then y else x in
  let d := (length larger - length smaller)%nat in
  (∀ r, GetBroadcastedShape x y = Ok r ↔
        Forall2 compatible (drop d larger) smaller
        ∧ r = take d larger ++ zip_with broadcast_dim (drop d larger) smaller)
  ∧ ((∃ w, GetBroadcastedShape x y = Throw w) ↔
     ¬ Forall2 compatible (drop d larger) smaller)
  ∧ GetBroadcastedShape x y ≠ Undef
  ∧ (∀ r, GetBroadcastedShape x y = Ok r →
          length r = Nat.max (length x) (length y))
  ∧ (∀ a b, compatible a b →
            (a = 1 → broadcast_dim a b = b) ∧ (b = 1 → broadcast_dim a b = a)
            ∧ (a = b → broadcast_dim a b = a))
  ∧ GetBroadcastedShape [4;1;3] [1;5;3] = Ok [4;5;3]
  ∧ GetBroadcastedShape [2;3] [4]
    = Throw "Cannot broadcast incompatible shapes".
Proof.
  intros larger smaller d.
  pose proof (GetBroadcastedShape_spec x y) as Hs. cbv zeta in Hs.
  fold larger smaller d in Hs.
  assert (Hle : (length smaller ≤ length larger)%nat
                ∧ length larger = Nat.max (length x) (length y)).
  { subst larger smaller. destruct (Nat.ltb_spec (length y) (length x)); lia. }
  repeat split.
  - rewrite Hs in H. by case_decide.
  - rewrite Hs in H. case_decide; congruence.
  - intros [Hc ->]. rewrite Hs. by rewrite decide_True.
  - intros [w Hw] Hc. rewrite Hs, decide_True in Hw; done.
  - intros Hc. rewrite Hs, decide_False by done. eauto.
  - rewrite Hs. by case_decide.
  - intros r Hr. rewrite Hs in Hr. case_decide as Hc; [|done].
    injection Hr as <-. apply Forall2_length in Hc.
    rewrite length_app, length_take, length_zip_with, <- Hc, length_drop.
    lia.
  - by apply broadcast_dim_rule.
  - by apply broadcast_dim_rule.
  - by apply broadcast_dim_rule.
Qed.

Lemma GetBroadcastedShape_rule_witness :
  compatible 1 5 ∧ broadcast_dim 1 5 = 5
  ∧ GetBroadcastedShape [4;1;3] [1;5;3] = Ok [4;5;3].
Proof.
  pose proof (GetBroadcastedShape_rule [4;1;3] [1;5;3])
    as (_ & _ & _ & _ & Hr & Hex & _).
  assert (Hc : compatible 1 5) by (by left).
  split; [exact Hc|]. split; [|exact Hex].
  by apply (Hr 1 5 Hc).
Defined.

(** C7 (amended).  In every graph built from the empty graph by a
    sequence of calls to the entry points whose operands are handles of
    that graph, every node reference held by a node is strictly below the
    node's own arena index; and every further such call, whether it returns
    or throws, keeps it so. *)
Theorem acyclic_by_construction o cs g :
  build o cs empty_graph = Some g →
  acyclic g
  ∧ ∀ c, match run o c g with
         | ROk _ g' | RThrow _ g' => acyclic g'
         | RUndef => True
         end.
Proof.
  intros Hb. apply build_step_ok in Hb as (_ & Ha & _).
  specialize (Ha acyclic_empty). split; [done|].
  intros c. pose proof (run_preserves o c g) as Hc.
  destruct (run o c g) as [h g'|w g'|]; [| |done];
    destruct Hc as (_ & Hc & _); auto.
Qed.

Lemma acyclic_by_construction_witness :
  let cs := [CAddInput [2;3]; CAddInput [3]; CMin 0 1; CExp 5;
             CSum_dim 8 (-1) true; CMatmul 0 1; CTranspose 0] in
  ∃ g, build LeftToRight cs empty_graph = Some g
       ∧ length (nodes g) = 16%nat ∧ acyclic g.
Proof.
  intros cs.
  eassert (Hb : build LeftToRight cs empty_graph = Some _)
    by (vm_compute; reflexivity).
  eexists. split; [exact Hb|]. split; [reflexivity|].
  exact (proj1 (acyclic_by_construction LeftToRight cs _ Hb)).
Defined.

(** C7 (as stated) fails for an operand of another graph.  With one input
    [a] in a first graph and five inputs in a second one, [a + b] for the
    last input [b] of the second graph returns: it appends to the first
    graph, at index 1, a [BinaryOp] node whose second reference is the
    handle [b], of index 4. *)
Lemma reference_to_another_graph_is_not_below :
  ∃ w g,
    graphs.sum_across_graphs [graphs.empty_graph; graphs.empty_graph]
    = graphs.ROk (graphs.mkHandle 0 1) w
    ∧ w !! 0%nat = Some g
    ∧ graphs.u <$> graphs.nodes g !! 1%nat
      = Some (graphs.BinaryOp ADD (graphs.mkHandle 0 0) (graphs.mkHandle 1 4))
    ∧ ¬ graphs.acyclic w.
Proof.
  eexists _, _. split; [vm_compute; reflexivity|].
  split; [reflexivity|]. split; [reflexivity|].
  intros Ha. specialize (Ha 0%nat _ 1%nat _ eq_refl eq_refl).
  cbn in Ha. apply Forall_cons in Ha as [_ Ha].
  apply Forall_cons in Ha as [Ha _]. cbn in Ha. lia.
Qed.

(** C9.  In every graph built from the empty graph by a sequence of calls
    to the entry points, the strides of every node are the canonical
    strides of the node's own shape: for every dimension the product of the
    sizes to its right as [dim_t] holds it, and 0 for a dimension of size 1.
    Every further call, whether it returns or throws, keeps it so; and for
    a node none of whose products leaves [dim_t], the strides are the
    products themselves. *)
Theorem strides_canonical_by_construction o cs g :
  build o cs empty_graph = Some g →
  strides_canonical g
  ∧ (∀ c, match run o c g with
          | ROk _ g' | RThrow _ g' => strides_canonical g'
          | RUndef => True
          end)
  ∧ ∀ i n, nodes g !! i = Some n → products_fit (shape n) = true →
           strides n = exact_strides (shape n).
Proof.
  intros Hb. apply build_step_ok in Hb as (_ & _ & Hs).
  specialize (Hs strides_canonical_empty). split; [done|]. split.
  - intros c. pose proof (run_preserves o c g) as Hc.
    destruct (run o c g) as [h g'|w g'|]; [| |done];
      destruct Hc as (_ & _ & Hc); auto.
  - intros i n Hn Hf. rewrite (Hs i n Hn). by apply canonical_strides_exact.
Qed.

Lemma strides_canonical_by_construction_witness :
  let cs := [CAddInput [2;1;3]; CImmediate f_one; CSin 0; CMul 2 1;
             CMax_keepdim 3 false; CReshape 0 [3;-1]; CPermute 0 [2;0;1];
             CAddInput [2; 4294967296; 4294967296; 2]] in
  ∃ g, build RightToLeft cs empty_graph = Some g
       ∧ length (nodes g) = 8%nat
       ∧ strides <$> nodes g !! 6%nat = Some [0; 2; 1]
       ∧ strides <$> nodes g !! 7%nat = Some [0; 8589934592; 2; 1]
       ∧ strides_canonical g.
Proof.
  intros cs.
  eassert (Hb : build RightToLeft cs empty_graph = Some _)
    by (vm_compute; reflexivity).
  eexists. split; [exact Hb|]. split; [reflexivity|].
  split; [reflexivity|]. split; [reflexivity|].
  exact (proj1 (strides_canonical_by_construction RightToLeft cs _ Hb)).
Defined.

(** C1 (amended).  When a call to an entry point throws, the nodes that
    were in the arena are still there, unchanged, at the front of the arena;
    and for every entry point other than [min(x, y)] on two handles, [min]
    over a list of axes and [matmul] (with its operator [%]), the graph is
    exactly what it was before the call. *)
Theorem throwing_call_keeps_arena o c g w g' :
  run o c g = RThrow w g' →
  nodes g `prefix_of` nodes g'
  ∧ (builds_operands_first c = false → g' = g).
Proof.
  intros Hr. split.
  - pose proof (run_preserves o c g) as Hc. rewrite Hr in Hc. apply Hc.
  - intros Hc. pose proof (run_atomic o c Hc g) as Ha. by rewrite Hr in Ha.
Qed.

Lemma throwing_call_keeps_arena_witness :
  let g := mkGraph [0; 1]%nat [mkNode Tensor [2;3] [3;1]; mkNode Tensor [4] [1]] in
  run LeftToRight (CGe 0 1) g
  = RThrow "Cannot broadcast incompatible shapes" g
  ∧ nodes g `prefix_of` nodes g.
Proof.
  intros g. split; [reflexivity|].
  exact (proj1 (throwing_call_keeps_arena LeftToRight (CGe 0 1) g _ g eq_refl)).
Defined.

(** C1 (as stated) fails: [min(x, y)] on handles of shapes [2] and [3]
    throws at its [MAX] node, after the four nodes of [-x] and [-y] have been
    appended; so does [matmul] on shapes [2,3,4] and [5,4,6], after its two
    reshape nodes. *)
Lemma throwing_min_appends_nodes :
  let g := mkGraph [0; 1]%nat [mkNode Tensor [2] [1]; mkNode Tensor [3] [1]] in
  let g2 := mkGraph [0; 1]%nat
              [mkNode Tensor [2;3;4] [12;4;1]; mkNode Tensor [5;4;6] [24;6;1]] in
  ¬ (∀ o c g w g', run o c g = RThrow w g' → nodes g' = nodes g)
  ∧ (∃ w g', run LeftToRight (CMin 0 1) g = RThrow w g'
             ∧ length (nodes g') = 6%nat)
  ∧ (∃ w g', run RightToLeft (CMin 0 1) g = RThrow w g'
             ∧ length (nodes g') = 6%nat)
  ∧ (∃ w g', run LeftToRight (CMatmul 0 1) g2 = RThrow w g'
             ∧ length (nodes g') = 4%nat).
Proof.
  intros g g2.
  split; [|split; [|split]; do 2 eexists;
            (split; [vm_compute; reflexivity|reflexivity])].
  intros H.
  specialize (H LeftToRight (CMin 0 1) g). vm_compute in H.
  specialize (H _ _ eq_refl). discriminate H.
Qed.

(** C10.  For a [sum] or [max] call with an explicit, non-empty axis
    argument on a valid handle: on a rank-0 input the axis normalisation is a
    modulo by zero and the call is undefined; on an input of rank at least 1
    the call is defined (it returns or throws), every normalised axis lies
    in [0, rank), and [-1] is normalised to [rank - 1]. *)
Theorem explicit_axis_needs_rank o c g x dims nx :
  explicit_axes c = Some (x, dims) → dims ≠ [] → nodes g !! x = Some nx →
  let rank := Z.of_nat (length (shape nx)) in
  (rank = 0 → run o c g = RUndef ∧ ∀ d, FixDim d rank = Undef)
  ∧ (1 ≤ rank →
     run o c g ≠ RUndef
     ∧ (∀ d, ∃ r, FixDim d rank = Ok r ∧ 0 ≤ r < rank)
     ∧ FixDim (-1) rank = Ok (rank - 1)).
Proof.
  intros Hc Hne Hx rank.
  assert (Hrun : ∃ ty k, run o c g = WrapInReduction x ty dims k g).
  { destruct c; try discriminate; simpl in Hc; injection Hc as <- <-;
      by do 2 eexists. }
  destruct Hrun as (ty & k & ->). rewrite WrapInReduction_run, Hx. fold rank.
  split.
  - intros ->. split; [|done]. destruct dims; done.
  - intros Hr. split; [|split].
    + destruct (fix_dims_in_range dims rank Hr) as (ds & -> & Hall).
      assert (Hs : Forall (λ d, 0 ≤ d < rank) (sort ds)).
      { unfold sort. by rewrite merge_sort_Permutation. }
      pose proof (ComputeReducedShape_defined (shape nx) (sort ds) k Hs).
      by destruct (ComputeReducedShape _ _ _).
    + intros d. by apply FixDim_range.
    + by apply FixDim_minus_one.
Qed.

Lemma explicit_axis_needs_rank_witness :
  let g := mkGraph [1]%nat
             [mkNode (Immediate f_one) [] []; mkNode Tensor [2;3] [3;1]] in
  run LeftToRight (CSum_dim 0 (-1) false) g = RUndef
  ∧ run LeftToRight (CMax_dims 1 [-1; 0] true) g ≠ RUndef
  ∧ FixDim (-1) 2 = Ok 1.
Proof.
  intros g.
  pose proof (explicit_axis_needs_rank LeftToRight (CSum_dim 0 (-1) false) g
                0%nat [-1] (mkNode (Immediate f_one) [] [])
                eq_refl ltac:(done) eq_refl) as [H0 _].
  pose proof (explicit_axis_needs_rank LeftToRight (CMax_dims 1 [-1; 0] true) g
                1%nat [-1; 0] (mkNode Tensor [2;3] [3;1])
                eq_refl ltac:(done) eq_refl) as [_ H1].
  split; [exact (proj1 (H0 eq_refl))|].
  specialize (H1 ltac:(done)). split; [exact (proj1 H1)|exact (proj2 (proj2 H1))].
Defined.

(** C4 (amended).  The [ReduceOp] node that a [sum] or [max] entry point
    appends stores the requested axes, each normalised by [FixDim] against
    the rank of the input, sorted ascending: the stored list is sorted (not
    strictly: a repeated axis stays repeated), it is a rearrangement of the
    normalised axes, and each entry lies in [0, rank). *)
Theorem ReduceOp_dims_sorted_in_range o c g h g' ty x dims k nx :
  reduce_request c (length (shape nx)) = Some (ty, x, dims, k) →
  nodes g !! x = Some nx →
  run o c g = ROk h g' →
  ∃ fixed s,
    Forall2 (λ d r, FixDim d (Z.of_nat (length (shape nx))) = Ok r) dims fixed
    ∧ g' = mkGraph (inputs g)
             (nodes g ++ [mkNode (ReduceOp ty x (sort fixed) k) s
                            (ComputeStrides s)])
    ∧ Sorted Z.le (sort fixed)
    ∧ sort fixed ≡ₚ fixed
    ∧ Forall (λ d, 0 ≤ d < Z.of_nat (length (shape nx))) (sort fixed).
Proof.
  intros Hc Hx.
  assert (Hrun : run o c g = WrapInReduction x ty dims k g).
  { destruct c; try discriminate; simpl in Hc; injection Hc as <- <- <- <-;
      try reflexivity;
      unfold run, sum_keepdim, max_keepdim, GraphNodeHandle_sum,
        GraphNodeHandle_max, GraphNodeHandle_sum_dims,
        GraphNodeHandle_max_dims, GraphNodeHandle_shape, GetNode, bind, ret;
      by rewrite Hx. }
  rewrite Hrun, WrapInReduction_run, Hx.
  destruct (fix_dims dims _) as [fixed| |] eqn:Hf; [|done..].
  destruct (ComputeReducedShape _ _ _) as [s| |]; [|done..].
  intros [= <- <-]. exists fixed, s.
  pose proof (fix_dims_range _ _ _ (Nat2Z.is_nonneg _) Hf) as Hrange.
  apply fix_dims_Ok in Hf as (_ & _ & Hall).
  split; [done|]. split; [done|]. unfold sort.
  split; [apply (Sorted_merge_sort Z.le)|].
  split; [apply merge_sort_Permutation|].
  by rewrite merge_sort_Permutation.
Qed.

Lemma ReduceOp_dims_sorted_in_range_witness :
  let g := mkGraph [0]%nat [mkNode Tensor [2;3;4] [12;4;1]] in
  run LeftToRight (CSum_dims 0 [-1; 1; -3] false) g
  = ROk 1%nat (mkGraph [0]%nat
      [mkNode Tensor [2;3;4] [12;4;1];
       mkNode (ReduceOp RSUM 0 [0; 1; 2] false) [] []])
  ∧ Sorted Z.le (sort [2; 1; 0]).
Proof.
  intros g. split; [reflexivity|].
  destruct (ReduceOp_dims_sorted_in_range LeftToRight
              (CSum_dims 0 [-1; 1; -3] false) g _ _ RSUM 0%nat [-1; 1; -3]
              false (mkNode Tensor [2;3;4] [12;4;1]) eq_refl eq_refl eq_refl)
    as (fixed & s & Hall & _ & Hs & _).
  assert (fixed = [2; 1; 0]) as ->; [|exact Hs].
  repeat (inversion Hall as [|? ? ? ? Hd Hall']; subst; clear Hall;
          rename Hall' into Hall; injection Hd as <-).
  by inversion Hall.
Defined.

(** C4 (as stated) fails on the duplicate-free part: [sum] over the axes
    [0, 0] of an input of shape [2,3] stores the list [0, 0]; so does the
    axis list [1, -1], which is normalised to [1, 1]. *)
Lemma ReduceOp_dims_may_repeat :
  let g := mkGraph [0]%nat [mkNode Tensor [2;3] [3;1]] in
  run LeftToRight (CSum_dims 0 [0; 0] false) g
  = ROk 1%nat (mkGraph [0]%nat
      [mkNode Tensor [2;3] [3;1];
       mkNode (ReduceOp RSUM 0 [0; 0] false) [3] [1]])
  ∧ run LeftToRight (CMax_dims 0 [1; -1] true) g
    = ROk 1%nat (mkGraph [0]%nat
        [mkNode Tensor [2;3] [3;1];
         mkNode (ReduceOp RMAX 0 [1; 1] true) [2; 1] [1; 0]])
  ∧ ¬ NoDup [0; 0] ∧ ¬ NoDup [1; 1].
Proof.
  intros g. split; [reflexivity|]. split; [reflexivity|].
  split; intros H; apply NoDup_cons in H as [H _]; apply H; by left.
Qed.

(** * Views on nodes of known shape *)

Section KnownShapes.

Lemma shape_run x g nx :
  nodes g !! x = Some nx → GraphNodeHandle_shape x g = ROk (shape nx) g.
Proof.
  intros Hx. unfold GraphNodeHandle_shape, GetNode, bind, ret. by rewrite Hx.
Qed.

Lemma bind_run {A B} (m : M A) (f : A → M B) g a g1 :
  m g = ROk a g1 → bind m f g = f a g1.
Proof. intros H. unfold bind. by rewrite H. Qed.

Lemma lookup_last {A} (l : list A) a : (l ++ [a]) !! length l = Some a.
Proof. by apply list_lookup_middle. Qed.

Lemma lookup_old {A} (l k : list A) i a :
  l !! i = Some a → (l ++ k) !! i = Some a.
Proof. apply lookup_app_l_Some. Qed.

Lemma lookup_pushed {A} (l k : list A) j :
  (l ++ k) !! (length l + j)%nat = k !! j.
Proof. rewrite lookup_app_r by lia. f_equal. lia. Qed.

Lemma reshape_explicit_run x ns g nx :
  nodes g !! x = Some nx →
  filter (λ d, d = -1) ns = [] →
  num_elements_of ns = num_elements_of (shape nx) →
  GraphNodeHandle_reshape x ns g
  = ROk (length (nodes g))
      (mkGraph (inputs g)
         (nodes g ++ [mkNode (ViewOp x) ns (ComputeStrides ns)])).
Proof.
  intros Hx Hf He. unfold GraphNodeHandle_reshape.
  rewrite (bind_run _ _ _ _ _ (shape_run _ _ _ Hx)). cbv zeta.
  rewrite Hf, He, Z.eqb_refl. reflexivity.
Qed.

End KnownShapes.

Ltac solve_lookup :=
  repeat first [ solve [rewrite lookup_pushed; reflexivity]
               | apply lookup_last | eassumption | apply lookup_old ].

Ltac look :=
  repeat match goal with
  | |- context [?L !! ?i] =>
    let H := fresh in
    eassert (L !! i = Some _) as H by solve_lookup; rewrite H; clear H
  end.

Ltac compute_pure :=
  repeat (match goal with
  | |- context [GetBroadcastedShape ?a ?b] =>
    let v := eval vm_compute in (GetBroadcastedShape a b) in
    change (GetBroadcastedShape a b) with v
  | |- context [fix_dims ?a ?b] =>
    let v := eval vm_compute in (fix_dims a b) in
    change (fix_dims a b) with v
  | |- context [ComputeReducedShape ?a ?b ?c] =>
    let v := eval vm_compute in (ComputeReducedShape a b c) in
    change (ComputeReducedShape a b c) with v
  | |- context [ComputeStrides ?a] =>
    let v := eval vm_compute in (ComputeStrides a) in
    change (ComputeStrides a) with v
  | |- context [sort ?a] =>
    let v := eval vm_compute in (sort a) in
    change (sort a) with v
  end; cbv beta iota).

Lemma operator_neg_run z g nz :
  nodes g !! z = Some nz →
  operator_neg z g
  = ROk (length (nodes g) + 1)%nat
      (mkGraph (inputs g)
         (nodes g ++
          [mkNode (Immediate f_minus_one) [] [];
           mkNode (BinaryOp MUL (length (nodes g)) z) (shape nz)
             (canonical_strides (shape nz))])).
Proof.
  intros Hz. unfold operator_neg, operator_mul_fh, operator_mul.
  erewrite bind_run; [|reflexivity].
  rewrite AddNode_BinaryOp_run. cbn [nodes inputs]. look. cbn [shape].
  rewrite GetBroadcastedShape_scalar_l, ComputeStrides_canonical.
  f_equal; [rewrite length_app; simpl; lia|].
  by rewrite <- app_assoc.
Qed.

(** C2 (amended).  On an input node of shape [2,3,4], [permute] with
    the axis list [2,0,1] succeeds and appends one [ViewOp] node of shape
    [3,4,2]: the size of input axis [i] is placed at position [dims[i]] of
    the result. *)
Theorem permute_201_shape x g nx :
  nodes g !! x = Some nx → shape nx = [2; 3; 4] →
  permute x [2; 0; 1] g
  = ROk (length (nodes g))
      (mkGraph (inputs g)
         (nodes g ++ [mkNode (ViewOp x) [3; 4; 2] [8; 2; 1]])).
Proof.
  intros Hx Hs. unfold permute, GraphNodeHandle_permute.
  rewrite (bind_run _ _ _ _ _ (shape_run _ _ _ Hx)), Hs. reflexivity.
Qed.

Lemma permute_201_shape_witness :
  let g := mkGraph [0]%nat [mkNode Tensor [2; 3; 4] [12; 4; 1]] in
  nodes g !! 0%nat = Some (mkNode Tensor [2; 3; 4] [12; 4; 1])
  ∧ permute 0 [2; 0; 1] g
    = ROk 1%nat (mkGraph [0]%nat
        [mkNode Tensor [2; 3; 4] [12; 4; 1];
         mkNode (ViewOp 0) [3; 4; 2] [8; 2; 1]]).
Proof.
  intros g. split; [reflexivity|].
  exact (permute_201_shape 0 g _ eq_refl eq_refl).
Defined.

(** C2 (as stated) fails: the node that [permute] with [2,0,1] returns
    on an input of shape [2,3,4] has shape [3,4,2], not [4,2,3]. *)
Lemma permute_201_not_423 :
  let g := mkGraph [0]%nat [mkNode Tensor [2; 3; 4] [12; 4; 1]] in
  ¬ (∃ h g' n, permute 0 [2; 0; 1] g = ROk h g'
               ∧ nodes g' !! h = Some n ∧ shape n = [4; 2; 3]).
Proof.
  intros g (h & g' & n & Hp & Hn & Hs).
  vm_compute in Hp. injection Hp as <- <-.
  vm_compute in Hn. injection Hn as <-. discriminate Hs.
Qed.

(** C5.  On an input node of shape [2,3,4] (24 elements), [reshape] to
    [5,-1] does not fail: it returns a view of shape [5,4] (20 elements),
    the shape that the same call rejects when it is asked for explicitly. *)
Theorem reshape_implicit_truncates x g nx :
  nodes g !! x = Some nx → shape nx = [2; 3; 4] →
  reshape x [5; -1] g
  = ROk (length (nodes g))
      (mkGraph (inputs g) (nodes g ++ [mkNode (ViewOp x) [5; 4] [4; 1]]))
  ∧ reshape x [5; 4] g
    = RThrow "Reshape number of elements doesn't match that of input tensor" g.
Proof.
  intros Hx Hs. unfold reshape, GraphNodeHandle_reshape.
  rewrite !(bind_run _ _ _ _ _ (shape_run _ _ _ Hx)), Hs. split; reflexivity.
Qed.

Lemma reshape_implicit_truncates_witness :
  let g := mkGraph [0]%nat [mkNode Tensor [2; 3; 4] [12; 4; 1]] in
  nodes g !! 0%nat = Some (mkNode Tensor [2; 3; 4] [12; 4; 1])
  ∧ reshape 0 [5; -1] g
    = ROk 1%nat (mkGraph [0]%nat
        [mkNode Tensor [2; 3; 4] [12; 4; 1];
         mkNode (ViewOp 0) [5; 4] [4; 1]]).
Proof.
  intros g. split; [reflexivity|].
  exact (proj1 (reshape_implicit_truncates 0 g _ eq_refl eq_refl)).
Defined.

(** C3 (amended).  For [x] of shape [3] and [y] of shape [3,7],
    [matmul(x, y)] succeeds; it appends two reshape views, the broadcast
    product and the reduction, and the shape of the resulting node is [1,7]:
    the unit axis that pads the vector is still there. *)
Theorem matmul_vector_matrix_shape x y g nx ny :
  nodes g !! x = Some nx → shape nx = [3] →
  nodes g !! y = Some ny → shape ny = [3; 7] →
  let n := length (nodes g) in
  matmul x y g
  = ROk (n + 3)%nat
      (mkGraph (inputs g)
         (nodes g ++
          [mkNode (ViewOp x) [1; 3; 1] [0; 1; 0];
           mkNode (ViewOp y) [1; 3; 7] [0; 7; 1];
           mkNode (BinaryOp MUL n (n + 1)) [1; 3; 7] [0; 7; 1];
           mkNode (ReduceOp RSUM (n + 2) [1] false) [1; 7] [0; 1]])).
Proof.
  intros Hx Hsx Hy Hsy n. unfold matmul, GraphNodeHandle_matmul.
  rewrite (bind_run _ _ _ _ _ (shape_run _ _ _ Hx)).
  rewrite (bind_run _ _ _ _ _ (shape_run _ _ _ Hy)).
  rewrite Hsx, Hsy.
  cbn -[GraphNodeHandle_reshape operator_mul GraphNodeHandle_sum_dim].
  erewrite bind_run;
    [|apply (reshape_explicit_run x [1;3;1] g nx Hx eq_refl); by rewrite Hsx].
  erewrite bind_run;
    [|apply (reshape_explicit_run y [1;3;7] _ ny);
      [cbn [nodes]; solve_lookup|done|by rewrite Hsy]].
  cbn [nodes inputs]. unfold operator_mul.
  erewrite bind_run;
    [|rewrite AddNode_BinaryOp_run; cbn [nodes]; look; cbn [shape];
      compute_pure; reflexivity].
  cbn [nodes inputs].
  unfold GraphNodeHandle_sum_dim, GraphNodeHandle_sum_dims.
  rewrite WrapInReduction_run. cbn [nodes]. look. cbn [shape].
  compute_pure. cbn [inputs nodes].
  f_equal; [rewrite !length_app; simpl; lia|].
  f_equal. rewrite <- !app_assoc. simpl. repeat f_equal.
  all: rewrite ?length_app; simpl; lia.
Qed.

Lemma matmul_vector_matrix_shape_witness :
  let g := mkGraph [0; 1]%nat
             [mkNode Tensor [3] [1]; mkNode Tensor [3; 7] [7; 1]] in
  (nodes g !! 0%nat = Some (mkNode Tensor [3] [1])
   ∧ nodes g !! 1%nat = Some (mkNode Tensor [3; 7] [7; 1]))
  ∧ ∃ g', matmul 0 1 g = ROk 5%nat g'
          ∧ shape <$> nodes g' !! 5%nat = Some [1; 7].
Proof.
  intros g. split; [split; reflexivity|].
  eexists. split;
    [exact (matmul_vector_matrix_shape 0 1 g _ _ eq_refl eq_refl eq_refl eq_refl)
    |reflexivity].
Defined.

(** C3 (as stated) fails: the node that [matmul] returns for shapes [3]
    and [3,7] has shape [1,7], not [7]. *)
Lemma matmul_vector_matrix_not_7 :
  let g := mkGraph [0; 1]%nat
             [mkNode Tensor [3] [1]; mkNode Tensor [3; 7] [7; 1]] in
  ¬ (∃ h g' n, matmul 0 1 g = ROk h g'
               ∧ nodes g' !! h = Some n ∧ shape n = [7]).
Proof.
  intros g (h & g' & n & Hp & Hn & Hs).
  vm_compute in Hp. injection Hp as <- <-.
  vm_compute in Hn. injection Hn as <-. discriminate Hs.
Qed.

(** C8 (amended).  On every graph and for every pair of handles,
    [min(x, y)] has the outcome of [-(max(-x, -y))] built by hand through
    the entry points, with the negation written as an [Immediate(-1)] node
    followed by a [MUL] node, when the hand-build negates the operands in
    the order in which the call evaluates the two arguments of [max]: with
    the arguments evaluated left to right it is the hand-build in source
    order ([-x] first), with the arguments evaluated right to left it is the
    hand-build that negates [y] first.  When the handles are valid and
    their shapes broadcast to [b], the seven appended nodes are those of
    [min_nodes]: variant tags, operand order, shapes and strides at every
    index. *)
Theorem min_is_hand_built_neg_max_neg o x y g :
  min o x y g
  = match o with
    | LeftToRight => hand_min x y g
    | RightToLeft => hand_min_y_first x y g
    end
  ∧ ∀ nx ny b,
      nodes g !! x = Some nx → nodes g !! y = Some ny →
      GetBroadcastedShape (shape nx) (shape ny) = Ok b →
      min o x y g
      = ROk (length (nodes g) + 6)%nat
          (mkGraph (inputs g)
             (nodes g
              ++ min_nodes o (length (nodes g)) x y (shape nx) (shape ny) b)).
Proof.
  split; [by destruct o|].
  intros nx ny b Hx Hy Hb.
  destruct o; unfold min, min_nodes.
  - erewrite bind_run; [|by apply operator_neg_run].
    erewrite bind_run;
      [|apply operator_neg_run; cbn [nodes]; solve_lookup].
    unfold max at 1.
    erewrite bind_run;
      [|rewrite AddNode_BinaryOp_run; cbn [nodes inputs]; look; cbn [shape];
        rewrite Hb; reflexivity].
    erewrite operator_neg_run; [|cbn [nodes]; solve_lookup].
    cbn [nodes inputs shape]. rewrite ComputeStrides_canonical.
    rewrite !length_app, <- !app_assoc. simpl.
    rewrite <- !Nat.add_assoc. reflexivity.
  - erewrite bind_run; [|by apply operator_neg_run].
    erewrite bind_run;
      [|apply operator_neg_run; cbn [nodes]; solve_lookup].
    unfold max at 1.
    erewrite bind_run;
      [|rewrite AddNode_BinaryOp_run; cbn [nodes inputs]; look; cbn [shape];
        rewrite Hb; reflexivity].
    erewrite operator_neg_run; [|cbn [nodes]; solve_lookup].
    cbn [nodes inputs shape]. rewrite ComputeStrides_canonical.
    rewrite !length_app, <- !app_assoc. simpl.
    rewrite <- !Nat.add_assoc. reflexivity.
Qed.

Lemma min_is_hand_built_neg_max_neg_witness :
  let g := mkGraph [0; 1]%nat
             [mkNode Tensor [2; 1] [1; 0]; mkNode Tensor [3] [1]] in
  GetBroadcastedShape [2; 1] [3] = Ok [2; 3]
  ∧ min LeftToRight 0 1 g = hand_min 0 1 g
  ∧ min RightToLeft 0 1 g = hand_min_y_first 0 1 g
  ∧ min RightToLeft 0 1 g
    = ROk 8%nat
        (mkGraph [0; 1]%nat
           (nodes g ++ min_nodes RightToLeft 2 0 1 [2; 1] [3] [2; 3])).
Proof.
  intros g. split; [reflexivity|].
  split; [exact (proj1 (min_is_hand_built_neg_max_neg LeftToRight 0 1 g))|].
  destruct (min_is_hand_built_neg_max_neg RightToLeft 0 1 g) as [He H].
  split; [exact He|].
  exact (H _ _ [2; 3] eq_refl eq_refl eq_refl).
Defined.

(** C8 (as stated) fails where the two arguments of [max] are evaluated
    right to left: for [x] of shape [2,1] and [y] of shape [3], [min(x, y)]
    and the hand-build in source order both append seven nodes and return
    the seventh, but the nodes at offsets 1, 3 and 4 differ: the [MUL]
    nodes negate [y] and [x] in place of [x] and [y], and [MAX] has its
    operands at the exchanged indices. *)
Lemma min_right_to_left_differs_from_hand_build :
  let g := mkGraph [0; 1]%nat
             [mkNode Tensor [2; 1] [1; 0]; mkNode Tensor [3] [1]] in
  min RightToLeft 0 1 g ≠ hand_min 0 1 g
  ∧ ∃ g1 g2,
      min RightToLeft 0 1 g = ROk 8%nat g1
      ∧ hand_min 0 1 g = ROk 8%nat g2
      ∧ u <$> nodes g1 !! 3%nat = Some (BinaryOp MUL 2 1)
      ∧ u <$> nodes g2 !! 3%nat = Some (BinaryOp MUL 2 0)
      ∧ u <$> nodes g1 !! 5%nat = Some (BinaryOp MUL 4 0)
      ∧ u <$> nodes g2 !! 5%nat = Some (BinaryOp MUL 4 1)
      ∧ u <$> nodes g1 !! 6%nat = Some (BinaryOp MAX 5 3)
      ∧ u <$> nodes g2 !! 6%nat = Some (BinaryOp MAX 3 5).
Proof.
  intros g. split.
  - vm_compute. discriminate.
  - eexists _, _. split; [vm_compute; reflexivity|].
    split; [vm_compute; reflexivity|].
    repeat split; reflexivity.
Qed.

(** * Further properties of the shape algebra *)

Section ShapeAlgebra.

Lemma compatible_sym L S : Forall2 compatible L S → Forall2 compatible S L.
Proof.
  induction 1 as [|a c L S Hc _ IH]; constructor; [|done].
  unfold compatible in *. lia.
Qed.

Lemma zip_with_broadcast_dim_sym L S :
  Forall2 compatible L S →
  zip_with broadcast_dim L S = zip_with broadcast_dim S L.
Proof.
  induction 1 as [|a c L S Hc _ IH]; simpl; [done|]. rewrite IH. f_equal.
  unfold compatible, broadcast_dim in *.
  destruct (Z.eqb_spec a 1), (Z.eqb_spec c 1); lia.
Qed.

Lemma zip_with_broadcast_dim_absorb_1 L S :
  zip_with broadcast_dim L (zip_with broadcast_dim L S)
  = zip_with broadcast_dim L S.
Proof.
  revert S. induction L as [|a L IH]; intros [|c S]; simpl; [done..|].
  rewrite IH. f_equal. unfold broadcast_dim.
  destruct (Z.eqb_spec a 1); [done|]. by destruct (Z.eqb_spec a 1).
Qed.

Lemma zip_with_broadcast_dim_absorb_2 L S :
  zip_with broadcast_dim (zip_with broadcast_dim L S) S
  = zip_with broadcast_dim L S.
Proof.
  revert S. induction L as [|a L IH]; intros [|c S]; simpl; [done..|].
  rewrite IH. f_equal. unfold broadcast_dim.
  destruct (Z.eqb_spec a 1) as [->|Ha].
  - destruct (Z.eqb_spec c 1); lia.
  - by destruct (Z.eqb_spec a 1).
Qed.

Lemma zip_with_broadcast_dim_self (s : list Z) :
  zip_with broadcast_dim s s = s.
Proof.
  induction s as [|a s IH]; simpl; [done|]. rewrite IH. f_equal.
  unfold broadcast_dim. destruct (Z.eqb_spec a 1); lia.
Qed.

Lemma GetBroadcastedShape_comm (x y : list Z) :
  GetBroadcastedShape x y = GetBroadcastedShape y x.
Proof.
  rewrite !GetBroadcastedShape_spec. cbv zeta.
  destruct (Nat.ltb_spec (length y) (length x)) as [Hlt|Hge],
           (Nat.ltb_spec (length x) (length y)) as [Hlt'|Hge'];
    try lia; try done.
  replace (length y - length x)%nat with 0%nat by lia.
  replace (length x - length y)%nat with 0%nat by lia.
  rewrite !drop_0, !take_0. simpl.
  destruct (decide (Forall2 compatible y x)) as [Hc|Hc].
  - rewrite decide_True by by apply compatible_sym.
    by rewrite zip_with_broadcast_dim_sym.
  - rewrite decide_False; [done|]. intros H. by apply Hc, compatible_sym.
Qed.

Lemma GetBroadcastedShape_absorb_eq (xs ys b : list Z) :
  GetBroadcastedShape xs ys = Ok b → GetBroadcastedShape b xs = Ok b.
Proof.
  rewrite !GetBroadcastedShape_spec. cbv zeta.
  destruct (Nat.ltb_spec (length ys) (length xs)) as [Hlt|Hge].
  - case_decide as Hc; [|done]. intros [= <-].
    set (d := (length xs - length ys)%nat) in *.
    assert (Hlen : length (take d xs ++ zip_with broadcast_dim (drop d xs) ys)
                   = length xs).
    { rewrite length_app, length_take, length_zip_with, length_drop. lia. }
    rewrite Hlen, Nat.ltb_irrefl, Hlen, Nat.sub_diag, drop_0, take_0.
    assert (Hall : Forall2 compatible xs
              (take d xs ++ zip_with broadcast_dim (drop d xs) ys)).
    { rewrite <- (take_drop d xs) at 1.
      apply Forall2_app; [apply compatible_refl|].
      by apply compatible_zip_with_1. }
    rewrite decide_True by done. simpl. f_equal.
    rewrite <- (take_drop d xs) at 1.
    rewrite zip_with_app by done.
    by rewrite zip_with_broadcast_dim_self, zip_with_broadcast_dim_absorb_1.
  - case_decide as Hc; [|done]. intros [= <-].
    set (d := (length ys - length xs)%nat) in *.
    assert (Hlen : length (take d ys ++ zip_with broadcast_dim (drop d ys) xs)
                   = length ys).
    { rewrite length_app, length_take, length_zip_with, length_drop. lia. }
    rewrite Hlen.
    destruct (Nat.ltb_spec (length xs) (length ys)) as [Hlt|Hge'].
    + rewrite Hlen. fold d.
      rewrite drop_app_length', take_app_length' by (rewrite length_take; lia).
      rewrite decide_True by by apply compatible_zip_with_2.
      by rewrite zip_with_broadcast_dim_absorb_2.
    + assert (d = 0%nat) as Hd by lia.
      rewrite Hlen. replace (length xs - length ys)%nat with 0%nat by lia.
      rewrite Hd, ?drop_0, ?take_0 in *. simpl.
      rewrite decide_True by by apply compatible_zip_with_3.
      simpl. f_equal.
      rewrite (zip_with_broadcast_dim_sym ys xs) by done.
      apply zip_with_broadcast_dim_absorb_1.
Qed.

End ShapeAlgebra.

(** X1.  For a positive rank, [FixDim] is the floored modulo of the axis
    by the rank: an axis in [0, rank) is left as it is, and a negative axis
    in [-rank, 0) counts from the end. *)
Theorem FixDim_floored_modulo dim rank :
  0 < rank →
  FixDim dim rank = Ok (dim `mod` rank)
  ∧ (0 ≤ dim < rank → FixDim dim rank = Ok dim)
  ∧ (- rank ≤ dim < 0 → FixDim dim rank = Ok (dim + rank)).
Proof.
  intros Hr.
  assert (H : FixDim dim rank = Ok (dim `mod` rank)).
  { unfold FixDim. destruct (Z.eqb_spec rank 0); [lia|]. f_equal.
    pose proof (Z.rem_bound_abs dim rank ltac:(lia)).
    rewrite Z.rem_mod_nonneg by lia.
    replace (Z.rem dim rank + rank) with (dim + (1 - dim ÷ rank) * rank)
      by (pose proof (Z.quot_rem' dim rank); lia).
    apply Z_mod_plus_full. }
  split; [done|]. split; intros Hd; rewrite H; f_equal.
  - by apply Z.mod_small.
  - rewrite <- (Z_mod_plus_full dim 1 rank), Z.mul_1_l.
    apply Z.mod_small. lia.
Qed.

Lemma FixDim_floored_modulo_witness :
  0 < 3 ∧ FixDim (-5) 3 = Ok 1 ∧ FixDim (-2) 3 = Ok 1.
Proof.
  split; [lia|].
  split; [exact (proj1 (FixDim_floored_modulo (-5) 3 ltac:(lia)))|].
  exact (proj2 (proj2 (FixDim_floored_modulo (-2) 3 ltac:(lia))) ltac:(lia)).
Defined.

(** X2.  Broadcasting does not depend on the order of the two shapes:
    the outcome, result or error, is the same for [(x, y)] and [(y, x)]. *)
Theorem GetBroadcastedShape_commutative (x y : list Z) :
  GetBroadcastedShape x y = GetBroadcastedShape y x.
Proof. apply GetBroadcastedShape_comm. Qed.

(** X3.  The scalar shape is neutral for broadcasting, every shape
    broadcasts with itself to itself, and the broadcast of two shapes absorbs
    both of them: broadcasting it again with either operand gives it back. *)
Theorem GetBroadcastedShape_absorbs (x y b : list Z) :
  GetBroadcastedShape x y = Ok b →
  GetBroadcastedShape b x = Ok b ∧ GetBroadcastedShape b y = Ok b
  ∧ GetBroadcastedShape [] b = Ok b ∧ GetBroadcastedShape b [] = Ok b
  ∧ GetBroadcastedShape b b = Ok b.
Proof.
  intros Hb. split; [by apply GetBroadcastedShape_absorb_eq with y|].
  split; [|by rewrite GetBroadcastedShape_scalar_r, GetBroadcastedShape_self].
  rewrite GetBroadcastedShape_comm in Hb.
  by apply GetBroadcastedShape_absorb_eq with x.
Qed.

Lemma GetBroadcastedShape_absorbs_witness :
  GetBroadcastedShape [4; 1; 3] [5; 1] = Ok [4; 5; 3]
  ∧ GetBroadcastedShape [4; 5; 3] [5; 1] = Ok [4; 5; 3].
Proof.
  split; [reflexivity|].
  exact (proj1 (proj2 (GetBroadcastedShape_absorbs [4; 1; 3] [5; 1] [4; 5; 3]
                         eq_refl))).
Defined.

(** * Reduced shapes *)

Section ReducedShape.

Lemma marked_from_lookup dims sh : ∀ k i,
  marked_from k dims sh !! i
  = (λ d, if bool_decide (Z.of_nat (k + i) ∈ dims) then -1 else d)
      <$> sh !! i.
Proof.
  induction sh as [|d sh IH]; intros k i; [done|].
  destruct i as [|i]; simpl.
  - by rewrite Nat.add_0_r.
  - rewrite IH. by replace (S k + i)%nat with (k + S i)%nat by lia.
Qed.

Lemma mark_dims_marked dims : ∀ sh,
  Forall (λ d, 0 ≤ d < Z.of_nat (length sh)) dims →
  ∃ s, mark_dims dims sh = Ok s ∧ length s = length sh
       ∧ ∀ i, s !! i
              = (λ d, if bool_decide (Z.of_nat i ∈ dims) then -1 else d)
                  <$> sh !! i.
Proof.
  induction dims as [|d dims IH]; intros sh Hall; simpl.
  - exists sh. repeat split. intros i.
    by destruct (sh !! i).
  - inversion Hall as [|? ? Hd Hrest]; subst.
    destruct (Z.leb_spec 0 d); [|lia].
    destruct (Nat.ltb_spec (Z.to_nat d) (length sh)); [|lia]. simpl.
    destruct (IH (<[Z.to_nat d := -1]> sh)) as (s & Hs & Hlen & Hlk).
    { by rewrite length_insert. }
    exists s. rewrite length_insert in Hlen. repeat split; [done..|].
    intros i. rewrite Hlk.
    destruct (decide (i = Z.to_nat d)) as [->|Hne].
    + rewrite list_lookup_insert_eq by done.
      destruct (lookup_lt_is_Some_2 sh (Z.to_nat d) ltac:(lia)) as [v ->].
      simpl. rewrite (bool_decide_eq_true_2 (_ ∈ d :: dims)).
      * by destruct (bool_decide _).
      * apply elem_of_cons. left. lia.
    + rewrite list_lookup_insert_ne by done.
      destruct (sh !! i) as [v|]; [|done]. simpl. f_equal.
      rewrite (bool_decide_ext (Z.of_nat i ∈ dims) (Z.of_nat i ∈ d :: dims));
        [done|].
      rewrite elem_of_cons. split; [auto|].
      intros [Heq|?]; [|done]. exfalso. lia.
Qed.

Lemma mark_dims_marked_from dims sh :
  Forall (λ d, 0 ≤ d < Z.of_nat (length sh)) dims →
  mark_dims dims sh = Ok (marked_from 0 dims sh).
Proof.
  intros Hall. destruct (mark_dims_marked dims sh Hall) as (s & -> & _ & Hlk).
  f_equal. apply list_eq. intros i. by rewrite Hlk, marked_from_lookup.
Qed.

Lemma marked_from_keep dims sh : ∀ k,
  -1 ∉ sh →
  (λ d, if d =? -1 then 1 else d) <$> marked_from k dims sh
  = reduce_axes_from k dims true sh.
Proof.
  induction sh as [|d sh IH]; intros k Hn; [done|].
  apply not_elem_of_cons in Hn as [Hd Hn]. simpl.
  rewrite IH by done.
  destruct (bool_decide _); [done|].
  destruct (Z.eqb_spec d (-1)); [lia|done].
Qed.

Lemma marked_from_drop dims sh : ∀ k,
  -1 ∉ sh →
  filter (λ d, d ≠ -1) (marked_from k dims sh)
  = reduce_axes_from k dims false sh.
Proof.
  induction sh as [|d sh IH]; intros k Hn; [done|].
  apply not_elem_of_cons in Hn as [Hd Hn]. simpl.
  destruct (bool_decide _).
  - rewrite filter_cons_False by (intros H; by apply H). by apply IH.
  - rewrite filter_cons_True by lia. f_equal. by apply IH.
Qed.

Lemma ComputeReducedShape_closed sh dims keepdim :
  dims ≠ [] →
  Forall (λ d, 0 ≤ d < Z.of_nat (length sh)) dims →
  -1 ∉ sh →
  ComputeReducedShape sh dims keepdim
  = if (length sh <? length dims)%nat
    then Throw
      "Specified more dims to reduce on than there are dimensions in tensor"
    else Ok (reduce_axes_from 0 dims keepdim sh).
Proof.
  intros Hne Hall Hn. unfold ComputeReducedShape.
  destruct dims as [|d dims]; [done|].
  destruct (_ <? _)%nat; [done|].
  rewrite mark_dims_marked_from by done.
  destruct keepdim; simpl negb; cbv iota; f_equal.
  - by apply marked_from_keep.
  - by apply marked_from_drop.
Qed.

Lemma reduce_axes_from_ext dims dims' keepdim sh : ∀ k,
  (∀ d, d ∈ dims ↔ d ∈ dims') →
  reduce_axes_from k dims keepdim sh = reduce_axes_from k dims' keepdim sh.
Proof.
  induction sh as [|d sh IH]; intros k H; [done|]. simpl.
  rewrite (bool_decide_ext _ _ (H (Z.of_nat k))), (IH (S k) H). done.
Qed.

End ReducedShape.

(** X4.  For a non-empty list of in-range axes on a shape that holds no
    [-1], [ComputeReducedShape] throws when the list is longer than the
    shape (repeated axes count), and otherwise returns the shape with exactly
    the listed axes dropped, or set to 1 when the dimensions are kept; the
    other dimensions stay in order. *)
Theorem ComputeReducedShape_rule sh dims keepdim :
  dims ≠ [] →
  Forall (λ d, 0 ≤ d < Z.of_nat (length sh)) dims →
  -1 ∉ sh →
  ComputeReducedShape sh dims keepdim
  = if (length sh <? length dims)%nat
    then Throw
      "Specified more dims to reduce on than there are dimensions in tensor"
    else Ok (reduce_axes_from 0 dims keepdim sh).
Proof. apply ComputeReducedShape_closed. Qed.

Lemma ComputeReducedShape_rule_witness :
  ComputeReducedShape [2; 3; 4; 5] [1; 3; 1] false = Ok [2; 4]
  ∧ ComputeReducedShape [2; 3] [0; 0; 0] true
    = Throw
        "Specified more dims to reduce on than there are dimensions in tensor".
Proof.
  split.
  - apply (ComputeReducedShape_rule [2; 3; 4; 5] [1; 3; 1] false); [done| |].
    + repeat constructor; done.
    + intros H. repeat (apply elem_of_cons in H as [H|H]; [done|]).
      by apply not_elem_of_nil in H.
  - apply (ComputeReducedShape_rule [2; 3] [0; 0; 0] true); [done| |].
    + repeat constructor; done.
    + intros H. repeat (apply elem_of_cons in H as [H|H]; [done|]).
      by apply not_elem_of_nil in H.
Defined.

Section Reductions.

Lemma fix_dims_mod dims rank :
  0 < rank → fix_dims dims rank = Ok ((λ d, d `mod` rank) <$> dims).
Proof.
  intros Hr. induction dims as [|d dims IH]; simpl; [done|].
  rewrite IH. unfold FixDim at 1. destruct (Z.eqb_spec rank 0); [lia|].
  do 2 f_equal.
  pose proof (Z.rem_bound_abs d rank ltac:(lia)).
  rewrite Z.rem_mod_nonneg by lia.
  replace (Z.rem d rank + rank) with (d + (1 - d ÷ rank) * rank)
    by (pose proof (Z.quot_rem' d rank); lia).
  apply Z_mod_plus_full.
Qed.

Lemma elem_of_sort d dims : d ∈ sort dims ↔ d ∈ dims.
Proof. unfold sort. by rewrite merge_sort_Permutation. Qed.

Lemma Sorted_seqZ m n : Sorted Z.le (seqZ m n).
Proof.
  remember (Z.to_nat n) as k eqn:Hk. revert m n Hk.
  induction k as [|k IH]; intros m n Hk.
  - rewrite seqZ_nil by lia. constructor.
  - rewrite seqZ_cons by lia. constructor; [apply IH; lia|].
    destruct (Z.to_nat (Z.pred n)) eqn:Hp.
    + rewrite seqZ_nil by lia. constructor.
    + rewrite seqZ_cons by lia. constructor. lia.
Qed.

Lemma sort_iota n : sort (iota n) = iota n.
Proof.
  unfold sort, iota. apply (Sorted_unique Z.le).
  - apply (Sorted_merge_sort Z.le).
  - apply Sorted_seqZ.
  - apply merge_sort_Permutation.
Qed.

Lemma fix_dims_iota n : fix_dims (iota n) (Z.of_nat n) = Ok (iota n).
Proof.
  destruct n as [|n]; [done|].
  rewrite fix_dims_mod by lia. f_equal. unfold iota.
  apply list_eq. intros i. rewrite list_lookup_fmap.
  destruct (decide (i < S n)%nat).
  - rewrite lookup_seqZ_lt by lia. simpl. f_equal. apply Z.mod_small. lia.
  - by rewrite lookup_seqZ_ge by lia.
Qed.

Lemma mark_dims_iota (sh : list Z) :
  mark_dims (iota (length sh)) sh = Ok (replicate (length sh) (-1)).
Proof.
  destruct (mark_dims_marked (iota (length sh)) sh) as (s & -> & Hlen & Hlk).
  { apply Forall_forall. intros d Hd. unfold iota in Hd.
    apply elem_of_seqZ in Hd. lia. }
  f_equal. apply list_eq. intros i. rewrite Hlk.
  destruct (sh !! i) as [v|] eqn:Hi; simpl.
  - apply lookup_lt_Some in Hi. rewrite lookup_replicate_2 by done.
    rewrite bool_decide_eq_true_2; [done|].
    unfold iota. apply elem_of_seqZ. lia.
  - symmetry. apply lookup_replicate_None. by apply lookup_ge_None.
Qed.

Lemma ComputeReducedShape_iota (sh : list Z) keepdim :
  ComputeReducedShape sh (iota (length sh)) keepdim
  = Ok (if keepdim then replicate (length sh) 1 else []).
Proof.
  unfold ComputeReducedShape.
  destruct (iota (length sh)) as [|d ds] eqn:Hi; [by destruct keepdim|].
  assert (Hl : length (d :: ds) = length sh).
  { rewrite <- Hi. unfold iota. rewrite length_seqZ. lia. }
  rewrite Hl, Nat.ltb_irrefl, <- Hi, mark_dims_iota.
  destruct keepdim; simpl negb; cbv iota; f_equal.
  - generalize (length sh). intros n. induction n; simpl; [done|]. by f_equal.
  - generalize (length sh). intros n. induction n; simpl; [done|].
    by rewrite filter_cons_False by (intros H; by apply H).
Qed.

Lemma canonical_strides_ones n :
  canonical_strides (replicate n 1) = replicate n 0.
Proof. induction n; simpl; [done|]. by f_equal. Qed.

Lemma reduce_all_run x ty keepdim g nx :
  nodes g !! x = Some nx →
  let rank := length (shape nx) in
  WrapInReduction x ty (iota rank) keepdim g
  = ROk (length (nodes g))
      (mkGraph (inputs g)
         (nodes g ++
          [mkNode (ReduceOp ty x (iota rank) keepdim)
             (if keepdim then replicate rank 1 else [])
             (if keepdim then replicate rank 0 else [])])).
Proof.
  intros Hx rank. rewrite WrapInReduction_run, Hx. fold rank.
  rewrite fix_dims_iota, sort_iota. unfold rank.
  rewrite ComputeReducedShape_iota, ComputeStrides_canonical.
  destruct keepdim; [|done]. by rewrite canonical_strides_ones.
Qed.

End Reductions.

(** X5.  [sum] and [max] over a non-empty list of axes (these are
    [WrapInReduction] with kind SUM or MAX), on a valid handle whose shape is
    not scalar, holds no [-1] and has at least as many dimensions as the list
    has entries: the call appends one [ReduceOp] node that stores the axes
    modulo the rank, sorted, and whose shape is the input shape with exactly
    those axes dropped, or set to 1 when the dimensions are kept, with the
    canonical strides of that shape (products in [dim_t]). *)
Theorem reduce_over_axes x ty dims keepdim g nx :
  nodes g !! x = Some nx → dims ≠ [] → shape nx ≠ [] → -1 ∉ shape nx →
  (length dims ≤ length (shape nx))%nat →
  let axes := (λ d, d `mod` Z.of_nat (length (shape nx))) <$> dims in
  let sh := reduce_axes_from 0 axes keepdim (shape nx) in
  WrapInReduction x ty dims keepdim g
  = ROk (length (nodes g))
      (mkGraph (inputs g)
         (nodes g ++
          [mkNode (ReduceOp ty x (sort axes) keepdim) sh
             (canonical_strides sh)])).
Proof.
  intros Hx Hne Hsh Hn Hlen axes sh.
  assert (Hr : 0 < Z.of_nat (length (shape nx))).
  { destruct (shape nx); [done|simpl; lia]. }
  rewrite WrapInReduction_run, Hx, fix_dims_mod by done. fold axes.
  rewrite ComputeReducedShape_closed; [| | |done].
  - rewrite length_sort. unfold axes. rewrite length_fmap.
    destruct (Nat.ltb_spec (length (shape nx)) (length dims)); [lia|].
    rewrite (reduce_axes_from_ext (sort axes) axes)
      by (intros d; apply elem_of_sort).
    fold sh. by rewrite ComputeStrides_canonical.
  - intros H. apply (f_equal length) in H. rewrite length_sort in H.
    unfold axes in H. rewrite length_fmap in H. by destruct dims.
  - apply Forall_forall. intros d Hd. apply (proj1 (elem_of_sort _ _)) in Hd.
    unfold axes in Hd. apply list_elem_of_fmap in Hd as (d' & -> & _).
    by apply Z.mod_pos_bound.
Qed.

Lemma reduce_over_axes_witness :
  let g := mkGraph [0]%nat [mkNode Tensor [2; 3; 4] [12; 4; 1]] in
  let big := [2; 4294967296; 4294967296; 2; 0] in
  let g' := mkGraph [0]%nat [mkNode Tensor big [0; 0; 0; 0; 1]] in
  nodes g !! 0%nat = Some (mkNode Tensor [2; 3; 4] [12; 4; 1])
  ∧ GraphNodeHandle_max_dims 0 [-1; 0] true g
    = ROk 1%nat
        (mkGraph [0]%nat
           [mkNode Tensor [2; 3; 4] [12; 4; 1];
            mkNode (ReduceOp RMAX 0 [0; 2] true) [1; 3; 1] [0; 1; 0]])
  ∧ GraphNodeHandle_sum_dim 0 4 false g'
    = ROk 1%nat
        (mkGraph [0]%nat
           [mkNode Tensor big [0; 0; 0; 0; 1];
            mkNode (ReduceOp RSUM 0 [4] false)
              [2; 4294967296; 4294967296; 2] [0; 8589934592; 2; 1]]).
Proof.
  intros g big g'. split; [reflexivity|]. split.
  - refine (reduce_over_axes 0 RMAX [-1; 0] true g _ eq_refl _ _ _ _);
      [done|done| |simpl; lia].
    intros H. repeat (apply elem_of_cons in H as [H|H]; [done|]).
    by apply not_elem_of_nil in H.
  - refine (reduce_over_axes 0 RSUM [4] false g' _ eq_refl _ _ _ _);
      [done|done| |simpl; lia].
    intros H. repeat (apply elem_of_cons in H as [H|H]; [done|]).
    by apply not_elem_of_nil in H.
Defined.

(** X6.  [sum] and [max] without an axis argument never throw: on a
    valid handle they append one [ReduceOp] node over all the axes
    [0, ..., rank-1] of the input, of scalar shape, or of shape all ones
    (with strides all zero) when the dimensions are kept; this holds for
    every input shape, the scalar shape included. *)
Theorem reduce_all_axes x keepdim g nx :
  nodes g !! x = Some nx →
  let rank := length (shape nx) in
  let node ty :=
    mkNode (ReduceOp ty x (iota rank) keepdim)
      (if keepdim then replicate rank 1 else [])
      (if keepdim then replicate rank 0 else []) in
  GraphNodeHandle_sum x keepdim g
  = ROk (length (nodes g)) (mkGraph (inputs g) (nodes g ++ [node RSUM]))
  ∧ GraphNodeHandle_max x keepdim g
    = ROk (length (nodes g)) (mkGraph (inputs g) (nodes g ++ [node RMAX])).
Proof.
  intros Hx rank node.
  unfold GraphNodeHandle_sum, GraphNodeHandle_max, GraphNodeHandle_sum_dims,
    GraphNodeHandle_max_dims.
  rewrite !(bind_run _ _ _ _ _ (shape_run _ _ _ Hx)).
  by rewrite !(reduce_all_run _ _ _ _ _ Hx).
Qed.

Lemma reduce_all_axes_witness :
  let g := mkGraph [0]%nat [mkNode Tensor [2; -1; 4] [-4; 4; 1]] in
  nodes g !! 0%nat = Some (mkNode Tensor [2; -1; 4] [-4; 4; 1])
  ∧ GraphNodeHandle_sum 0 true g
    = ROk 1%nat
        (mkGraph [0]%nat
           [mkNode Tensor [2; -1; 4] [-4; 4; 1];
            mkNode (ReduceOp RSUM 0 [0; 1; 2] true) [1; 1; 1] [0; 0; 0]]).
Proof.
  intros g. split; [reflexivity|].
  exact (proj1 (reduce_all_axes 0 true g _ eq_refl)).
Defined.

(** * Reshape *)

Section Reshape.

Lemma foldl_mul_scale (l : list Z) a : foldl Z.mul a l = a * foldl Z.mul 1 l.
Proof.
  revert a. induction l as [|d l IH]; intros a; simpl; [lia|].
  rewrite (IH (a * d)), (IH (1 * d)). lia.
Qed.

Lemma foldl_skip_scale (l : list Z) a :
  foldl (λ x y, if y =? -1 then x else x * y) a l
  = a * foldl (λ x y, if y =? -1 then x else x * y) 1 l.
Proof.
  revert a. induction l as [|d l IH]; intros a; simpl; [lia|].
  destruct (d =? -1); [apply IH|].
  rewrite (IH (a * d)), (IH (1 * d)). lia.
Qed.

(** The products of [dim_t] are the products of [Z], wrapped. *)
Lemma foldl_dim_mul_wrap (l : list Z) a :
  wrap (foldl dim_mul a l) = wrap (a * foldl Z.mul 1 l).
Proof.
  revert a. induction l as [|d l IH]; intros a; simpl.
  - f_equal. lia.
  - rewrite IH. unfold dim_mul. rewrite wrap_mul_l.
    rewrite (foldl_mul_scale l (1 * d)). f_equal. lia.
Qed.

Lemma foldl_dim_mul_in_dim_t (l : list Z) a :
  in_dim_t a = true → in_dim_t (foldl dim_mul a l) = true.
Proof.
  revert a. induction l as [|d l IH]; intros a Ha; simpl; [done|].
  apply IH, dim_mul_in_dim_t.
Qed.

Lemma num_elements_of_in_dim_t sh : in_dim_t (num_elements_of sh) = true.
Proof. by apply foldl_dim_mul_in_dim_t. Qed.

Lemma num_elements_of_wrap sh :
  num_elements_of sh = wrap (foldl Z.mul 1 sh).
Proof.
  rewrite <- (wrap_id (num_elements_of sh))
    by apply num_elements_of_in_dim_t.
  unfold num_elements_of. rewrite foldl_dim_mul_wrap. f_equal. lia.
Qed.

Lemma foldl_skip_wrap (l : list Z) a :
  wrap (foldl (λ x y, if y =? -1 then x else dim_mul x y) a l)
  = wrap (a * foldl (λ x y, if y =? -1 then x else x * y) 1 l).
Proof.
  revert a. induction l as [|d l IH]; intros a; simpl.
  - f_equal. lia.
  - destruct (d =? -1); [apply IH|].
    rewrite IH. unfold dim_mul. rewrite wrap_mul_l.
    rewrite (foldl_skip_scale l (1 * d)). f_equal. lia.
Qed.

Lemma foldl_skip_in_dim_t (l : list Z) a :
  in_dim_t a = true →
  in_dim_t (foldl (λ x y, if y =? -1 then x else dim_mul x y) a l) = true.
Proof.
  revert a. induction l as [|d l IH]; intros a Ha; simpl; [done|].
  destruct (d =? -1); [by apply IH|]. apply IH, dim_mul_in_dim_t.
Qed.

Lemma num_elements_skipping_wrap sh :
  num_elements_skipping sh
  = wrap (foldl (λ x y, if y =? -1 then x else x * y) 1 sh).
Proof.
  rewrite <- (wrap_id (num_elements_skipping sh))
    by by apply foldl_skip_in_dim_t.
  unfold num_elements_skipping. rewrite foldl_skip_wrap. f_equal. lia.
Qed.

Lemma replace_none q (l : list Z) :
  filter (λ d, d = -1) l = [] → (λ x, if x =? -1 then q else x) <$> l = l.
Proof.
  induction l as [|d l IH]; [done|].
  destruct (decide (d = -1)) as [->|Hd].
  - by rewrite filter_cons_True.
  - rewrite filter_cons_False by done. intros H.
    rewrite fmap_cons, IH by done. by destruct (Z.eqb_spec d (-1)).
Qed.

Lemma skip_none (l : list Z) :
  filter (λ d, d = -1) l = [] →
  foldl (λ x y, if y =? -1 then x else x * y) 1 l = foldl Z.mul 1 l.
Proof.
  induction l as [|d l IH]; [done|].
  destruct (decide (d = -1)) as [->|Hd].
  - by rewrite filter_cons_True.
  - rewrite filter_cons_False by done. intros H. simpl.
    destruct (Z.eqb_spec d (-1)); [done|].
    by rewrite foldl_skip_scale, foldl_mul_scale, IH.
Qed.

Lemma replace_one_product q (l : list Z) :
  length (filter (λ d, d = -1) l) = 1%nat →
  foldl Z.mul 1 ((λ x, if x =? -1 then q else x) <$> l)
  = q * foldl (λ x y, if y =? -1 then x else x * y) 1 l.
Proof.
  induction l as [|d l IH]; [done|].
  destruct (decide (d = -1)) as [->|Hd].
  - rewrite filter_cons_True by done. intros [= Hl].
    apply length_zero_iff_nil in Hl.
    rewrite fmap_cons, replace_none by done. cbn [foldl]. simpl (_ =? _).
    cbv iota. rewrite skip_none by done.
    rewrite foldl_mul_scale. lia.
  - rewrite filter_cons_False by done. intros Hl.
    rewrite fmap_cons. cbn [foldl].
    destruct (Z.eqb_spec d (-1)); [done|].
    rewrite foldl_mul_scale, IH, (foldl_skip_scale l (1 * d)) by done. lia.
Qed.

(** With the placeholder replaced by the exact quotient, the new shape has
    the number of elements of the input. *)
Lemma replace_one_num_elements n (l : list Z) :
  length (filter (λ d, d = -1) l) = 1%nat →
  in_dim_t n = true →
  Z.rem n (num_elements_skipping l) = 0 →
  num_elements_of
    ((λ x, if x =? -1 then n ÷ num_elements_skipping l else x) <$> l) = n.
Proof.
  intros Hl Hn Hrem.
  rewrite num_elements_of_wrap, replace_one_product by done.
  rewrite <- wrap_mul_r, <- num_elements_skipping_wrap.
  pose proof (Z.quot_rem' n (num_elements_skipping l)) as Hq.
  rewrite Hrem, Z.add_0_r, Z.mul_comm in Hq. rewrite <- Hq.
  by apply wrap_id.
Qed.

Lemma reshape_explicit_outcome x ns g nx :
  nodes g !! x = Some nx →
  filter (λ d, d = -1) ns = [] →
  GraphNodeHandle_reshape x ns g
  = if num_elements_of ns =? num_elements_of (shape nx)
    then ROk (length (nodes g))
           (mkGraph (inputs g)
              (nodes g ++ [mkNode (ViewOp x) ns (canonical_strides ns)]))
    else RThrow
           "Reshape number of elements doesn't match that of input tensor" g.
Proof.
  intros Hx Hf. unfold GraphNodeHandle_reshape.
  rewrite (bind_run _ _ _ _ _ (shape_run _ _ _ Hx)). cbv zeta.
  rewrite Hf. simpl. rewrite ComputeStrides_canonical.
  by destruct (_ =? _).
Qed.

End Reshape.

(** X7.  [reshape] to a shape without placeholder, on a valid handle,
    either appends one view of exactly that shape, with canonical strides,
    when the new shape has as many elements as the input (the two counts
    are products in [dim_t]), or throws and leaves the graph as it was; it
    is never undefined. *)
Theorem reshape_explicit_checks_elements x ns g nx :
  nodes g !! x = Some nx →
  filter (λ d, d = -1) ns = [] →
  reshape x ns g
  = if num_elements_of ns =? num_elements_of (shape nx)
    then ROk (length (nodes g))
           (mkGraph (inputs g)
              (nodes g ++ [mkNode (ViewOp x) ns (canonical_strides ns)]))
    else RThrow
           "Reshape number of elements doesn't match that of input tensor" g.
Proof. apply reshape_explicit_outcome. Qed.

Lemma reshape_explicit_checks_elements_witness :
  let g := mkGraph [0]%nat [mkNode Tensor [2; 3; 4] [12; 4; 1]] in
  let g' := mkGraph [0]%nat [mkNode Tensor [0] [1]] in
  nodes g !! 0%nat = Some (mkNode Tensor [2; 3; 4] [12; 4; 1])
  ∧ reshape 0 [6; 1; 4] g
    = ROk 1%nat
        (mkGraph [0]%nat
           [mkNode Tensor [2; 3; 4] [12; 4; 1];
            mkNode (ViewOp 0) [6; 1; 4] [4; 0; 1]])
  ∧ reshape 0 [4294967296; 4294967296] g'
    = ROk 1%nat
        (mkGraph [0]%nat
           [mkNode Tensor [0] [1];
            mkNode (ViewOp 0) [4294967296; 4294967296] [4294967296; 1]]).
Proof.
  intros g g'. split; [reflexivity|]. split.
  - exact (reshape_explicit_checks_elements 0 [6; 1; 4] g _ eq_refl eq_refl).
  - exact (reshape_explicit_checks_elements
             0 [4294967296; 4294967296] g' _ eq_refl eq_refl).
Defined.

(** X8.  [reshape] with exactly one placeholder [-1], on a valid handle:
    when the product [p] of the other requested dimensions, as [dim_t]
    holds it, is not zero and divides the number [n] of elements of the
    input, as [dim_t] holds it (and the quotient is not that of the least
    [dim_t] by [-1]), the call appends one view whose shape is the
    requested one with the placeholder replaced by [n / p], and that shape
    has exactly [n] elements. *)
Theorem reshape_implicit_exact x ns g nx :
  nodes g !! x = Some nx →
  length (filter (λ d, d = -1) ns) = 1%nat →
  let n := num_elements_of (shape nx) in
  let p := num_elements_skipping ns in
  p ≠ 0 → Z.rem n p = 0 → ¬ (n = dim_t_min ∧ p = -1) →
  let s := (λ d, if d =? -1 then n ÷ p else d) <$> ns in
  reshape x ns g
  = ROk (length (nodes g))
      (mkGraph (inputs g)
         (nodes g ++ [mkNode (ViewOp x) s (canonical_strides s)]))
  ∧ num_elements_of s = n.
Proof.
  intros Hx Hc n p Hp Hrem Hmin s. split.
  - unfold reshape, GraphNodeHandle_reshape.
    rewrite (bind_run _ _ _ _ _ (shape_run _ _ _ Hx)). cbv zeta.
    rewrite Hc. simpl. fold p. fold n.
    destruct (Z.eqb_spec p 0); [done|].
    destruct (Z.eqb_spec n dim_t_min), (Z.eqb_spec p (-1));
      simpl; try (exfalso; by apply Hmin); fold s;
      by rewrite ComputeStrides_canonical.
  - apply replace_one_num_elements; [done| |done].
    apply num_elements_of_in_dim_t.
Qed.

Lemma reshape_implicit_exact_witness :
  let g := mkGraph [0]%nat [mkNode Tensor [2; 3; 4] [12; 4; 1]] in
  nodes g !! 0%nat = Some (mkNode Tensor [2; 3; 4] [12; 4; 1])
  ∧ reshape 0 [-1; 4] g
    = ROk 1%nat
        (mkGraph [0]%nat
           [mkNode Tensor [2; 3; 4] [12; 4; 1];
            mkNode (ViewOp 0) [6; 4] [4; 1]])
  ∧ num_elements_of [6; 4] = 24.
Proof.
  intros g. split; [reflexivity|].
  apply (reshape_implicit_exact 0 [-1; 4] g _ eq_refl eq_refl).
  - vm_compute. discriminate.
  - reflexivity.
  - vm_compute. intros [H _]. discriminate H.
Defined.

(** X9.  Reshaping and reshaping back: for a valid handle whose shape
    holds no [-1], and a target shape without placeholder that has as many
    elements (the two counts are products in [dim_t]), [reshape] followed
    by [reshape] to the original shape appends two views, the second of
    which has the shape and the strides of a canonical node of the original
    shape. *)
Theorem reshape_round_trip x ns g nx :
  nodes g !! x = Some nx →
  filter (λ d, d = -1) ns = [] →
  filter (λ d, d = -1) (shape nx) = [] →
  num_elements_of ns = num_elements_of (shape nx) →
  (v <- reshape x ns ;; reshape v (shape nx)) g
  = ROk (length (nodes g) + 1)%nat
      (mkGraph (inputs g)
         (nodes g ++
          [mkNode (ViewOp x) ns (canonical_strides ns);
           mkNode (ViewOp (length (nodes g))) (shape nx)
             (canonical_strides (shape nx))])).
Proof.
  intros Hx Hns Hsh He.
  erewrite bind_run;
    [|unfold reshape; rewrite (reshape_explicit_outcome x ns g nx Hx Hns);
      rewrite He, Z.eqb_refl; reflexivity].
  unfold reshape. erewrite reshape_explicit_outcome;
    [|cbn [nodes]; apply lookup_last|done].
  cbn [nodes inputs shape]. rewrite He, Z.eqb_refl.
  by rewrite length_app, <- app_assoc.
Qed.

Lemma reshape_round_trip_witness :
  let g := mkGraph [0]%nat [mkNode Tensor [2; 3; 4] [12; 4; 1]] in
  let big := [2; 4294967296; 4294967296; 2] in
  let g' := mkGraph [0]%nat [mkNode Tensor big [0; 8589934592; 2; 1]] in
  nodes g !! 0%nat = Some (mkNode Tensor [2; 3; 4] [12; 4; 1])
  ∧ (v <- reshape 0 [24] ;; reshape v [2; 3; 4]) g
    = ROk 2%nat
        (mkGraph [0]%nat
           [mkNode Tensor [2; 3; 4] [12; 4; 1];
            mkNode (ViewOp 0) [24] [1];
            mkNode (ViewOp 1) [2; 3; 4] [12; 4; 1]])
  ∧ (v <- reshape 0 [8589934592; 8589934592] ;; reshape v big) g'
    = ROk 2%nat
        (mkGraph [0]%nat
           [mkNode Tensor big [0; 8589934592; 2; 1];
            mkNode (ViewOp 0) [8589934592; 8589934592] [8589934592; 1];
            mkNode (ViewOp 1) big [0; 8589934592; 2; 1]]).
Proof.
  intros g big g'. split; [reflexivity|]. split.
  - exact (reshape_round_trip 0 [24] g _ eq_refl eq_refl eq_refl eq_refl).
  - exact (reshape_round_trip 0 [8589934592; 8589934592] g' _
             eq_refl eq_refl eq_refl eq_refl).
Defined.

(** * Permute and transpose *)

Section Permute.

Lemma FixDim_mod d rank : 0 < rank → FixDim d rank = Ok (d `mod` rank).
Proof.
  intros Hr. pose proof (fix_dims_mod [d] rank Hr) as H. simpl in H.
  by destruct (FixDim d rank); simplify_eq.
Qed.

Lemma scatter_cons f fs s ss init :
  scatter (f :: fs) (s :: ss) init = scatter fs ss (<[f := s]> init).
Proof. reflexivity. Qed.

Lemma scatter_length fixed : ∀ sh init,
  length (scatter fixed sh init) = length init.
Proof.
  induction fixed as [|f fs IH]; intros [|s ss] init; try done.
  by rewrite scatter_cons, IH, length_insert.
Qed.

Lemma scatter_notin fixed : ∀ sh init f,
  f ∉ fixed → scatter fixed sh init !! f = init !! f.
Proof.
  induction fixed as [|a fs IH]; intros [|s ss] init f Hf; try done.
  apply not_elem_of_cons in Hf as [Hne Hf].
  by rewrite scatter_cons, IH, list_lookup_insert_ne.
Qed.

Lemma scatter_lookup fixed : ∀ sh init j fj,
  NoDup fixed → length fixed = length sh →
  fixed !! j = Some fj → (fj < length init)%nat →
  scatter fixed sh init !! fj = sh !! j.
Proof.
  induction fixed as [|a fs IH]; intros [|s ss] init j fj Hnd Hlen Hj Hfj;
    try done.
  apply NoDup_cons in Hnd as [Ha Hnd]. rewrite scatter_cons.
  destruct j as [|j]; simpl in *.
  - injection Hj as ->. rewrite scatter_notin by done.
    by rewrite list_lookup_insert_eq.
  - apply IH; [done|lia|done|by rewrite length_insert].
Qed.

Lemma permute_loop_spec dims (shape : list Z) :
  let rank := length shape in
  let fixed := fixed_axes dims rank in
  length dims = rank →
  ∀ n i uniq ns,
    (i + n = rank)%nat → length uniq = rank →
    (∀ k, (k < rank)%nat →
          uniq !! k = Some (bool_decide (k ∈ take i fixed))) →
    NoDup (take i fixed) →
    permute_loop n i dims shape uniq ns
    = if decide (NoDup fixed)
      then Ok (scatter (drop i fixed) (drop i shape) ns)
      else Throw "Found repeated dim in permute".
Proof.
  intros rank fixed Hdims.
  assert (Hflen : length fixed = rank)
    by (unfold fixed, fixed_axes; by rewrite length_fmap).
  induction n as [|n IH]; intros i uniq ns Hin Hu Hlk Hnd.
  - rewrite Nat.add_0_r in Hin. subst i. simpl.
    rewrite take_ge in Hnd by lia. rewrite decide_True by done.
    by rewrite drop_ge by lia.
  - assert (Hi : (i < rank)%nat) by lia.
    destruct (lookup_lt_is_Some_2 dims i ltac:(lia)) as [dim Hdim].
    destruct (lookup_lt_is_Some_2 shape i Hi) as [sv Hsv].
    simpl. rewrite Hdim, Hsv. fold rank.
    rewrite FixDim_mod by lia.
    set (fi := Z.to_nat (dim `mod` Z.of_nat rank)).
    assert (Hfi : (fi < rank)%nat).
    { pose proof (Z.mod_pos_bound dim (Z.of_nat rank) ltac:(lia)).
      unfold fi. lia. }
    assert (Hfixed : fixed !! i = Some fi).
    { unfold fixed, fixed_axes. by rewrite list_lookup_fmap, Hdim. }
    rewrite (Hlk fi Hfi).
    destruct (bool_decide (fi ∈ take i fixed)) eqn:Hb.
    + apply bool_decide_eq_true_1 in Hb.
      rewrite decide_False; [done|]. intros Hall.
      rewrite <- (take_drop_middle fixed i fi Hfixed) in Hall.
      apply NoDup_app in Hall as (_ & Hno & _).
      apply (Hno fi Hb). by left.
    + apply bool_decide_eq_false_1 in Hb.
      rewrite (IH (S i)); [| lia | by rewrite length_insert | |].
      * rewrite (drop_S fixed fi i Hfixed), (drop_S shape sv i Hsv).
        by rewrite scatter_cons.
      * intros k Hk. rewrite (take_S_r fixed i fi Hfixed).
        destruct (decide (k = fi)) as [->|Hne].
        -- rewrite list_lookup_insert_eq by lia.
           rewrite bool_decide_eq_true_2; [done|].
           apply elem_of_app. right. by left.
        -- rewrite list_lookup_insert_ne by done. rewrite (Hlk k Hk).
           f_equal. apply bool_decide_ext. rewrite elem_of_app.
           split; [auto|]. intros [?|H]; [done|].
           by apply list_elem_of_singleton in H.
      * rewrite (take_S_r fixed i fi Hfixed). apply NoDup_app.
        split; [done|]. split; [|apply NoDup_singleton].
        intros k Hk Hk'. apply list_elem_of_singleton in Hk'. by subst.
Qed.

Lemma permute_outcome x dims g nx :
  nodes g !! x = Some nx →
  let rank := length (shape nx) in
  let fixed := fixed_axes dims rank in
  let s := scatter fixed (shape nx) (replicate rank 0) in
  GraphNodeHandle_permute x dims g
  = if negb (length dims =? rank)%nat then
      RThrow "Permute not given proper number of dimensions" g
    else if decide (NoDup fixed) then
      ROk (length (nodes g))
        (mkGraph (inputs g)
           (nodes g ++ [mkNode (ViewOp x) s (canonical_strides s)]))
    else RThrow "Found repeated dim in permute" g.
Proof.
  intros Hx rank fixed s. unfold GraphNodeHandle_permute.
  rewrite (bind_run _ _ _ _ _ (shape_run _ _ _ Hx)). fold rank.
  destruct (Nat.eqb_spec (length dims) rank) as [Hl|Hl]; [|done]. simpl.
  pose proof (permute_loop_spec dims (shape nx) Hl rank 0%nat
                (replicate rank false) (replicate rank 0)) as Hloop.
  cbv zeta in Hloop. fold rank fixed in Hloop.
  rewrite take_0, !drop_0 in Hloop.
  unfold bind, lift. rewrite Hloop; [| lia | by rewrite length_replicate
                                     | | apply NoDup_nil_2].
  - fold s. destruct (decide (NoDup fixed)); [|done].
    unfold ret, AddNode_ViewOp, AddNode. by rewrite ComputeStrides_canonical.
  - intros k Hk. rewrite lookup_replicate_2 by done.
    by rewrite bool_decide_eq_false_2 by apply not_elem_of_nil.
Qed.

Lemma NoDup_reverse_seq n : NoDup (reverse (seq 0 n)).
Proof. rewrite reverse_Permutation. apply NoDup_seq. Qed.

Lemma fixed_axes_reverse_iota rank :
  fixed_axes (reverse (iota rank)) rank = reverse (seq 0 rank).
Proof.
  unfold fixed_axes, iota. rewrite fmap_reverse. f_equal.
  apply list_eq. intros i. rewrite list_lookup_fmap.
  destruct (decide (i < rank)%nat).
  - rewrite lookup_seqZ_lt, lookup_seq_lt by lia. simpl. f_equal.
    rewrite Z.mod_small by lia. lia.
  - by rewrite lookup_seqZ_ge, lookup_seq_ge by lia.
Qed.

Lemma scatter_reverse (sh : list Z) :
  scatter (reverse (seq 0 (length sh))) sh (replicate (length sh) 0)
  = reverse sh.
Proof.
  apply list_eq. intros k.
  destruct (decide (k < length sh)%nat) as [Hk|Hk].
  - rewrite reverse_lookup by done.
    replace (length sh - S k)%nat with (length sh - 1 - k)%nat by lia.
    apply scatter_lookup.
    + apply NoDup_reverse_seq.
    + by rewrite length_reverse, length_seq.
    + rewrite reverse_lookup by (rewrite length_seq; lia).
      rewrite length_seq, lookup_seq_lt by lia. f_equal. lia.
    + by rewrite length_replicate.
  - rewrite !lookup_ge_None_2; [done|rewrite length_reverse; lia|].
    rewrite scatter_length, length_replicate. lia.
Qed.

Lemma transpose_run x g nx :
  nodes g !! x = Some nx →
  GraphNodeHandle_transpose x g
  = ROk (length (nodes g))
      (mkGraph (inputs g)
         (nodes g ++ [mkNode (ViewOp x) (reverse (shape nx))
                        (canonical_strides (reverse (shape nx)))])).
Proof.
  intros Hx. unfold GraphNodeHandle_transpose.
  rewrite (bind_run _ _ _ _ _ (shape_run _ _ _ Hx)).
  rewrite (permute_outcome _ _ _ _ Hx). cbv zeta.
  unfold iota at 1. rewrite length_reverse, length_seqZ, Nat2Z.id, Nat.eqb_refl.
  simpl negb. cbv iota.
  rewrite fixed_axes_reverse_iota.
  rewrite decide_True by apply NoDup_reverse_seq.
  by rewrite scatter_reverse.
Qed.

End Permute.

(** X10.  [permute] on a valid handle: it throws, leaving the graph as it
    was, when the axis list has not the rank of the input or when two axes
    are the same modulo the rank; otherwise it appends one view, with
    canonical strides (products in [dim_t]), in whose shape the size of
    input axis [j] stands at position [dims[j]] modulo the rank.  It is
    never undefined. *)
Theorem permute_scatters x dims g nx :
  nodes g !! x = Some nx →
  let rank := length (shape nx) in
  let fixed := fixed_axes dims rank in
  let s := scatter fixed (shape nx) (replicate rank 0) in
  permute x dims g
  = (if negb (length dims =? rank)%nat then
       RThrow "Permute not given proper number of dimensions" g
     else if decide (NoDup fixed) then
       ROk (length (nodes g))
         (mkGraph (inputs g)
            (nodes g ++ [mkNode (ViewOp x) s (canonical_strides s)]))
     else RThrow "Found repeated dim in permute" g)
  ∧ (length dims = rank → NoDup fixed →
     length s = rank
     ∧ ∀ j fj, fixed !! j = Some fj → s !! fj = shape nx !! j).
Proof.
  intros Hx rank fixed s. split; [by apply permute_outcome|].
  intros Hl Hnd. split; [unfold s; by rewrite scatter_length, length_replicate|].
  intros j fj Hj. apply scatter_lookup; [done| |done|].
  - unfold fixed, fixed_axes. by rewrite length_fmap.
  - rewrite length_replicate. unfold fixed, fixed_axes in Hj.
    rewrite list_lookup_fmap in Hj.
    destruct (dims !! j) as [d|] eqn:Hd; [|done]. injection Hj as <-.
    apply lookup_lt_Some in Hd.
    pose proof (Z.mod_pos_bound d (Z.of_nat rank) ltac:(lia)). lia.
Qed.

Lemma permute_scatters_witness :
  let g := mkGraph [0]%nat [mkNode Tensor [2; 3; 4] [12; 4; 1]] in
  let g' := mkGraph [0]%nat
              [mkNode Tensor [4294967296; 4294967296; 0] [0; 0; 1]] in
  nodes g !! 0%nat = Some (mkNode Tensor [2; 3; 4] [12; 4; 1])
  ∧ permute 0 [1; -1; 3] g
    = ROk 1%nat
        (mkGraph [0]%nat
           [mkNode Tensor [2; 3; 4] [12; 4; 1];
            mkNode (ViewOp 0) [4; 2; 3] [6; 3; 1]])
  ∧ permute 0 [1; -2; 4] g = RThrow "Found repeated dim in permute" g
  ∧ permute 0 [1; 2; 0] g'
    = ROk 1%nat
        (mkGraph [0]%nat
           [mkNode Tensor [4294967296; 4294967296; 0] [0; 0; 1];
            mkNode (ViewOp 0) [0; 4294967296; 4294967296]
              [0; 4294967296; 1]]).
Proof.
  intros g g'. split; [reflexivity|].
  split; [|split].
  - exact (proj1 (permute_scatters 0 [1; -1; 3] g _ eq_refl)).
  - exact (proj1 (permute_scatters 0 [1; -2; 4] g _ eq_refl)).
  - exact (proj1 (permute_scatters 0 [1; 2; 0] g' _ eq_refl)).
Defined.

(** X11.  [transpose] never throws: on every valid handle it appends one
    view whose shape is the input shape reversed, with canonical strides
    (products in [dim_t]); transposing twice gives a view of the original
    shape again. *)
Theorem transpose_reverses x g nx :
  nodes g !! x = Some nx →
  let view h sh := mkNode (ViewOp h) sh (canonical_strides sh) in
  transpose x g
  = ROk (length (nodes g))
      (mkGraph (inputs g) (nodes g ++ [view x (reverse (shape nx))]))
  ∧ (t <- transpose x ;; transpose t) g
    = ROk (length (nodes g) + 1)%nat
        (mkGraph (inputs g)
           (nodes g ++ [view x (reverse (shape nx));
                        view (length (nodes g)) (shape nx)])).
Proof.
  intros Hx view. unfold transpose.
  split; [by apply transpose_run|].
  erewrite bind_run; [|by apply transpose_run].
  erewrite transpose_run; [|cbn [nodes]; apply lookup_last].
  cbn [nodes inputs shape]. rewrite reverse_involutive.
  by rewrite length_app, <- app_assoc.
Qed.

Lemma transpose_reverses_witness :
  let g := mkGraph [0]%nat [mkNode Tensor [2; 3; 4] [12; 4; 1]] in
  let g' := mkGraph [0]%nat
              [mkNode Tensor [4294967296; 4294967296; 0] [0; 0; 1]] in
  nodes g !! 0%nat = Some (mkNode Tensor [2; 3; 4] [12; 4; 1])
  ∧ transpose 0 g
    = ROk 1%nat
        (mkGraph [0]%nat
           [mkNode Tensor [2; 3; 4] [12; 4; 1];
            mkNode (ViewOp 0) [4; 3; 2] [6; 2; 1]])
  ∧ transpose 0 g'
    = ROk 1%nat
        (mkGraph [0]%nat
           [mkNode Tensor [4294967296; 4294967296; 0] [0; 0; 1];
            mkNode (ViewOp 0) [0; 4294967296; 4294967296]
              [0; 4294967296; 1]]).
Proof.
  intros g g'. split; [reflexivity|]. split.
  - exact (proj1 (transpose_reverses 0 g _ eq_refl)).
  - exact (proj1 (transpose_reverses 0 g' _ eq_refl)).
Defined.

(** * Matrix multiplication *)

Section Matmul.

Lemma filter_placeholder_nil (l : list Z) :
  Forall (λ d, d ≠ -1) l → filter (λ d, d = -1) l = [].
Proof.
  induction 1 as [|d l Hd _ IH]; [done|]. by rewrite filter_cons_False.
Qed.

Lemma GetBroadcastedShape_matmul a b c :
  GetBroadcastedShape [a; b; 1] [1; b; c] = Ok [a; b; c].
Proof.
  rewrite GetBroadcastedShape_spec. simpl.
  rewrite decide_True.
  - unfold broadcast_dim. rewrite Z.eqb_refl.
    destruct (Z.eqb_spec b 1), (Z.eqb_spec c 1); by subst.
  - repeat constructor; unfold compatible; lia.
Qed.

Lemma ComputeReducedShape_middle a b c :
  a ≠ -1 → c ≠ -1 → ComputeReducedShape [a; b; c] [1] false = Ok [a; c].
Proof.
  intros Ha Hc. unfold ComputeReducedShape. simpl. f_equal.
  rewrite filter_cons_True by done. rewrite filter_cons_False by (by intros H).
  by rewrite filter_cons_True by done.
Qed.

End Matmul.

(** X12.  [matmul] of two matrices: for valid handles of shapes [a,b] and
    [b,c], none of the three sizes being [-1], the call succeeds and appends
    exactly four nodes: the views of shape [a,b,1] and [1,b,c], their
    broadcast product of shape [a,b,c], and the sum over its middle axis,
    of shape [a,c], which is the node returned. *)
Theorem matmul_matrix_matrix x y g nx ny a b c :
  nodes g !! x = Some nx → shape nx = [a; b] →
  nodes g !! y = Some ny → shape ny = [b; c] →
  a ≠ -1 → b ≠ -1 → c ≠ -1 →
  let n := length (nodes g) in
  let node v sh := mkNode v sh (canonical_strides sh) in
  matmul x y g
  = ROk (n + 3)%nat
      (mkGraph (inputs g)
         (nodes g ++
          [node (ViewOp x) [a; b; 1];
           node (ViewOp y) [1; b; c];
           node (BinaryOp MUL n (n + 1)) [a; b; c];
           node (ReduceOp RSUM (n + 2) [1] false) [a; c]])).
Proof.
  intros Hx Hsx Hy Hsy Ha Hb Hc n node. unfold matmul, GraphNodeHandle_matmul.
  rewrite (bind_run _ _ _ _ _ (shape_run _ _ _ Hx)).
  rewrite (bind_run _ _ _ _ _ (shape_run _ _ _ Hy)).
  rewrite Hsx, Hsy.
  cbn -[GraphNodeHandle_reshape operator_mul GraphNodeHandle_sum_dim Z.eqb].
  rewrite Z.eqb_refl. cbn [negb].
  erewrite bind_run;
    [|apply (reshape_explicit_run x [a; b; 1] g nx Hx);
      [apply filter_placeholder_nil; repeat constructor; done
      |rewrite Hsx; unfold num_elements_of; cbn [foldl];
       apply dim_mul_1_r, dim_mul_in_dim_t]].
  erewrite bind_run;
    [|apply (reshape_explicit_run y [1; b; c] _ ny);
      [cbn [nodes]; solve_lookup
      |apply filter_placeholder_nil; repeat constructor; done
      |rewrite Hsy; unfold num_elements_of; cbn [foldl];
       by change (dim_mul 1 1) with 1]].
  cbn [nodes inputs]. unfold operator_mul.
  erewrite bind_run;
    [|rewrite AddNode_BinaryOp_run; cbn [nodes]; look; cbn [shape];
      rewrite GetBroadcastedShape_matmul; reflexivity].
  cbn [nodes inputs].
  unfold GraphNodeHandle_sum_dim, GraphNodeHandle_sum_dims.
  rewrite WrapInReduction_run. cbn [nodes]. look. cbn [shape].
  change (fix_dims [-2] (Z.of_nat (length [a; b; c]))) with (Ok [1]).
  cbv beta iota. change (sort [1]) with [1].
  rewrite ComputeReducedShape_middle by done.
  cbn [inputs nodes]. rewrite !ComputeStrides_canonical.
  rewrite !length_app, <- !app_assoc. simpl.
  rewrite <- !Nat.add_assoc. reflexivity.
Qed.

Lemma matmul_matrix_matrix_witness :
  let g := mkGraph [0; 1]%nat
             [mkNode Tensor [5; 3] [3; 1]; mkNode Tensor [3; 7] [7; 1]] in
  (nodes g !! 0%nat = Some (mkNode Tensor [5; 3] [3; 1])
   ∧ nodes g !! 1%nat = Some (mkNode Tensor [3; 7] [7; 1]))
  ∧ ∃ g', matmul 0 1 g = ROk 5%nat g'
          ∧ shape <$> nodes g' !! 5%nat = Some [5; 7].
Proof.
  intros g. split; [split; reflexivity|].
  eexists. split;
    [exact (matmul_matrix_matrix 0 1 g _ _ 5 3 7 eq_refl eq_refl eq_refl
              eq_refl ltac:(done) ltac:(done) ltac:(done))
    |reflexivity].
Defined.

(** X13.  The two validations of [matmul] happen before anything is
    appended: on valid handles, a scalar operand, or a last dimension of
    [x] (a vector counts as a row) that differs from the second-to-last
    dimension of [y] (a vector counts as a column), makes the call throw
    with the graph exactly as it was. *)
Theorem matmul_validates_first x y g nx ny :
  nodes g !! x = Some nx → nodes g !! y = Some ny →
  let xs := if (length (shape nx) =? 1)%nat then 1 :: shape nx else shape nx in
  let ys := if (length (shape ny) =? 1)%nat then shape ny ++ [1] else shape ny in
  ((shape nx = [] ∨ shape ny = []) →
   matmul x y g = RThrow "Shapes must be at least of size 2 for matmul" g)
  ∧ (∀ inner_x inner_y,
       shape nx ≠ [] → shape ny ≠ [] →
       last xs = Some inner_x → ys !! (length ys - 2)%nat = Some inner_y →
       inner_x ≠ inner_y →
       matmul x y g = RThrow "Incompatible shapes in matmul" g).
Proof.
  intros Hx Hy xs ys. unfold matmul, GraphNodeHandle_matmul.
  rewrite (bind_run _ _ _ _ _ (shape_run _ _ _ Hx)).
  rewrite (bind_run _ _ _ _ _ (shape_run _ _ _ Hy)).
  cbv zeta. fold xs ys. split.
  - intros [H|H].
    + subst xs. rewrite H. done.
    + subst ys. rewrite H. simpl. by rewrite orb_true_r.
  - intros inner_x inner_y Hnx Hny Hlx Hly Hne.
    assert (Hxs : (2 ≤ length xs)%nat).
    { subst xs. destruct (shape nx) as [|? [|? ?]]; simpl; try done; lia. }
    assert (Hys : (2 ≤ length ys)%nat).
    { subst ys. destruct (shape ny) as [|? [|? ?]]; simpl; try done; lia. }
    destruct (Nat.ltb_spec (length xs) 2); [lia|].
    destruct (Nat.ltb_spec (length ys) 2); [lia|]. simpl.
    assert (H1 : (xs ++ [1]) !! (length (xs ++ [1%Z]) - 2)%nat = Some inner_x).
    { rewrite length_app. simpl.
      replace (length xs + 1 - 2)%nat with (length xs - 1)%nat by lia.
      rewrite lookup_app_l by lia. rewrite last_lookup in Hlx.
      by replace (length xs - 1)%nat with (pred (length xs)) by lia. }
    assert (H2 : (take (length ys - 2) ys ++ 1 :: drop (length ys - 2) ys)
                   !! (length (take (length ys - 2) ys
                               ++ 1%Z :: drop (length ys - 2) ys) - 2)%nat
                 = Some inner_y).
    { set (k := (length ys - 2)%nat) in *.
      assert (Hl2 : length (drop k ys) = 2%nat) by (rewrite length_drop; lia).
      assert (Hidx : (length (take k ys ++ 1%Z :: drop k ys) - 2
                      = length (take k ys) + 1)%nat)
        by (rewrite length_app; simpl; lia).
      rewrite Hidx, (lookup_pushed (take k ys) (1 :: drop k ys) 1). simpl.
      by rewrite lookup_drop, Nat.add_0_r. }
    rewrite H1, H2. by destruct (Z.eqb_spec inner_x inner_y).
Qed.

Lemma matmul_validates_first_witness :
  let g := mkGraph [0; 1]%nat
             [mkNode Tensor [2; 5; 3] [15; 3; 1]; mkNode Tensor [4] [1]] in
  (nodes g !! 0%nat = Some (mkNode Tensor [2; 5; 3] [15; 3; 1])
   ∧ nodes g !! 1%nat = Some (mkNode Tensor [4] [1]))
  ∧ matmul 0 1 g = RThrow "Incompatible shapes in matmul" g.
Proof.
  intros g. split; [split; reflexivity|].
  exact (proj2 (matmul_validates_first 0 1 g _ _ eq_refl eq_refl)
           3 4 ltac:(done) ltac:(done) eq_refl eq_refl ltac:(done)).
Defined.

(** * Shapes of the results of the operator layer *)

Section ShapeTracking.

Lemma has_shape_push s z g node :
  has_shape s z g →
  has_shape s z (mkGraph (inputs g) (nodes g ++ [node])).
Proof.
  unfold has_shape. simpl. intros H.
  destruct (nodes g !! z) as [n|] eqn:Hz; [|done].
  by rewrite (lookup_app_l_Some _ _ _ _ Hz).
Qed.

Lemma yields_bind s1 s2 (m : M nat) (f : nat → M nat) g :
  yields s1 m g →
  (∀ h g', has_shape s1 h g' →
           (∀ s' z, has_shape s' z g → has_shape s' z g') →
           yields s2 (f h) g') →
  yields s2 (bind m f) g.
Proof.
  intros (h & g1 & Hm & Hh & Hmono) Hf.
  destruct (Hf h g1 Hh Hmono) as (h2 & g2 & Hf2 & Hh2 & Hmono2).
  exists h2, g2. unfold bind. rewrite Hm. eauto.
Qed.

Lemma yields_Immediate imm g : yields [] (AddNode_Immediate imm) g.
Proof.
  do 2 eexists. split; [reflexivity|]. split.
  - unfold has_shape. simpl. by rewrite list_lookup_middle.
  - intros s' z. apply has_shape_push.
Qed.

Lemma yields_UnaryOp s ty x g :
  has_shape s x g → yields s (AddNode_UnaryOp ty x) g.
Proof.
  unfold has_shape. intros Hx.
  destruct (nodes g !! x) as [nx|] eqn:Hnx; [|done]. injection Hx as <-.
  unfold yields, AddNode_UnaryOp, GraphNodeHandle_shape,
    GraphNodeHandle_strides, GetNode, bind, ret, AddNode.
  rewrite Hnx. simpl. rewrite Hnx.
  do 2 eexists. split; [reflexivity|]. split.
  - unfold has_shape. simpl. by rewrite list_lookup_middle.
  - intros s' z. apply has_shape_push.
Qed.

Lemma yields_BinaryOp s1 s2 b ty x y g :
  has_shape s1 x g → has_shape s2 y g →
  GetBroadcastedShape s1 s2 = Ok b →
  yields b (AddNode_BinaryOp ty x y) g.
Proof.
  unfold has_shape. intros Hx Hy Hb.
  destruct (nodes g !! x) as [nx|] eqn:Hnx; [|done]. injection Hx as <-.
  destruct (nodes g !! y) as [ny|] eqn:Hny; [|done]. injection Hy as <-.
  unfold yields. rewrite AddNode_BinaryOp_run, Hnx, Hny, Hb.
  do 2 eexists. split; [reflexivity|]. split.
  - unfold has_shape. simpl. by rewrite list_lookup_middle.
  - intros s' z. apply has_shape_push.
Qed.

Lemma throws_BinaryOp s1 s2 w ty x y g :
  has_shape s1 x g → has_shape s2 y g →
  GetBroadcastedShape s1 s2 = Throw w →
  throws w (AddNode_BinaryOp ty x y) g.
Proof.
  unfold has_shape. intros Hx Hy Hb.
  destruct (nodes g !! x) as [nx|] eqn:Hnx; [|done]. injection Hx as <-.
  destruct (nodes g !! y) as [ny|] eqn:Hny; [|done]. injection Hy as <-.
  exists g. by rewrite AddNode_BinaryOp_run, Hnx, Hny, Hb.
Qed.

Lemma throws_bind_now w (m : M nat) (f : nat → M nat) g :
  throws w m g → throws w (bind m f) g.
Proof. intros (g' & Hm). exists g'. unfold bind. by rewrite Hm. Qed.

Lemma throws_bind_later s w (m : M nat) (f : nat → M nat) g :
  yields s m g →
  (∀ h g', has_shape s h g' →
           (∀ s' z, has_shape s' z g → has_shape s' z g') →
           throws w (f h) g') →
  throws w (bind m f) g.
Proof.
  intros (h & g1 & Hm & Hh & Hmono) Hf.
  destruct (Hf h g1 Hh Hmono) as (g2 & Hf2).
  exists g2. unfold bind. by rewrite Hm.
Qed.

End ShapeTracking.

Ltac unfold_operators :=
  unfold run, hand_min, hand_neg, sigmoid, cos, pow, pow_fh, pow_hf,
    operator_ge, operator_ge_fh, operator_ge_hf, min_hf, min_fh, min,
    operator_le, operator_le_fh, operator_le_hf, operator_lt, operator_lt_fh,
    operator_lt_hf, operator_gt, operator_gt_fh, operator_gt_hf, max_hf,
    max_fh, max, operator_eq_hf, operator_eq_fh, operator_eq, operator_xor,
    operator_div_hf, operator_div_fh, operator_div, operator_neg,
    operator_mul_hf, operator_mul_fh, operator_mul, operator_sub_hf,
    operator_sub_fh, operator_sub, operator_add_hf, operator_add_fh,
    operator_add, sin, log, exp, WrapInUnary.

Ltac solve_has := solve [eauto 12].

Ltac solve_broadcast :=
  first [ eassumption
        | apply GetBroadcastedShape_scalar_l
        | apply GetBroadcastedShape_scalar_r
        | apply GetBroadcastedShape_self
        | eapply GetBroadcastedShape_absorb_eq; eassumption
        | rewrite GetBroadcastedShape_comm; eassumption
        | eapply GetBroadcastedShape_absorb_eq;
          rewrite GetBroadcastedShape_comm; eassumption ].

Ltac yields_tac :=
  lazymatch goal with
  | |- yields _ (bind _ _) _ =>
    eapply yields_bind; [yields_tac | intros ? ? ? ?; yields_tac]
  | |- yields _ (AddNode_Immediate _) _ => apply yields_Immediate
  | |- yields _ (AddNode_UnaryOp _ _) _ => apply yields_UnaryOp; solve_has
  | |- yields _ (AddNode_BinaryOp _ _ _) _ =>
    eapply yields_BinaryOp; [solve_has | solve_has | solve_broadcast]
  end.

Ltac throws_tac :=
  first [ eapply throws_BinaryOp; [solve_has | solve_has | solve_broadcast]
        | eapply throws_bind_now; throws_tac
        | eapply throws_bind_later;
          [solve [yields_tac] | intros ? ? ? ?; throws_tac] ].

(** X14.  The entry points with one tensor operand -- [exp], [log],
    [sin], [cos], [sigmoid], unary minus, and every arithmetic, comparison,
    [max], [min] and [pow] overload that takes a handle and a scalar -- never
    throw and are never undefined on a valid handle: they return a node that
    has the shape of the tensor operand. *)
Theorem elementwise_keeps_shape o c g x nx :
  tensor_operand c = Some x → nodes g !! x = Some nx →
  ∃ h g', run o c g = ROk h g'
          ∧ shape <$> nodes g' !! h = Some (shape nx).
Proof.
  intros Hc Hx.
  assert (Hs : has_shape (shape nx) x g) by (unfold has_shape; by rewrite Hx).
  assert (Hy : yields (shape nx) (run o c) g).
  { destruct c; try discriminate; simpl in Hc; injection Hc as ->;
      unfold_operators; yields_tac. }
  destruct Hy as (h & g' & Hr & Hh & _). eauto.
Qed.

Lemma elementwise_keeps_shape_witness :
  let g := mkGraph [0]%nat [mkNode Tensor [2; 3] [3; 1]] in
  nodes g !! 0%nat = Some (mkNode Tensor [2; 3] [3; 1])
  ∧ ∃ h g', run LeftToRight (CSigmoid 0) g = ROk h g'
            ∧ shape <$> nodes g' !! h = Some [2; 3].
Proof.
  intros g. split; [reflexivity|].
  exact (elementwise_keeps_shape LeftToRight (CSigmoid 0) g 0%nat _
           eq_refl eq_refl).
Defined.

(** X15.  The entry points with two tensor operands -- [+], [-], [*],
    [/], [==], [<], [<=], [>], [>=], [max], [min] and [pow] on two valid
    handles -- succeed exactly when the two shapes broadcast: then the node
    returned has the broadcast shape, and otherwise the call throws the
    broadcast error. *)
Theorem binary_result_has_broadcast_shape o c g x y nx ny :
  tensor_operands c = Some (x, y) →
  nodes g !! x = Some nx → nodes g !! y = Some ny →
  match GetBroadcastedShape (shape nx) (shape ny) with
  | Ok b => ∃ h g', run o c g = ROk h g' ∧ shape <$> nodes g' !! h = Some b
  | Throw w => ∃ g', run o c g = RThrow w g'
  | Undef => False
  end.
Proof.
  intros Hc Hx Hy.
  assert (Hsx : has_shape (shape nx) x g) by (unfold has_shape; by rewrite Hx).
  assert (Hsy : has_shape (shape ny) y g) by (unfold has_shape; by rewrite Hy).
  destruct (GetBroadcastedShape (shape nx) (shape ny)) as [b|w|] eqn:Hb.
  - assert (Hyl : yields b (run o c) g).
    { destruct c; try discriminate; simpl in Hc; injection Hc as -> ->;
        try destruct o; unfold_operators; yields_tac. }
    destruct Hyl as (h & g' & Hr & Hh & _). eauto.
  - assert (Ht : throws w (run o c) g).
    { destruct c; try discriminate; simpl in Hc; injection Hc as -> ->;
        try destruct o; unfold_operators; throws_tac. }
    exact Ht.
  - rewrite GetBroadcastedShape_spec in Hb. cbv zeta in Hb.
    by case_decide.
Qed.

Lemma binary_result_has_broadcast_shape_witness :
  let g := mkGraph [0; 1]%nat
             [mkNode Tensor [4; 1; 3] [3; 0; 1]; mkNode Tensor [5; 1] [1; 0]] in
  (nodes g !! 0%nat = Some (mkNode Tensor [4; 1; 3] [3; 0; 1])
   ∧ nodes g !! 1%nat = Some (mkNode Tensor [5; 1] [1; 0]))
  ∧ ∃ h g', run RightToLeft (CMin 0 1) g = ROk h g'
            ∧ shape <$> nodes g' !! h = Some [4; 5; 3].
Proof.
  intros g. split; [split; reflexivity|].
  exact (binary_result_has_broadcast_shape RightToLeft (CMin 0 1) g 0%nat
           1%nat _ _ eq_refl eq_refl eq_refl).
Defined.

(** * Handles and the input list *)

Ltac unfold_entry_points :=
  unfold run, operator_mod, matmul, transpose, permute, reshape_dim, reshape,
    GraphNodeHandle_reshape_dim, min_dims, min_dim,
    min_keepdim, max_dims, max_dim, max_keepdim, sum_dims, sum_dim,
    sum_keepdim, GraphNodeHandle_max, GraphNodeHandle_max_dim,
    GraphNodeHandle_max_dims, GraphNodeHandle_sum, GraphNodeHandle_sum_dim,
    GraphNodeHandle_sum_dims, Graph_AddInput_dim, Graph_Immediate;
  unfold_operators.

Section Handles.

Lemma grows_single_push m : single_push m → grows m.
Proof.
  intros H g. specialize (H g). destruct (m g) as [h g'|w g'|]; [| |done].
  - destruct H as (-> & node & -> & _). rewrite length_app. simpl. lia.
  - by subst.
Qed.

Lemma grows_bind (m : M nat) (f : nat → M nat) :
  grows m → (∀ a, grows (f a)) → grows (bind m f).
Proof.
  intros Hm Hf g. unfold bind. specialize (Hm g).
  destruct (m g) as [a g1|w g1|]; [|done..].
  specialize (Hf a g1). destruct (f a g1); [|lia|done].
  destruct Hf. split; [done|lia].
Qed.

Lemma grows_shape_bind x (f : list Z → M nat) :
  (∀ sh, grows (f sh)) → grows (bind (GraphNodeHandle_shape x) f).
Proof.
  intros Hf g. unfold bind at 1, GraphNodeHandle_shape, bind, GetNode, ret.
  destruct (nodes g !! x); [apply Hf|done].
Qed.

Lemma grows_throw w : grows (throw w).
Proof. intros g. simpl. lia. Qed.

Lemma grows_undef : grows undef.
Proof. intros g. done. Qed.

End Handles.

Ltac grows_tac :=
  repeat first
    [ apply grows_throw
    | apply grows_undef
    | apply grows_single_push;
      first [ apply single_push_Immediate | apply single_push_AddInput
            | apply single_push_UnaryOp | apply single_push_BinaryOp
            | apply single_push_WrapInReduction | apply single_push_reshape
            | apply single_push_permute | apply single_push_transpose ]
    | apply grows_shape_bind; intros ?
    | apply grows_bind; [|intros ?] ].

Section HandlesOfCalls.

Lemma grows_matmul x y : grows (GraphNodeHandle_matmul x y).
Proof.
  unfold GraphNodeHandle_matmul.
  apply grows_shape_bind; intros xs. apply grows_shape_bind; intros ys.
  cbv zeta. repeat case_match; unfold_entry_points; grows_tac.
Qed.

Lemma run_grows o c : grows (run o c).
Proof.
  destruct c; try apply grows_matmul; destruct o;
    unfold_entry_points; grows_tac.
Qed.

End HandlesOfCalls.

(** X16.  Every call that returns, returns the index of the node it
    appended last: the handle is the last index of the arena, it did not
    exist before the call, and every node that was in the arena is still at
    its index, unchanged. *)
Theorem returned_handle_is_fresh_last_node o c g h g' :
  run o c g = ROk h g' →
  S h = length (nodes g')
  ∧ (length (nodes g) ≤ h)%nat
  ∧ ∀ i n, nodes g !! i = Some n → nodes g' !! i = Some n.
Proof.
  intros Hr.
  pose proof (run_grows o c g) as Hg. rewrite Hr in Hg.
  pose proof (run_preserves o c g) as Hp. rewrite Hr in Hp.
  destruct Hg as [Hl Hlt], Hp as ([k Hk] & _).
  split; [done|]. split; [lia|].
  intros i n Hi. rewrite Hk. by apply lookup_app_l_Some.
Qed.

Lemma returned_handle_is_fresh_last_node_witness :
  let g := mkGraph [0]%nat [mkNode Tensor [2; 3] [3; 1]] in
  ∃ h g', run LeftToRight (CGe_hf 0 f_one) g = ROk h g'
          ∧ S h = length (nodes g') ∧ h = 10%nat.
Proof.
  intros g.
  eassert (Hr : run LeftToRight (CGe_hf 0 f_one) g = ROk _ _)
    by (vm_compute; reflexivity).
  do 2 eexists. split; [exact Hr|].
  split; [|reflexivity].
  exact (proj1 (returned_handle_is_fresh_last_node _ _ _ _ _ Hr)).
Defined.

Section Inputs.

Lemma tensor_indices_app l1 : ∀ k l2,
  tensor_indices k (l1 ++ l2)
  = tensor_indices k l1 ++ tensor_indices (k + length l1) l2.
Proof.
  induction l1 as [|n l1 IH]; intros k l2; simpl.
  - by rewrite Nat.add_0_r.
  - rewrite IH. replace (S k + length l1)%nat with (k + S (length l1))%nat
      by lia. by destruct (u n).
Qed.

Lemma tensor_indices_none l : ∀ k,
  Forall (λ n, u n ≠ Tensor) l → tensor_indices k l = [].
Proof.
  induction l as [|n l IH]; intros k Hall; [done|].
  inversion Hall as [|? ? Hn Hl]; subst. simpl.
  destruct (u n); try done; by apply IH.
Qed.

Lemma elem_of_tensor_indices l : ∀ k i,
  i ∈ tensor_indices k l
  ↔ (k ≤ i)%nat ∧ ∃ n, l !! (i - k)%nat = Some n ∧ u n = Tensor.
Proof.
  induction l as [|n l IH]; intros k i; simpl.
  - split; [by intros H%not_elem_of_nil|]. by intros (_ & ? & ? & _).
  - assert (Hrest : i ∈ tensor_indices (S k) l
                    ↔ (S k ≤ i)%nat
                      ∧ ∃ n', (n :: l) !! (i - k)%nat = Some n'
                              ∧ u n' = Tensor).
    { rewrite IH. split; intros (Hle & n' & Hn' & Hu); (split; [lia|]);
        exists n'; (split; [|done]).
      - by replace (i - k)%nat with (S (i - S k)) by lia.
      - by replace (i - k)%nat with (S (i - S k)) in Hn' by lia. }
    destruct (u n) eqn:Hu.
    1: { rewrite elem_of_cons, Hrest. split.
         - intros [->|(? & n' & ? & ?)]; [|split; [lia|eauto]].
           split; [lia|]. exists n. by rewrite Nat.sub_diag.
         - intros (Hle & n' & Hn' & Hu').
           destruct (decide (i = k)) as [->|]; [by left|].
           right. split; [lia|eauto]. }
    all: rewrite Hrest; split;
      [intros (? & n' & ? & ?); split; [lia|eauto]|];
      intros (Hle & n' & Hn' & Hu');
      (destruct (decide (i = k)) as [->|];
       [rewrite Nat.sub_diag in Hn'; simpl in Hn'; congruence
       |split; [lia|eauto]]).
Qed.

Lemma keeps_inputs_bind {A B} (m : M A) (f : A → M B) :
  keeps_inputs m → (∀ a, keeps_inputs (f a)) → keeps_inputs (bind m f).
Proof.
  intros Hm Hf g. unfold bind. specialize (Hm g).
  destruct (m g) as [a g1|w g1|]; [|done..].
  destruct Hm as (Hi & k & Hk & Hall).
  specialize (Hf a g1).
  destruct (f a g1) as [b g2|w g2|]; [| |done];
    destruct Hf as (Hi2 & k2 & Hk2 & Hall2);
    (split; [congruence|]); exists (k ++ k2);
    (split; [by rewrite Hk2, Hk, app_assoc|by apply Forall_app]).
Qed.

Lemma keeps_inputs_pushes_op m : pushes_op m → keeps_inputs m.
Proof.
  intros H g. specialize (H g). destruct (m g) as [h g'|w g'|]; [| |done].
  - destruct H as (node & -> & Hn). split; [done|].
    exists [node]. split; [done|]. by constructor.
  - subst. split; [done|]. exists []. by rewrite app_nil_r.
Qed.

Lemma keeps_inputs_shape x : keeps_inputs (GraphNodeHandle_shape x).
Proof.
  intros g. unfold GraphNodeHandle_shape, GetNode, bind, ret.
  destruct (nodes g !! x); [|done]. split; [done|].
  exists []. by rewrite app_nil_r.
Qed.

Lemma keeps_inputs_throw {A} w : keeps_inputs (@throw A w).
Proof. intros g. split; [done|]. exists []. by rewrite app_nil_r. Qed.

Lemma keeps_inputs_undef {A} : keeps_inputs (@undef A).
Proof. intros g. done. Qed.

Ltac unfold_m :=
  unfold GraphNodeHandle_shape, GraphNodeHandle_strides, GetNode,
    AddNode_ViewOp, AddNode_Tensor, AddNode, bind, lift, ret, throw, undef.

Ltac pushed_op := simpl; eexists; split; [reflexivity|done].

Lemma pushes_op_Immediate imm : pushes_op (AddNode_Immediate imm).
Proof. intros g. unfold AddNode_Immediate. unfold_m. pushed_op. Qed.

Lemma pushes_op_UnaryOp ty x : pushes_op (AddNode_UnaryOp ty x).
Proof.
  intros g. unfold AddNode_UnaryOp. unfold_m.
  destruct (nodes g !! x) as [n|] eqn:Hx; [|done].
  simpl. rewrite Hx. pushed_op.
Qed.

Lemma pushes_op_BinaryOp ty x y : pushes_op (AddNode_BinaryOp ty x y).
Proof.
  intros g. rewrite AddNode_BinaryOp_run.
  repeat case_match; simplify_eq; try done; pushed_op.
Qed.

Lemma pushes_op_WrapInReduction x ty dims k :
  pushes_op (WrapInReduction x ty dims k).
Proof.
  intros g. rewrite WrapInReduction_run.
  repeat case_match; simplify_eq; try done; pushed_op.
Qed.

Lemma pushes_op_reshape x ns : pushes_op (GraphNodeHandle_reshape x ns).
Proof.
  intros g. unfold GraphNodeHandle_reshape. unfold_m.
  destruct (nodes g !! x) as [nx|] eqn:Hx; [|done].
  repeat case_match; simplify_eq; try done; pushed_op.
Qed.

Lemma pushes_op_permute x dims : pushes_op (GraphNodeHandle_permute x dims).
Proof.
  intros g. unfold GraphNodeHandle_permute. unfold_m.
  destruct (nodes g !! x) as [nx|] eqn:Hx; [|done].
  repeat case_match; simplify_eq; try done; pushed_op.
Qed.

End Inputs.

Ltac keeps_inputs_tac :=
  repeat first
    [ apply keeps_inputs_shape
    | apply keeps_inputs_throw
    | apply keeps_inputs_undef
    | apply keeps_inputs_pushes_op;
      first [ apply pushes_op_Immediate | apply pushes_op_UnaryOp
            | apply pushes_op_BinaryOp | apply pushes_op_WrapInReduction
            | apply pushes_op_reshape | apply pushes_op_permute ]
    | apply keeps_inputs_bind; [|intros ?] ].

Section InputsOfCalls.

Lemma keeps_inputs_matmul x y : keeps_inputs (GraphNodeHandle_matmul x y).
Proof.
  unfold GraphNodeHandle_matmul.
  apply keeps_inputs_bind; [apply keeps_inputs_shape|intros xs].
  apply keeps_inputs_bind; [apply keeps_inputs_shape|intros ys].
  cbv zeta. repeat case_match; unfold_entry_points; keeps_inputs_tac.
Qed.

Lemma run_inputs o c g :
  inputs g = tensor_indices 0 (nodes g) →
  match run o c g with
  | ROk _ g' | RThrow _ g' => inputs g' = tensor_indices 0 (nodes g')
  | RUndef => True
  end.
Proof.
  intros Hg.
  assert (Hadd : ∀ sh,
    match Graph_AddInput sh g with
    | ROk _ g' | RThrow _ g' => inputs g' = tensor_indices 0 (nodes g')
    | RUndef => True
    end).
  { intros sh. unfold Graph_AddInput, AddNode_Tensor, AddNode. simpl.
    by rewrite tensor_indices_app, Hg. }
  assert (Hkeep : keeps_inputs (run o c) →
    match run o c g with
    | ROk _ g' | RThrow _ g' => inputs g' = tensor_indices 0 (nodes g')
    | RUndef => True
    end).
  { intros H. specialize (H g).
    destruct (run o c g) as [h g'|w g'|]; [| |done];
      destruct H as (-> & k & -> & Hall);
      by rewrite tensor_indices_app, (tensor_indices_none k), app_nil_r. }
  destruct c; try apply Hadd; apply Hkeep;
    try apply keeps_inputs_matmul; destruct o;
    unfold_entry_points; unfold GraphNodeHandle_transpose; keeps_inputs_tac.
Qed.

Lemma build_inputs o cs : ∀ g g',
  inputs g = tensor_indices 0 (nodes g) →
  build o cs g = Some g' → inputs g' = tensor_indices 0 (nodes g').
Proof.
  induction cs as [|c cs IH]; intros g g' Hg; simpl.
  - by intros [= <-].
  - pose proof (run_inputs o c g Hg) as Hc.
    destruct (run o c g) as [h g1|w g1|]; [| |done]; by apply IH.
Qed.

End InputsOfCalls.

(** X17.  In every graph built from the empty graph by a sequence of
    calls, the input list is exactly the list of the indices of the
    [Tensor] nodes, in ascending order: an index is registered as an input
    if and only if its node is a [Tensor], and only [AddInput] creates
    such nodes. *)
Theorem inputs_are_the_tensor_nodes o cs g :
  build o cs empty_graph = Some g →
  inputs g = tensor_indices 0 (nodes g)
  ∧ ∀ i, i ∈ inputs g ↔ ∃ n, nodes g !! i = Some n ∧ u n = Tensor.
Proof.
  intros Hb. apply build_inputs in Hb; [|done]. split; [done|].
  intros i. rewrite Hb, elem_of_tensor_indices, Nat.sub_0_r.
  split; [by intros [_ ?]|]. intros H. split; [lia|done].
Qed.

Lemma inputs_are_the_tensor_nodes_witness :
  let cs := [CAddInput [2; 3]; CImmediate f_one; CAddInput_dim 3;
             CMul 0 2; CTranspose 0; CAddInput []] in
  ∃ g, build LeftToRight cs empty_graph = Some g
       ∧ inputs g = [0; 2; 5]%nat
       ∧ inputs g = tensor_indices 0 (nodes g).
Proof.
  intros cs.
  eassert (Hb : build LeftToRight cs empty_graph = Some _)
    by (vm_compute; reflexivity).
  eexists. split; [exact Hb|]. split; [reflexivity|].
  exact (proj1 (inputs_are_the_tensor_nodes LeftToRight cs _ Hb)).
Defined.

(** X18.  In every graph built from the empty graph by a sequence of
    calls, every node has as many strides as it has dimensions. *)
Theorem strides_have_the_length_of_the_shape o cs g i n :
  build o cs empty_graph = Some g →
  nodes g !! i = Some n →
  length (strides n) = length (shape n).
Proof.
  intros Hb Hi. apply build_step_ok in Hb as (_ & _ & Hs).
  rewrite (Hs strides_canonical_empty i n Hi).
  generalize (shape n). intros sh. induction sh; simpl; [done|]. by f_equal.
Qed.

Lemma strides_have_the_length_of_the_shape_witness :
  let cs := [CAddInput [2; 1; 3]; CSum_dim 0 1 false; CExp 1] in
  ∃ g n, build LeftToRight cs empty_graph = Some g
         ∧ nodes g !! 2%nat = Some n
         ∧ length (strides n) = 2%nat
         ∧ length (strides n) = length (shape n).
Proof.
  intros cs.
  eassert (Hb : build LeftToRight cs empty_graph = Some _)
    by (vm_compute; reflexivity).
  do 2 eexists. split; [exact Hb|]. split; [reflexivity|].
  split; [reflexivity|].
  exact (strides_have_the_length_of_the_shape LeftToRight cs _ 2%nat _ Hb
           eq_refl).
Defined.

(** * The module layer *)

Section ModuleLayer.

Lemma run_inputs_grow o c g :
  inputs g = tensor_indices 0 (nodes g) →
  match run o c g with
  | ROk _ g' | RThrow _ g' =>
    inputs g' = tensor_indices 0 (nodes g')
    ∧ (length (inputs g) ≤ length (inputs g'))%nat
  | RUndef => True
  end.
Proof.
  intros Hg. pose proof (run_inputs o c g Hg) as Hi.
  pose proof (run_preserves o c g) as Hp.
  destruct (run o c g) as [h g'|w g'|]; [| |done];
    destruct Hp as ([k Hk] & _); (split; [done|]);
    rewrite Hi, Hg, Hk, tensor_indices_app, length_app; lia.
Qed.

Lemma Module_run_ok o mc m :
  module_ok m →
  match Module_run o mc m with
  | MOk _ m' | MThrow _ m' => module_ok m'
  | MUndef => True
  end.
Proof.
  intros [Hi Hw].
  assert (Hplain : ∀ c,
    match on_graph (weights m) (run o c (graph m)) with
    | MOk _ m' | MThrow _ m' => module_ok m'
    | MUndef => True
    end).
  { intros c. pose proof (run_inputs_grow o c (graph m) Hi) as Hc.
    destruct (run o c (graph m)) as [h g'|w g'|]; [| |done];
      destruct Hc as [Hi' Hl]; (split; [done|]); simpl;
      (eapply Forall_impl; [exact Hw|]); simpl; intros; lia. }
  assert (Hweight : ∀ sh,
    match Module_AddWeight sh m with
    | MOk _ m' | MThrow _ m' => module_ok m'
    | MUndef => True
    end).
  { intros sh. unfold Module_AddWeight, Graph_AddInput, AddNode_Tensor,
      AddNode, on_graph, module_ok. simpl. split.
    - by rewrite tensor_indices_app, Hi.
    - rewrite length_app. simpl. apply Forall_app. split.
      + eapply Forall_impl; [exact Hw|]. simpl. intros. lia.
      + constructor; [lia|constructor]. }
  destruct mc; simpl.
  - apply (Hplain (CAddInput shape0)).
  - apply (Hplain (CAddInput_dim dim)).
  - apply Hweight.
  - apply Hweight.
  - apply Hplain.
Qed.

Lemma Module_build_ok o cs : ∀ m m',
  module_ok m → Module_build o cs m = Some m' → module_ok m'.
Proof.
  induction cs as [|c cs IH]; intros m m' Hm; simpl.
  - by intros [= <-].
  - pose proof (Module_run_ok o c m Hm) as Hc.
    destruct (Module_run o c m) as [h m1|w m1|]; [| |done]; by apply IH.
Qed.

End ModuleLayer.

(** X19.  [AddWeight] returns the handle of a new [Tensor] node of the
    given shape with canonical strides (products in [dim_t]), registers it
    as the last input, and records in [weights] the position of that input
    in the input list (the length the list had before the call); it never
    throws. *)
Theorem AddWeight_records_input_position sh m :
  let g := graph m in
  let h := length (nodes g) in
  Module_AddWeight sh m
  = MOk h (mkModule
             (mkGraph (inputs g ++ [h])
                (nodes g ++ [mkNode Tensor sh (canonical_strides sh)]))
             (weights m ++ [length (inputs g)]))
  ∧ (inputs g ++ [h]) !! length (inputs g) = Some h.
Proof.
  intros g h. split.
  - unfold Module_AddWeight, Graph_AddInput, AddNode_Tensor, AddNode, on_graph.
    simpl. by rewrite ComputeStrides_canonical.
  - by apply list_lookup_middle.
Qed.

Lemma AddWeight_records_input_position_witness :
  Module_AddWeight [2; 4294967296; 4294967296; 2] empty_module
  = MOk 0%nat
      (mkModule
         (mkGraph [0]%nat
            [mkNode Tensor [2; 4294967296; 4294967296; 2]
               [0; 8589934592; 2; 1]])
         [0]%nat).
Proof.
  exact (proj1 (AddWeight_records_input_position
                  [2; 4294967296; 4294967296; 2] empty_module)).
Defined.

(** X20.  In every module built from the empty module by [AddInput],
    [AddWeight] and builder calls on its graph, every entry of [weights] is
    a position of the input list, and the input at that position is the
    handle of a [Tensor] node. *)
Theorem weights_point_at_tensor_inputs o cs m w :
  Module_build o cs empty_module = Some m →
  w ∈ weights m →
  ∃ h n, inputs (graph m) !! w = Some h
         ∧ nodes (graph m) !! h = Some n ∧ u n = Tensor.
Proof.
  intros Hb Hw.
  apply Module_build_ok in Hb as [Hi Hall]; [|by split; [|constructor]].
  rewrite Forall_forall in Hall. specialize (Hall w Hw).
  destruct (lookup_lt_is_Some_2 _ _ Hall) as [h Hh].
  assert (Hin : h ∈ inputs (graph m)) by by eapply list_elem_of_lookup_2.
  rewrite Hi in Hin. apply elem_of_tensor_indices in Hin as (_ & n & Hn & Hu).
  rewrite Nat.sub_0_r in Hn. eauto.
Qed.

Lemma weights_point_at_tensor_inputs_witness :
  let cs := [MAddInput [4; 3]; MAddWeight [3; 2]; MBuilder (CMatmul 0 1);
             MAddWeight_dim 2; MBuilder (CAdd 5 6)] in
  ∃ m, Module_build LeftToRight cs empty_module = Some m
       ∧ weights m = [1; 2]%nat ∧ inputs (graph m) = [0; 1; 6]%nat
       ∧ ∃ h n, inputs (graph m) !! 2%nat = Some h
                ∧ nodes (graph m) !! h = Some n ∧ u n = Tensor.
Proof.
  intros cs.
  eassert (Hb : Module_build LeftToRight cs empty_module = Some _)
    by (vm_compute; reflexivity).
  eexists. split; [exact Hb|]. split; [reflexivity|]. split; [reflexivity|].
  refine (weights_point_at_tensor_inputs LeftToRight cs _ 2%nat Hb _).
  simpl. apply elem_of_cons. right. apply elem_of_cons. by left.
Defined.

(** * More on reductions and permutations *)

Section Canonical.

Lemma sort_Permutation_eq (l k : list Z) : l ≡ₚ k → sort l = sort k.
Proof.
  intros H. unfold sort. apply (Sorted_unique Z.le).
  - apply (Sorted_merge_sort Z.le).
  - apply (Sorted_merge_sort Z.le).
  - by rewrite !merge_sort_Permutation.
Qed.

Lemma scatter_Permutation fixed (sh : list Z) :
  NoDup fixed → length fixed = length sh →
  Forall (λ f, (f < length sh)%nat) fixed →
  scatter fixed sh (replicate (length sh) 0) ≡ₚ sh.
Proof.
  intros Hnd Hlen Hall.
  set (s := scatter fixed sh (replicate (length sh) 0)).
  assert (Hs : length s = length sh)
    by (unfold s; by rewrite scatter_length, length_replicate).
  assert (Hperm : fixed ≡ₚ seq 0 (length sh)).
  { apply submseteq_length_Permutation.
    - apply NoDup_submseteq; [done|]. intros f Hf.
      rewrite Forall_forall in Hall. apply elem_of_seq.
      specialize (Hall f Hf). lia.
    - by rewrite length_seq, Hlen. }
  assert (Hsh : sh = (λ f, default 0 (s !! f)) <$> fixed).
  { apply list_eq. intros j. rewrite list_lookup_fmap.
    destruct (fixed !! j) as [fj|] eqn:Hj; simpl.
    - unfold s. rewrite (scatter_lookup fixed sh _ j fj); try done.
      + destruct (sh !! j) eqn:Hshj; [done|].
        apply lookup_ge_None in Hshj. apply lookup_lt_Some in Hj. lia.
      + rewrite length_replicate. rewrite Forall_forall in Hall.
        apply Hall. by eapply list_elem_of_lookup_2.
    - apply lookup_ge_None. apply lookup_ge_None in Hj. lia. }
  assert (Hseq : (λ f, default 0 (s !! f)) <$> seq 0 (length sh) = s).
  { apply list_eq. intros i. rewrite list_lookup_fmap.
    destruct (decide (i < length sh)%nat).
    - rewrite lookup_seq_lt by done. simpl.
      destruct (lookup_lt_is_Some_2 s i ltac:(lia)) as [v ->]. done.
    - rewrite lookup_seq_ge by lia. symmetry. apply lookup_ge_None. lia. }
  transitivity ((λ f, default 0 (s !! f)) <$> seq 0 (length sh));
    [by rewrite Hseq|].
  rewrite <- Hperm. by rewrite <- Hsh.
Qed.

End Canonical.

(** X21.  The stored form of a reduction is canonical: on a valid handle
    of non-scalar shape, two axis lists that are rearrangements of each
    other modulo the rank (the same axes in another order, or written with
    negative indices) give the same outcome, node for node. *)
Theorem reduction_is_canonical x ty dims dims' keepdim g nx :
  nodes g !! x = Some nx → shape nx ≠ [] →
  let rank := Z.of_nat (length (shape nx)) in
  (λ d, d `mod` rank) <$> dims ≡ₚ (λ d, d `mod` rank) <$> dims' →
  WrapInReduction x ty dims keepdim g = WrapInReduction x ty dims' keepdim g.
Proof.
  intros Hx Hsh rank Hp.
  assert (Hr : 0 < rank) by (unfold rank; destruct (shape nx); [done|simpl; lia]).
  rewrite !WrapInReduction_run, Hx. fold rank.
  rewrite !fix_dims_mod by done.
  by rewrite (sort_Permutation_eq _ _ Hp).
Qed.

Lemma reduction_is_canonical_witness :
  let g := mkGraph [0]%nat [mkNode Tensor [2; 3; 4] [12; 4; 1]] in
  nodes g !! 0%nat = Some (mkNode Tensor [2; 3; 4] [12; 4; 1])
  ∧ GraphNodeHandle_sum_dims 0 [2; 0] true g
    = GraphNodeHandle_sum_dims 0 [-3; -1] true g.
Proof.
  intros g. split; [reflexivity|].
  refine (reduction_is_canonical 0 RSUM [2; 0] [-3; -1] true g _ eq_refl
            ltac:(done) _).
  simpl. apply Permutation_swap.
Defined.

(** X22.  [permute] only rearranges the dimensions: whenever it succeeds
    on a valid handle, the shape of the view is a rearrangement of the shape
    of the input. *)
Theorem permute_rearranges_shape x dims g nx h g' :
  nodes g !! x = Some nx →
  permute x dims g = ROk h g' →
  ∃ n, nodes g' !! h = Some n ∧ u n = ViewOp x ∧ shape n ≡ₚ shape nx.
Proof.
  intros Hx. unfold permute. rewrite (permute_outcome _ _ _ _ Hx). cbv zeta.
  destruct (Nat.eqb_spec (length dims) (length (shape nx))) as [Hl|];
    [|done]. simpl.
  case_decide as Hnd; [|done]. intros [= <- <-].
  eexists. split; [simpl; by apply list_lookup_middle|]. split; [done|].
  simpl. apply scatter_Permutation; [done| |].
  - unfold fixed_axes. by rewrite length_fmap.
  - apply Forall_forall. intros f Hf. unfold fixed_axes in Hf.
    apply list_elem_of_fmap in Hf as (d & -> & Hd).
    assert (0 < length (shape nx))%nat.
    { destruct dims; [by apply not_elem_of_nil in Hd|simpl in Hl; lia]. }
    pose proof (Z.mod_pos_bound d (Z.of_nat (length (shape nx))) ltac:(lia)).
    lia.
Qed.

Lemma permute_rearranges_shape_witness :
  let g := mkGraph [0]%nat [mkNode Tensor [2; 3; 4] [12; 4; 1]] in
  nodes g !! 0%nat = Some (mkNode Tensor [2; 3; 4] [12; 4; 1])
  ∧ ∃ n, u n = ViewOp 0 ∧ shape n ≡ₚ [2; 3; 4].
Proof.
  intros g. split; [reflexivity|].
  eassert (Hp : permute 0 [1; 2; 0] g = ROk _ _) by (vm_compute; reflexivity).
  destruct (permute_rearranges_shape 0 [1; 2; 0] g _ _ _ eq_refl Hp)
    as (n & _ & Hu & Hs).
  exists n. by split.
Defined.

(** X23.  [min] over all axes is built from [max]: on a valid handle,
    [min(x, keepdim)] never throws and appends exactly five nodes, the
    negation of [x] ([Immediate(-1)] and [MUL]), the [MAX] reduction of it
    over all axes, and the negation of that reduction; the result is scalar,
    or all ones when the dimensions are kept. *)
Theorem min_over_all_axes x (keepdim : bool) g nx :
  nodes g !! x = Some nx →
  let n := length (nodes g) in
  let rank := length (shape nx) in
  let rs := if keepdim then replicate rank 1 else [] in
  let imm := mkNode (Immediate f_minus_one) [] [] in
  let node v sh := mkNode v sh (canonical_strides sh) in
  min_keepdim x keepdim g
  = ROk (n + 4)%nat
      (mkGraph (inputs g)
         (nodes g ++
          [imm; node (BinaryOp MUL n x) (shape nx);
           node (ReduceOp RMAX (n + 1) (iota rank) keepdim) rs;
           imm; node (BinaryOp MUL (n + 3) (n + 2)) rs])).
Proof.
  intros Hx n rank rs imm node. unfold min_keepdim.
  erewrite bind_run; [|by apply operator_neg_run].
  unfold max_keepdim, GraphNodeHandle_max, GraphNodeHandle_max_dims.
  erewrite bind_run;
    [|erewrite bind_run; [|apply shape_run; cbn [nodes]; solve_lookup];
      apply reduce_all_run; cbn [nodes]; solve_lookup].
  erewrite operator_neg_run; [|cbn [nodes]; solve_lookup].
  cbn [nodes inputs shape]. fold rank. fold rs. unfold node.
  assert (Hcs : (if keepdim then replicate rank 0 else [])
                = canonical_strides rs).
  { unfold rs. destruct keepdim; [|done]. by rewrite canonical_strides_ones. }
  rewrite Hcs, !length_app, <- !app_assoc. simpl.
  rewrite <- !Nat.add_assoc. reflexivity.
Qed.

Lemma min_over_all_axes_witness :
  let g := mkGraph [0]%nat [mkNode Tensor [2; 3] [3; 1]] in
  nodes g !! 0%nat = Some (mkNode Tensor [2; 3] [3; 1])
  ∧ ∃ g', min_keepdim 0 true g = ROk 5%nat g'
          ∧ shape <$> nodes g' !! 5%nat = Some [1; 1].
Proof.
  intros g. split; [reflexivity|].
  eexists. split; [exact (min_over_all_axes 0 true g _ eq_refl)|reflexivity].
Defined.

(** X24.  In every graph built from the empty graph by a sequence of
    calls, [data()] is accepted exactly on the handles registered as inputs:
    on any other handle of the arena it throws, on an index outside the
    arena it is undefined, and it never changes the graph. *)
Theorem data_only_on_inputs o cs g h :
  build o cs empty_graph = Some g →
  (h ∈ inputs g → GraphNodeHandle_data h g = ROk tt g)
  ∧ (h ∉ inputs g → (h < length (nodes g))%nat →
     GraphNodeHandle_data h g
     = RThrow "Cannot call data() on non-Tensor node" g)
  ∧ ((length (nodes g) ≤ h)%nat → GraphNodeHandle_data h g = RUndef).
Proof.
  intros Hb. apply build_inputs in Hb; [|done].
  unfold GraphNodeHandle_data, bind, GetNode.
  split; [|split].
  - intros Hin. rewrite Hb in Hin.
    apply elem_of_tensor_indices in Hin as (_ & n & Hn & Hu).
    rewrite Nat.sub_0_r in Hn. by rewrite Hn, Hu.
  - intros Hnin Hlt.
    destruct (lookup_lt_is_Some_2 _ _ Hlt) as [n Hn]. rewrite Hn.
    destruct (u n) eqn:Hu; try done.
    exfalso. apply Hnin. rewrite Hb. apply elem_of_tensor_indices.
    split; [lia|]. exists n. by rewrite Nat.sub_0_r.
  - intros Hge. by rewrite (lookup_ge_None_2 _ _ Hge).
Qed.

Lemma data_only_on_inputs_witness :
  let cs := [CAddInput [2; 3]; CExp 0] in
  ∃ g, build LeftToRight cs empty_graph = Some g
       ∧ GraphNodeHandle_data 0 g = ROk tt g
       ∧ GraphNodeHandle_data 1 g
         = RThrow "Cannot call data() on non-Tensor node" g.
Proof.
  intros cs.
  eassert (Hb : build LeftToRight cs empty_graph = Some _)
    by (vm_compute; reflexivity).
  eexists. split; [exact Hb|].
  pose proof (data_only_on_inputs LeftToRight cs _ 0%nat Hb) as (H0 & _ & _).
  pose proof (data_only_on_inputs LeftToRight cs _ 1%nat Hb) as (_ & H1 & _).
  split.
  - apply H0. simpl. by left.
  - apply H1; [|simpl; lia]. simpl. intros H.
    apply list_elem_of_singleton in H. done.
Defined.

(** * Handles of several graphs *)

Section SeveralGraphs.

Lemma of_graph_lookup γ g x :
  graphs.nodes (graphs.of_graph γ g) !! x = graphs.of_node γ <$> nodes g !! x.
Proof. apply list_lookup_fmap. Qed.

Lemma of_graph_push γ g node :
  graphs.mkGraph (graphs.inputs (graphs.of_graph γ g))
    (graphs.nodes (graphs.of_graph γ g) ++ [graphs.of_node γ node])
  = graphs.of_graph γ (mkGraph (inputs g) (nodes g ++ [node])).
Proof. unfold graphs.of_graph. simpl. by rewrite fmap_app. Qed.

(** On operands of one graph, [operator+] of the model with several graphs
    is [operator+] of the single arena, on that graph. *)
Lemma operator_add_same_graph w γ g x y :
  w !! γ = Some (graphs.of_graph γ g) →
  graphs.operator_add (graphs.mkHandle γ x) (graphs.mkHandle γ y) w
  = graphs.of_result γ w (operator_add x y g).
Proof.
  intros Hw.
  cbv [graphs.operator_add graphs.AddNode_BinaryOp graphs.bind
       graphs.GraphNodeHandle_shape graphs.GetNode graphs.ret
       graphs.graph graphs.node_idx
       operator_add AddNode_BinaryOp bind GraphNodeHandle_shape GetNode ret].
  rewrite Hw, of_graph_lookup.
  destruct (nodes g !! x) as [nx|]; [|done].
  cbn [fmap option_fmap option_map]. rewrite Hw, of_graph_lookup.
  destruct (nodes g !! y) as [ny|]; [|done].
  cbn [fmap option_fmap option_map graphs.shape graphs.of_node].
  destruct (GetBroadcastedShape (shape nx) (shape ny)) as [b|what|];
    cbn [graphs.lift lift graphs.of_result]; [| |done].
  - cbv [graphs.ret ret graphs.AddNode AddNode]. rewrite Hw.
    cbn [graphs.of_result]. f_equal.
    + unfold graphs.of_graph. cbn [graphs.nodes]. by rewrite length_fmap.
    + f_equal. apply (of_graph_push γ g (mkNode (BinaryOp ADD x y) b _)).
  - unfold throw. cbn [graphs.of_result]. by rewrite list_insert_id.
Qed.

(** The same for [Graph::AddInput]. *)
Lemma Graph_AddInput_same_graph w γ g sh :
  w !! γ = Some (graphs.of_graph γ g) →
  graphs.Graph_AddInput γ sh w
  = graphs.of_result γ w (Graph_AddInput sh g).
Proof.
  intros Hw. pose proof (lookup_lt_Some _ _ _ Hw) as Hlt.
  unfold graphs.Graph_AddInput, graphs.AddNode_Tensor, graphs.AddNode.
  rewrite Hw, list_lookup_insert_eq by done.
  unfold Graph_AddInput, AddNode_Tensor, AddNode.
  cbn [graphs.of_result graphs.nodes graphs.inputs graphs.of_graph
       nodes inputs].
  rewrite list_insert_insert_eq, length_fmap. f_equal. f_equal.
  unfold graphs.of_graph. cbn [nodes inputs]. by rewrite fmap_app.
Qed.

End SeveralGraphs.

(** * Products that leave [dim_t] *)

Section Wrapping.

(** The strides of the shape [2, 2^32, 2^32, 2]: the running product
    reaches [2^65], which [dim_t] holds as [0]. *)
Lemma ComputeStrides_wraps :
  ComputeStrides [2; 4294967296; 4294967296; 2] = [0; 8589934592; 2; 1]
  ∧ exact_strides [2; 4294967296; 4294967296; 2]
    = [36893488147419103232; 8589934592; 2; 1]
  ∧ products_fit [2; 4294967296; 4294967296; 2] = false.
Proof. repeat split; reflexivity. Qed.

(** [2^32 * 2^32] elements count as none: the product of the other
    dimensions of [2^32, 2^32, -1] is [0] in [dim_t], and [reshape] divides
    by it. *)
Lemma reshape_placeholder_divides_by_zero :
  let g := mkGraph [0]%nat [mkNode Tensor [0] [1]] in
  num_elements_skipping [4294967296; 4294967296; -1] = 0
  ∧ reshape 0 [4294967296; 4294967296; -1] g = RUndef.
Proof. split; reflexivity. Qed.

(** The quotient of the least [dim_t] by [-1]: an input of [2^63] elements,
    which [dim_t] holds as [-2^63], and a target whose other dimensions
    multiply to [2^64 - 1], which [dim_t] holds as [-1]. *)
Lemma reshape_placeholder_quotient_overflows :
  let g := mkGraph [0]%nat
             [mkNode Tensor [2147483648; 4294967296] [4294967296; 1]] in
  num_elements_of [2147483648; 4294967296] = dim_t_min
  ∧ num_elements_skipping [4294967297; 4294967295; -1] = -1
  ∧ reshape 0 [4294967297; 4294967295; -1] g = RUndef.
Proof. repeat split; reflexivity. Qed.

End Wrapping.
